(** * Streaming transcription session subsystem (stt_service)

    Shallow embedding of the three collaborating layers of the STT
    micro-service:

    - [MotorSTTVosk]             (motor_stt_vosk.py)       the transcription engine,
    - [OrquestradorEnvioGlossa]  (orquestrador_envio.py)   the dispatch orchestrator,
    - [Gateway]                  (gateway_comunicacao.py)  the WebSocket session handler,

    together with the message schemas of esquema_mensagens.py.

    Modelling conventions.
    - A Python [str] is a list of Unicode code points, so that [len] counts
      characters as Python does.
    - A Python [float] is a double, named by the decimal numeral that Python
      prints for it ([repr]): [3 # 10] is the double 0.3.  The confidence of the
      engine is computed in IEEE 754 binary64 arithmetic ([Py.float_add] and the
      like): the operands are read as the nearest doubles, the exact result is
      rounded to the nearest double, ties to even, and named by its shortest
      decimal.  The exponent range is not bounded above, so infinities and NaN
      do not arise.  The clock differences, latency totals and rates of the
      orchestrator and of the gateway are computed exactly.
    - Python exceptions are values of [exn]; code that can raise lives in the
      state-and-exception monad [M], in which mutations made before a [raise]
      persist, as they do on Python objects.
    - Everything outside the repository (the Vosk recognizer, [requests.post],
      the WebSocket peer, the clocks) is an oracle: a value that records what
      the outside world answers at that point of the run. *)

From Stdlib Require Import ZArith QArith Qround Qpower List String Ascii Bool Lia Lqa.
Import ListNotations.

Local Open Scope Z_scope.

(* ================================================================== *)
(** * Python runtime                                                   *)
(* ================================================================== *)

Module Py.

(** ** Strings *)

Definition codepoint := N.
Definition str := list codepoint.

(** An ASCII literal of the source as a [str]. *)
Definition lit (s : string) : str :=
  List.map N_of_ascii (list_ascii_of_string s).

(** [str.isspace] on one character: the code points whose Unicode
    property is White_Space or whose bidirectional class is WS, B or S. *)
Definition isspace (c : codepoint) : bool :=
  ((9 <=? c) && (c <=? 13) || (28 <=? c) && (c <=? 32)
   || (c =? 133) || (c =? 160) || (c =? 5760)
   || (8192 <=? c) && (c <=? 8202)
   || (c =? 8232) || (c =? 8233) || (c =? 8239) || (c =? 8287)
   || (c =? 12288))%N.

Fixpoint lstrip (s : str) : str :=
  match s with
  | [] => []
  | c :: s' => if isspace c then lstrip s' else s
  end.

Definition rstrip (s : str) : str := rev (lstrip (rev s)).

(** [s.strip()] *)
Definition strip (s : str) : str := rstrip (lstrip s).

(** Truth value of an object reference: [None] is false. *)
Definition truthy_opt {A} (o : option A) : bool :=
  match o with Some _ => true | None => false end.

(** Truth value of a sequence: empty is false. *)
Definition truthy {A} (l : list A) : bool :=
  match l with [] => false | _ :: _ => true end.

(** [len(s)] *)
Definition len {A} (l : list A) : Z := Z.of_nat (List.length l).

(** [s[:n]] for a non-negative literal [n]. *)
Definition slice_to {A} (n : nat) (l : list A) : list A := firstn n l.

(** ** Floats *)

Definition Qlt_bool (x y : Q) : bool := negb (Qle_bool y x).
Definition Qgt_bool (x y : Q) : bool := Qlt_bool y x.
Definition Qge_bool (x y : Q) : bool := Qle_bool y x.

(** Nearest integer, ties to the even one. *)
Definition round_half_even (q : Q) : Z :=
  let f := Qfloor q in
  match Qcompare (q - inject_Z f) (1 # 2) with
  | Lt => f
  | Gt => f + 1
  | Eq => if Z.even f then f else f + 1
  end.

(** [round(q, ndigits)] for a non-negative [ndigits]. *)
Definition round_ (q : Q) (ndigits : nat) : Q :=
  let p := inject_Z (10 ^ Z.of_nat ndigits) in
  (inject_Z (round_half_even (q * p)) / p)%Q.

(** ** Doubles

    The doubles are the rationals [m * 2^x] with [|m| < 2^53] and
    [-1074 <= x]. *)

(** For [q > 0], the [e] with [2^e <= q < 2^(e+1)]. *)
Definition expoente (q : Q) : Z :=
  let e := Z.log2 (Qnum q) - Z.log2 (Zpos (Qden q)) in
  if Qle_bool (2 ^ e) q then e else e - 1.

(** The exponent of the last place of the doubles around [q > 0]: 53
    significant bits, and the fixed grid of the subnormal numbers
    below [2^-1022]. *)
Definition quantum (q : Q) : Z := Z.max (expoente q - 52) (-1074).

(** The nearest multiple of [2^x], ties to the even multiple. *)
Definition grade (x : Z) (q : Q) : Q :=
  (inject_Z (round_half_even (q / 2 ^ x)) * 2 ^ x)%Q.

(** The double nearest to [q], ties to even: what reading the numeral
    [q] gives ([float("q")], [json.loads]), and what an arithmetic
    operation returns for the exact result [q]. *)
Definition binary64 (q : Q) : Q :=
  match (q ?= 0)%Q with
  | Eq => 0%Q
  | Gt => Qred (grade (quantum q) q)
  | Lt => Qred (- grade (quantum (- q)) (- q))
  end.

(** The two multiples of [10^k] around [d], kept when reading them
    back gives [d]; of two that do, the nearer, and the even one when
    [d] is half way. *)
Definition candidato (k : Z) (d : Q) : option Q :=
  let lo := (inject_Z (Qfloor (d / 10 ^ k)) * 10 ^ k)%Q in
  let hi := (inject_Z (Qceiling (d / 10 ^ k)) * 10 ^ k)%Q in
  match Qeq_bool (binary64 lo) d, Qeq_bool (binary64 hi) d with
  | true, true =>
      match (d - lo ?= hi - d)%Q with
      | Lt => Some lo
      | Gt => Some hi
      | Eq => Some (if Z.even (Qfloor (d / 10 ^ k)) then lo else hi)
      end
  | true, false => Some lo
  | false, true => Some hi
  | false, false => None
  end.

(** The first decimal position, from [k] downwards, at which a
    numeral reads back as [d]. *)
Fixpoint mais_curto (n : nat) (k : Z) (d : Q) : Q :=
  match n with
  | O => d
  | S n' =>
      match candidato k d with
      | Some c => c
      | None => mais_curto n' (k - 1) d
      end
  end.

(** The search starts above the leading digit of [d > 0]
    ([log10 2 < 0.30103]); 17 significant digits always suffice. *)
Definition repr_pos (d : Q) : Q :=
  mais_curto 30 ((expoente d + 1) * 30103 / 100000 + 2) d.

(** [repr(d)] read as a number: the shortest decimal numeral that
    reads back as the double [d]. *)
Definition repr (d : Q) : Q :=
  match (d ?= 0)%Q with
  | Eq => 0%Q
  | Gt => Qred (repr_pos (Qred d))
  | Lt => Qred (- repr_pos (Qred (- d)))
  end.

(** The name of the double nearest to [q]. *)
Definition float_ (q : Q) : Q := repr (binary64 q).

(** [x + y], [x - y], [x * y], [x / y] and [x > y] on floats; an
    [int] operand is converted to [float] first.  [x / y] is only used
    with [y] different from zero. *)
Definition float_add (x y : Q) : Q := float_ (binary64 x + binary64 y).
Definition float_sub (x y : Q) : Q := float_ (binary64 x - binary64 y).
Definition float_mul (x y : Q) : Q := float_ (binary64 x * binary64 y).
Definition float_truediv (x y : Q) : Q := float_ (binary64 x / binary64 y).
Definition float_gt (x y : Q) : bool := Qgt_bool (binary64 x) (binary64 y).

(** ** Exceptions *)

Inductive exc_class :=
| Exception
| ValueError
| TypeError
| KeyError
| AttributeError
| FileNotFoundError
| ValidationError
| RequestException
| ConnectionError
| Timeout
| WebSocketDisconnect.

Definition exc_class_eqb (a b : exc_class) : bool :=
  match a, b with
  | Exception, Exception | ValueError, ValueError | TypeError, TypeError
  | KeyError, KeyError | AttributeError, AttributeError
  | FileNotFoundError, FileNotFoundError
  | ValidationError, ValidationError
  | RequestException, RequestException | ConnectionError, ConnectionError
  | Timeout, Timeout | WebSocketDisconnect, WebSocketDisconnect => true
  | _, _ => false
  end.

(** [issubclass c h]: does an [except h] clause catch an exception of
    class [c]?  [Timeout] and [ConnectionError] derive from
    [RequestException] (requests.exceptions); everything derives from
    [Exception]. *)
Definition issubclass (c h : exc_class) : bool :=
  match h with
  | Exception => true
  | RequestException =>
      match c with
      | RequestException | ConnectionError | Timeout => true
      | _ => false
      end
  | _ => exc_class_eqb c h
  end.

Record exn := MkExn { exn_class : exc_class; exn_str : str }.

Inductive res (A : Type) :=
| Ret (a : A)
| Raise (e : exn).
Arguments Ret {A} a.
Arguments Raise {A} e.

(** ** State and exceptions *)

Definition M (S A : Type) : Type := S -> res A * S.

Definition ret {S A} (a : A) : M S A := fun s => (Ret a, s).
Definition raise {S A} (e : exn) : M S A := fun s => (Raise e, s).
Definition bind {S A B} (m : M S A) (k : A -> M S B) : M S B :=
  fun s =>
    match m s with
    | (Ret a, s') => k a s'
    | (Raise e, s') => (Raise e, s')
    end.
Definition get {S} : M S S := fun s => (Ret s, s).
Definition modify {S} (f : S -> S) : M S unit := fun s => (Ret tt, f s).
Definition of_res {S A} (r : res A) : M S A := fun s => (r, s).

(** An [except C as e: h e] clause. *)
Definition clause (S A : Type) : Type := (exc_class * (exn -> M S A))%type.

Fixpoint select {S A} (cs : list (clause S A)) (e : exn) : option (M S A) :=
  match cs with
  | [] => None
  | (c, h) :: cs' =>
      if issubclass (exn_class e) c then Some (h e) else select cs' e
  end.

(** [try: body  except ...: ...]: the first clause whose class matches
    handles the exception; with no match it propagates. *)
Definition try_except {S A} (body : M S A) (cs : list (clause S A)) : M S A :=
  fun s =>
    match body s with
    | (Ret a, s') => (Ret a, s')
    | (Raise e, s') =>
        match select cs e with
        | Some h => h s'
        | None => (Raise e, s')
        end
    end.

(** [try: body  finally: fin]: [fin] always runs; an exception raised
    by [fin] replaces the outcome of [body]. *)
Definition try_finally {S A} (body : M S A) (fin : M S unit) : M S A :=
  fun s =>
    match body s with
    | (r, s') =>
        match fin s' with
        | (Ret _, s'') => (r, s'')
        | (Raise e, s'') => (Raise e, s'')
        end
    end.

(** ** f-strings

    A rendered f-string is kept as the sequence of its pieces: literal
    text of the template and the values substituted into it. *)

Inductive frag :=
| Txt (s : string)
| Str (s : str)
| Int (z : Z)
| Flt (q : Q) (spec : string).

Definition fstring := list frag.

End Py.

Export Py.

Declare Scope py_scope.
Delimit Scope py_scope with py.
Notation "x <- m ;; k" := (bind m (fun x => k))
  (at level 100, m at next level, right associativity) : py_scope.
Notation "m ;;; k" := (bind m (fun _ => k))
  (at level 100, right associativity) : py_scope.

(* ================================================================== *)
(** * Value formatting ([format(value, spec)] of an f-string field)    *)
(* ================================================================== *)

Module Format.

Local Open Scope char_scope.

Definition is_align (c : ascii) : bool :=
  Ascii.eqb c "<" || Ascii.eqb c ">" || Ascii.eqb c "=" || Ascii.eqb c "^".
Definition is_sign (c : ascii) : bool :=
  Ascii.eqb c "+" || Ascii.eqb c "-" || Ascii.eqb c " ".
Definition is_digit (c : ascii) : bool :=
  ((48 <=? N_of_ascii c) && (N_of_ascii c <=? 57))%N.
Definition is_float_type (c : ascii) : bool :=
  Ascii.eqb c "e" || Ascii.eqb c "E" || Ascii.eqb c "f" || Ascii.eqb c "F"
  || Ascii.eqb c "g" || Ascii.eqb c "G" || Ascii.eqb c "n" || Ascii.eqb c "%".

(** Consume one character when it satisfies [p]. *)
Definition eat (p : ascii -> bool) (s : list ascii) : list ascii * bool :=
  match s with
  | c :: s' => if p c then (s', true) else (s, false)
  | [] => ([], false)
  end.

Fixpoint eat_digits (s : list ascii) : list ascii * nat :=
  match s with
  | c :: s' =>
      if is_digit c then let '(r, n) := eat_digits s' in (r, S n) else (s, O)
  | [] => ([], O)
  end.

(** The standard format specification
    [[[fill]align][sign]["z"]["#"]["0"][width][grouping]["." precision][type]]
    read left to right as the interpreter does; the answer is whether
    [spec] is accepted for a float.  At most one character, the
    presentation type, may remain after the precision. *)
Definition float_spec_ok (spec : string) : bool :=
  let s := list_ascii_of_string spec in
  let s :=
    match s with
    | _ :: a :: r => if is_align a then r else fst (eat is_align s)
    | _ => fst (eat is_align s)
    end in
  let s := fst (eat is_sign s) in
  let s := fst (eat (Ascii.eqb "z") s) in
  let s := fst (eat (Ascii.eqb "#") s) in
  (* the "0" flag and the width are digits alike *)
  let s := fst (eat_digits s) in
  let '(s, comma) := eat (Ascii.eqb ",") s in
  let '(s, under) := eat (Ascii.eqb "_") s in
  if comma && under then false
  else if under && snd (eat (Ascii.eqb ",") s) then false
  else
    let '(s, dot) := eat (Ascii.eqb ".") s in
    let '(s, ndig) := if dot then eat_digits s else (s, 1%nat) in
    match ndig with
    | O => false
    | _ =>
        match s with
        | [] => true
        | [t] => is_float_type t
                 && negb ((comma || under) && Ascii.eqb t "n")
        | _ :: _ :: _ => false
        end
    end.

(** [format(v, spec)] for an optional float: [None] only accepts the
    empty specification ([object.__format__]); a float accepts the
    specifications of [float_spec_ok]. *)
Definition format_ (v : option Q) (spec : string) : res frag :=
  match v with
  | None =>
      match spec with
      | EmptyString => Ret (Txt "None")
      | _ => Raise (MkExn TypeError
               (lit "unsupported format string passed to NoneType.__format__"))
      end
  | Some q =>
      if float_spec_ok spec then Ret (Flt q spec)
      else Raise (MkExn ValueError (lit "Invalid format specifier"))
  end.

End Format.

(* ================================================================== *)
(** * motor_stt_vosk.py                                                *)
(* ================================================================== *)

Module MotorSTTVosk.

(** [d.get(key, default)] on an optional entry of a JSON object. *)
Definition get_or {A} (o : option A) (d : A) : A :=
  match o with Some x => x | None => d end.

(** One entry of the recognizer's ["result"] array; a number is kept as
    the numeral of the JSON text. *)
Record palavra := MkPalavra {
  word : option str;
  conf : option Q;
  start : option Q;
  end_ : option Q
}.

(** The JSON object returned by the recognizer, after [json.loads]. *)
Record resultado := MkResultado {
  text : option str;
  partial : option str;
  result : option (list palavra)
}.

(** The per-session Vosk recognizer, seen through the calls the engine
    makes.  [AcceptWaveform] can fail; the three result calls return
    the current hypothesis and the recognizer's next state. *)
Record KaldiRecognizer := MkKaldi {
  rec_state : Type;
  AcceptWaveform : rec_state -> list Byte.byte -> res bool * rec_state;
  Result : rec_state -> resultado * rec_state;
  PartialResult : rec_state -> resultado * rec_state;
  FinalResult : rec_state -> resultado * rec_state
}.

Section Motor.

Variable K : KaldiRecognizer.

Record t := Mk {
  session_id : str;
  recognizer : rec_state K;
  bytes_processados : Z;
  transcricoes_parciais : Z;
  transcricoes_finais : Z
}.

Definition set_recognizer (r : rec_state K) (m : t) : t :=
  Mk (session_id m) r (bytes_processados m)
     (transcricoes_parciais m) (transcricoes_finais m).
Definition add_bytes (n : Z) (m : t) : t :=
  Mk (session_id m) (recognizer m) (bytes_processados m + n)
     (transcricoes_parciais m) (transcricoes_finais m).
Definition inc_parciais (m : t) : t :=
  Mk (session_id m) (recognizer m) (bytes_processados m)
     (transcricoes_parciais m + 1) (transcricoes_finais m).
Definition inc_finais (m : t) : t :=
  Mk (session_id m) (recognizer m) (bytes_processados m)
     (transcricoes_parciais m) (transcricoes_finais m + 1).

(** [MotorSTTVosk(session_id)], once the recognizer was created. *)
Definition init (sid : str) (r : rec_state K) : t := Mk sid r 0 0 0.

(** Calls on [self.recognizer]. *)
Definition accept_waveform (audio : list Byte.byte) : M t bool :=
  fun m => let '(r, k) := AcceptWaveform K (recognizer m) audio in
           (r, set_recognizer k m).
Definition call (f : rec_state K -> resultado * rec_state K) : M t resultado :=
  fun m => let '(j, k) := f (recognizer m) in (Ret j, set_recognizer k m).

(** The loop of [_calcular_confianca_media]: one word updates
    [(soma_confianca, soma_duracao)]. *)
Definition acumular (acc : Q * Q) (p : palavra) : Q * Q :=
  let '(soma_confianca, soma_duracao) := acc in
  let confianca := get_or (conf p) 0%Q in
  let inicio := get_or (start p) 0%Q in
  let fim := get_or (end_ p) 0%Q in
  let duracao := float_sub fim inicio in
  if float_gt duracao 0 then
    (float_add soma_confianca (float_mul confianca duracao),
     float_add soma_duracao duracao)
  else (soma_confianca, soma_duracao).

(** [sum(...)] of floats: added one by one, left to right from 0, as
    CPython does up to 3.11 (later versions carry a compensation
    term). *)
Definition sum (l : list Q) : Q := fold_left float_add l 0%Q.

Definition _calcular_confianca_media (r : resultado) : option Q :=
  let palavras_detalhadas := get_or (result r) [] in
  if negb (truthy palavras_detalhadas) then None
  else
    let '(soma_confianca, soma_duracao) :=
      fold_left acumular palavras_detalhadas (0%Q, 0%Q) in
    if float_gt soma_duracao 0
    then Some (float_truediv soma_confianca soma_duracao)
    else
      Some (float_truediv
              (sum (List.map (fun p => get_or (conf p) 0%Q)
                      palavras_detalhadas))
              (inject_Z (len palavras_detalhadas))).

(** The text of the debug line of a final result. *)
Definition conf_str (confianca : option Q) : res frag :=
  match confianca with
  | Some _ => Format.format_ confianca ".2f"
  | None => Ret (Txt "N/A")
  end.

Definition processar_audio (audio_bytes : list Byte.byte)
  : M t (bool * str * option Q) :=
  (modify (add_bytes (len audio_bytes)) ;;;
   detectou_fronteira <- accept_waveform audio_bytes ;;
   if detectou_fronteira : bool then
     r <- call (Result K) ;;
     let texto := strip (get_or (text r) []) in
     let confianca := _calcular_confianca_media r in
     if truthy texto then
       modify inc_finais ;;;
       _ <- of_res (conf_str confianca) ;;
       ret (true, texto, confianca)
     else ret (false, [], None)
   else
     r <- call (PartialResult K) ;;
     let texto := strip (get_or (partial r) []) in
     if truthy texto then
       modify inc_parciais ;;;
       ret (false, texto, None)
     else ret (false, [], None))%py.

(** The info line of [finalizar_sessao] formats [confianca] with the
    specification written after the colon of its replacement field. *)
Definition finalizar_sessao : M t (option (str * option Q)) :=
  (r <- call (FinalResult K) ;;
   let texto := strip (get_or (text r) []) in
   let confianca := _calcular_confianca_media r in
   if truthy texto then
     _ <- of_res (Format.format_ confianca ".2f if confianca else 'N/A'") ;;
     ret (Some (texto, confianca))
   else ret None)%py.

Record estatisticas := MkEstatisticas {
  e_session_id : str;
  e_bytes_processados : Z;
  e_transcricoes_parciais : Z;
  e_transcricoes_finais : Z;
  e_mb_processados : Q
}.

Definition obter_estatisticas (m : t) : estatisticas :=
  MkEstatisticas (session_id m) (bytes_processados m)
    (transcricoes_parciais m) (transcricoes_finais m)
    (round_ (inject_Z (bytes_processados m) / 1024 / 1024) 2).

End Motor.

Arguments session_id {K}.
Arguments recognizer {K}.
Arguments bytes_processados {K}.
Arguments transcricoes_parciais {K}.
Arguments transcricoes_finais {K}.

End MotorSTTVosk.

(* ================================================================== *)
(** * configuracao.py                                                  *)
(* ================================================================== *)

Module ConfiguracaoSTT.

(** The settings read from the environment that the session code uses. *)
Record t := Mk {
  URL_SERVICO_GLOSSA : str;
  TIMEOUT_GLOSSA : Z;
  INTERVALO_EMISSAO_PARCIAL : Q
}.

(** The values taken when the environment sets nothing. *)
Definition padrao : t :=
  Mk (lit "http://localhost:9000/traduzir") 10 (1 # 2).

Definition TAXA_AMOSTRAGEM : Z := 16000.
Definition CANAIS_AUDIO : Z := 1.
Definition VERSAO_SERVICO : str := lit "1.0.0".
Definition IDIOMA_ENTRADA : str := lit "pt-br".

End ConfiguracaoSTT.

(* ================================================================== *)
(** * esquema_mensagens.py                                             *)
(* ================================================================== *)

Module Esquema.

(** A value produced by [response.json()]. *)
#[warnings="-register-all"] Inductive json :=
| JNull
| JBool (b : bool)
| JNum (q : Q)
| JStr (s : str)
| JArr (l : list json)
| JObj (l : list (str * json)).

Inductive TipoMensagemSTT :=
| SESSAO_INICIADA
| TRANSCRICAO_PARCIAL
| TRANSCRICAO_FINAL
| ERRO.

Record ResultadoDespachoGlossa := MkResultadoDespacho {
  target_url : str;
  request_sent : bool;
  response_status : option Z;
  response_body : option (list (str * json));
  duration_ms : option Q;
  error : option fstring
}.

Definition erro_validacao (campo : string) : exn :=
  MkExn ValidationError (lit campo).

(** The constructor of a pydantic model validates each field against
    its annotation and raises [ValidationError] on a mismatch.  The
    only field that can receive a value of another type is
    [response_body : Optional[dict]], which takes whatever
    [response.json()] returned: [None] and a dictionary are accepted, a
    string, number, boolean or array is refused. *)
Definition novo_resultado (target_url : str) (request_sent : bool)
    (response_status : option Z) (response_body : json)
    (duration_ms : option Q) (error : option fstring)
  : res ResultadoDespachoGlossa :=
  match response_body with
  | JNull =>
      Ret (MkResultadoDespacho target_url request_sent response_status
             None duration_ms error)
  | JObj d =>
      Ret (MkResultadoDespacho target_url request_sent response_status
             (Some d) duration_ms error)
  | _ => Raise (erro_validacao "response_body")
  end.

(** The protocol messages.  Their [timestamp] field, filled from the
    wall clock when the message is built, is not represented. *)
Inductive Mensagem :=
| MensagemSessaoIniciada
    (session_id : str) (language : str) (sample_rate : Z) (channels : Z)
    (version : str)
| MensagemTranscricaoParcial
    (session_id : str) (text : str) (confidence : option Q)
| MensagemTranscricaoFinal
    (session_id : str) (text : str) (confidence : option Q)
    (dispatch : option ResultadoDespachoGlossa)
| MensagemErro
    (session_id : option str) (error_code : str) (error_message : str).

(** The [type] discriminator. *)
Definition tipo (m : Mensagem) : TipoMensagemSTT :=
  match m with
  | MensagemSessaoIniciada _ _ _ _ _ => SESSAO_INICIADA
  | MensagemTranscricaoParcial _ _ _ => TRANSCRICAO_PARCIAL
  | MensagemTranscricaoFinal _ _ _ _ => TRANSCRICAO_FINAL
  | MensagemErro _ _ _ => ERRO
  end.

(** [Field(ge=0.0, le=1.0)] on an optional float. *)
Definition confianca_valida (c : option Q) : bool :=
  match c with
  | None => true
  | Some q => Qge_bool q 0 && Qle_bool q 1
  end.

Definition nova_sessao_iniciada (session_id version : str) : res Mensagem :=
  Ret (MensagemSessaoIniciada session_id (lit "pt-br") 16000 1 version).

Definition nova_parcial (session_id text : str) (confidence : option Q)
  : res Mensagem :=
  if confianca_valida confidence
  then Ret (MensagemTranscricaoParcial session_id text confidence)
  else Raise (erro_validacao "confidence").

Definition nova_final (session_id text : str) (confidence : option Q)
    (dispatch : option ResultadoDespachoGlossa) : res Mensagem :=
  if confianca_valida confidence
  then Ret (MensagemTranscricaoFinal session_id text confidence dispatch)
  else Raise (erro_validacao "confidence").

Definition novo_erro (session_id : option str) (error_code error_message : str)
  : res Mensagem :=
  Ret (MensagemErro session_id error_code error_message).

End Esquema.

(* ================================================================== *)
(** * orquestrador_envio.py                                            *)
(* ================================================================== *)

Module OrquestradorEnvioGlossa.

Import Esquema.

Record t := Mk {
  session_id : str;
  url_glossa : str;
  timeout : Z;
  total_envios : Z;
  envios_sucesso : Z;
  envios_falha : Z;
  latencia_total_ms : Q
}.

(** [OrquestradorEnvioGlossa(session_id)] *)
Definition init (cfg : ConfiguracaoSTT.t) (sid : str) : t :=
  Mk sid (ConfiguracaoSTT.URL_SERVICO_GLOSSA cfg)
     (ConfiguracaoSTT.TIMEOUT_GLOSSA cfg) 0 0 0 0%Q.

Definition inc_total (o : t) : t :=
  Mk (session_id o) (url_glossa o) (timeout o)
     (total_envios o + 1) (envios_sucesso o) (envios_falha o)
     (latencia_total_ms o).
Definition inc_sucesso (o : t) : t :=
  Mk (session_id o) (url_glossa o) (timeout o)
     (total_envios o) (envios_sucesso o + 1) (envios_falha o)
     (latencia_total_ms o).
Definition inc_falha (o : t) : t :=
  Mk (session_id o) (url_glossa o) (timeout o)
     (total_envios o) (envios_sucesso o) (envios_falha o + 1)
     (latencia_total_ms o).
Definition add_latencia (d : Q) (o : t) : t :=
  Mk (session_id o) (url_glossa o) (timeout o)
     (total_envios o) (envios_sucesso o) (envios_falha o)
     (latencia_total_ms o + d)%Q.

Definition deve_enviar (texto : str) (confianca : option Q) : bool :=
  if negb (truthy texto) || negb (truthy (strip texto)) then false
  else if len (strip texto) <? 3 then false
  else
    match confianca with
    | Some c => if Qlt_bool c (3 # 10) then false else true
    | None => true
    end.

(** ** The downstream HTTP call *)

(** The [requests.Response] members the orchestrator reads. *)
Record Response := MkResponse {
  status_code : Z;
  json_ : res json;
  text : str
}.

(** The arguments of one [requests.post]. *)
Record pedido := MkPedido {
  p_url : str;
  p_text : str;
  p_session_id : str;
  p_confidence : option Q;
  p_source : str;
  p_service_version : str;
  p_timeout : Z;
  p_headers : list (string * fstring)
}.

(** What the outside world does during one call: the outcome of
    [requests.post] and the two readings of [time.perf_counter],
    before the request and after its response or failure. *)
Record http := MkHttp {
  post : res Response;
  t_inicio : Q;
  t_fim : Q
}.

(** The orchestrator together with the requests put on the wire. *)
Record mundo := MkMundo {
  self : t;
  rede : list pedido
}.

Definition alterar (f : t -> t) : M mundo unit :=
  modify (fun w => MkMundo (f (self w)) (rede w)).

Definition requests_post (net : http) (p : pedido) : M mundo Response :=
  fun w => (post net, MkMundo (self w) (rede w ++ [p])).

Definition conf_str (confianca : option Q) : res frag :=
  match confianca with
  | Some _ => Format.format_ confianca ".2f"
  | None => Ret (Txt "N/A")
  end.

Definition msg_filtrada : fstring :=
  [Txt "Transcrição filtrada (texto muito curto ou confiança baixa)"].
Definition msg_http (status : Z) : fstring :=
  [Txt "Serviço de glossa retornou erro HTTP "; Int status].
Definition msg_timeout (timeout : Z) : fstring :=
  [Txt "Timeout ao contatar serviço de glossa (>"; Int timeout; Txt "s)"].
Definition msg_rede (e : exn) : fstring :=
  [Txt "Erro de rede ao contatar serviço de glossa: "; Str (exn_str e)].
Definition msg_inesperado (e : exn) : fstring :=
  [Txt "Erro inesperado ao enviar para glossa: "; Str (exn_str e)].

(** The body, timeout and headers handed to [requests.post]. *)
Definition montar_pedido (o : t) (texto : str) (confianca : option Q)
  : pedido :=
  MkPedido (url_glossa o) texto (session_id o) confianca
    (lit "stt_microservice") ConfiguracaoSTT.VERSAO_SERVICO (timeout o)
    [("Content-Type"%string, [Txt "application/json"]);
     ("User-Agent"%string,
        [Txt "STT-Microservice/"; Str ConfiguracaoSTT.VERSAO_SERVICO]);
     ("X-Session-ID"%string, [Str (session_id o)])].

Definition enviar_para_glossa (net : http) (texto : str)
    (confianca : option Q) : M mundo ResultadoDespachoGlossa :=
  (alterar inc_total ;;;
   w <- get ;;
   let url := url_glossa (self w) in
   let sid := session_id (self w) in
   let tmo := timeout (self w) in
   if negb (deve_enviar texto confianca) then
     of_res (novo_resultado url false None JNull None (Some msg_filtrada))
   else
     let payload := montar_pedido (self w) texto confianca in
     _ <- of_res (conf_str confianca) ;;
     let inicio := t_inicio net in
     try_except
       (response <- requests_post net payload ;;
        let duracao_ms := ((t_fim net - inicio) * 1000)%Q in
        alterar (add_latencia duracao_ms) ;;;
        if (200 <=? status_code response) && (status_code response <? 300)
        then
          alterar inc_sucesso ;;;
          response_body <-
            try_except (of_res (json_ response))
              [(Exception, fun _ =>
                  ret (JObj [(lit "raw",
                              JStr (slice_to 200 (text response)))]))] ;;
          of_res (novo_resultado url true (Some (status_code response))
                    response_body (Some duracao_ms) None)
        else
          alterar inc_falha ;;;
          let erro_msg := msg_http (status_code response) in
          of_res (novo_resultado url true (Some (status_code response))
                    (JObj [(lit "error",
                            JStr (slice_to 200 (text response)))])
                    (Some duracao_ms) (Some erro_msg)))
       [(Timeout, fun _ =>
           alterar inc_falha ;;;
           let duracao_ms := ((t_fim net - inicio) * 1000)%Q in
           of_res (novo_resultado url true None JNull (Some duracao_ms)
                     (Some (msg_timeout tmo))));
        (RequestException, fun e =>
           alterar inc_falha ;;;
           let duracao_ms := ((t_fim net - inicio) * 1000)%Q in
           of_res (novo_resultado url false None JNull (Some duracao_ms)
                     (Some (msg_rede e))));
        (Exception, fun e =>
           alterar inc_falha ;;;
           of_res (novo_resultado url false None JNull None
                     (Some (msg_inesperado e))))])%py.

Record estatisticas := MkEstatisticas {
  e_session_id : str;
  e_total_envios : Z;
  e_envios_sucesso : Z;
  e_envios_falha : Z;
  taxa_sucesso_pct : Q;
  latencia_media_ms : Q;
  url_destino : str
}.

Definition obter_estatisticas (o : t) : estatisticas :=
  let taxa_sucesso :=
    if total_envios o >? 0
    then (inject_Z (envios_sucesso o) / inject_Z (total_envios o) * 100)%Q
    else 0%Q in
  let latencia_media :=
    if envios_sucesso o >? 0
    then (latencia_total_ms o / inject_Z (envios_sucesso o))%Q
    else 0%Q in
  MkEstatisticas (session_id o) (total_envios o) (envios_sucesso o)
    (envios_falha o) (round_ taxa_sucesso 1) (round_ latencia_media 1)
    (url_glossa o).

End OrquestradorEnvioGlossa.

(* ================================================================== *)
(** * gateway_comunicacao.py                                           *)
(* ================================================================== *)

Module Gateway.

Import Esquema.
Module Motor := MotorSTTVosk.
Module Orq := OrquestradorEnvioGlossa.

Section Sessao.

Variable K : Motor.KaldiRecognizer.
Variable cfg : ConfiguracaoSTT.t.

(** What the outside world does during one turn of the receive loop:
    the outcome of [websocket.receive_bytes], the reading of
    [time.time] (taken only on a partial), the behaviour of the
    downstream service (used only on a final) and the outcome of the
    [websocket.send_json] of that turn. *)
Record quadro := MkQuadro {
  receive_bytes : res (list Byte.byte);
  agora : Q;
  http : Orq.http;
  send_json : res unit
}.

(** One run of the handler: the generated session id, the outcome of
    building the engine (its recognizer, or the exception of the
    model loader), the outcome of sending the first message, the
    turns of the loop, the outcome of sending the error message and
    the behaviour of the downstream service during teardown. *)
Record ambiente := MkAmbiente {
  uuid4 : str;
  criar_motor : res (Motor.rec_state K);
  send_inicio : res unit;
  quadros : list quadro;
  send_erro : res unit;
  http_final : Orq.http
}.

(** The local variables of [websocket_stt], the messages delivered
    to the client and the requests put on the wire. *)
Record sessao := MkSessao {
  motor_stt : option (Motor.t K);
  orquestrador : option Orq.t;
  ultima_emissao_parcial : Q;
  canal : list Mensagem;
  rede : list Orq.pedido
}.

Definition inicial : sessao := MkSessao None None 0%Q [] [].

Definition set_motor (m : option (Motor.t K)) (s : sessao) : sessao :=
  MkSessao m (orquestrador s) (ultima_emissao_parcial s) (canal s) (rede s).
Definition set_orquestrador (o : option Orq.t) (s : sessao) : sessao :=
  MkSessao (motor_stt s) o (ultima_emissao_parcial s) (canal s) (rede s).
Definition set_ultima (u : Q) (s : sessao) : sessao :=
  MkSessao (motor_stt s) (orquestrador s) u (canal s) (rede s).

Definition sem_atributo : exn :=
  MkExn AttributeError (lit "'NoneType' object has no attribute").

(** A method call on [motor_stt]. *)
Definition no_motor {A} (m : M (Motor.t K) A) : M sessao A :=
  fun s =>
    match motor_stt s with
    | Some mo => let '(r, mo') := m mo in (r, set_motor (Some mo') s)
    | None => (Raise sem_atributo, s)
    end.

(** A method call on [orquestrador]. *)
Definition no_orquestrador {A} (m : M Orq.mundo A) : M sessao A :=
  fun s =>
    match orquestrador s with
    | Some o =>
        let '(r, w) := m (Orq.MkMundo o (rede s)) in
        (r, MkSessao (motor_stt s) (Some (Orq.self w))
              (ultima_emissao_parcial s) (canal s) (Orq.rede w))
    | None => (Raise sem_atributo, s)
    end.

(** [await websocket.send_json(m.dict())]: the message reaches the
    client, or the send raises and nothing is delivered. *)
Definition enviar (resultado : res unit) (m : Mensagem) : M sessao unit :=
  fun s =>
    match resultado with
    | Ret _ =>
        (Ret tt, MkSessao (motor_stt s) (orquestrador s)
                   (ultima_emissao_parcial s) (canal s ++ [m]) (rede s))
    | Raise e => (Raise e, s)
    end.

(** The body of the [while True] loop for one turn. *)
Definition iteracao (sid : str) (q : quadro) : M sessao unit :=
  (audio_bytes <- of_res (receive_bytes q) ;;
   if negb (truthy audio_bytes) then ret tt
   else
     r <- no_motor (Motor.processar_audio K audio_bytes) ;;
     let '(is_final, texto, confianca) := r in
     if (is_final : bool) && truthy texto then
       resultado_dispatch <-
         no_orquestrador (Orq.enviar_para_glossa (http q) texto confianca) ;;
       mensagem_final <-
         of_res (nova_final sid texto confianca (Some resultado_dispatch)) ;;
       enviar (send_json q) mensagem_final
     else if negb is_final && truthy texto then
       s <- get ;;
       if Qge_bool (agora q - ultima_emissao_parcial s)
            (ConfiguracaoSTT.INTERVALO_EMISSAO_PARCIAL cfg)
       then
         mensagem_parcial <- of_res (nova_parcial sid texto confianca) ;;
         enviar (send_json q) mensagem_parcial ;;;
         modify (set_ultima (agora q))
       else ret tt
     else ret tt)%py.

(** The loop runs until [receive_bytes] (or something after it)
    raises; a peer with no more frames to send has disconnected. *)
Fixpoint laco (sid : str) (qs : list quadro) : M sessao unit :=
  match qs with
  | [] => raise (MkExn WebSocketDisconnect [])
  | q :: qs' => (iteracao sid q ;;; laco sid qs')%py
  end.

(** The [finally] block: flush the engine and, when text was pending,
    hand it to the orchestrator.  The statistics of both components
    are then read and logged, which changes nothing. *)
Definition finalizacao (amb : ambiente) : M sessao unit :=
  (s <- get ;;
   (if truthy_opt (motor_stt s) then
      resultado_final <- no_motor (Motor.finalizar_sessao K) ;;
      match resultado_final with
      | Some (texto_final, confianca_final) =>
          s <- get ;;
          if truthy_opt (orquestrador s) then
            no_orquestrador
              (Orq.enviar_para_glossa (http_final amb)
                 texto_final confianca_final) ;;;
            ret tt
          else ret tt
      | None => ret tt
      end
    else ret tt) ;;;
   ret tt)%py.

(** The [try] block: build the engine and the orchestrator, send
    the first message, then loop. *)
Definition corpo (amb : ambiente) : M sessao unit :=
  let session_id := uuid4 amb in
  (r <- of_res (criar_motor amb) ;;
   modify (set_motor (Some (Motor.init K session_id r))) ;;;
   modify (set_orquestrador (Some (Orq.init cfg session_id))) ;;;
   mensagem_inicio <-
     of_res (nova_sessao_iniciada session_id
               ConfiguracaoSTT.VERSAO_SERVICO) ;;
   enviar (send_inicio amb) mensagem_inicio ;;;
   modify (set_ultima 0%Q) ;;;
   laco session_id (quadros amb))%py.

(** The [except Exception as e] block: try to tell the client. *)
Definition tratar_erro (amb : ambiente) (e : exn) : M sessao unit :=
  try_except
    (mensagem_erro <-
       of_res (novo_erro (Some (uuid4 amb))
                 (lit "PROCESSING_ERROR") (exn_str e)) ;;
     enviar (send_erro amb) mensagem_erro)%py
    [(Exception, fun _ => ret tt)].

(** The handler, from the point where the connection was accepted. *)
Definition websocket_stt (amb : ambiente) : M sessao unit :=
  try_finally
    (try_except (corpo amb)
       [(WebSocketDisconnect, fun _ => ret tt);
        (Exception, tratar_erro amb)])
    (finalizacao amb).

(** The messages the client receives during a run. *)
Definition mensagens (amb : ambiente) : list Mensagem :=
  canal (snd (websocket_stt amb inicial)).

End Sessao.

End Gateway.

(* ================================================================== *)
(** * Reference notions used to state the properties                   *)
(* ================================================================== *)

Module Referencia.

Import MotorSTTVosk.

(** The confidence of a word entry. *)
Definition confianca_de (p : palavra) : Q := get_or (conf p) 0%Q.

(** Σ over a list. *)
Definition Qsum (l : list Q) : Q := fold_right Qplus 0%Q l.

(** The weighted mean in exact arithmetic: the duration [end - start]
    of an entry, the entries of positive duration, and
    Σ(conf_i · (end_i − start_i)) / Σ(end_i − start_i) over them. *)
Definition duracao (p : palavra) : Q :=
  (get_or (end_ p) 0 - get_or (start p) 0)%Q.



(** The weighted mean as doubles compute it.  The duration of an entry. *)
Definition duracao64 (p : palavra) : Q :=
  float_sub (get_or (end_ p) 0%Q) (get_or (start p) 0%Q).


Definition com_duracao64 (ws : list palavra) : list palavra :=
  filter (fun p => Qlt_bool 0 (duracao64 p)) ws.



(** The word entries [(0.9, 0.0, 0.5), (0.5, 0.5, 1.0)]. *)
Definition exemplo : list palavra :=
  [MkPalavra (Some (lit "ola")) (Some (9 # 10)) (Some 0%Q) (Some (1 # 2));
   MkPalavra (Some (lit "mundo")) (Some (1 # 2)) (Some (1 # 2)) (Some 1%Q)].


End Referencia.

Module ReferenciaEnvio.

Import Esquema OrquestradorEnvioGlossa.

(** The body kept for a 2xx response: the parsed JSON, or the wrapper
    around the first 200 characters of the raw text when parsing
    fails. *)
Definition corpo_de (resp : Response) : json :=
  match json_ resp with
  | Ret j => j
  | Raise _ => JObj [(lit "raw", JStr (slice_to 200 (text resp)))]
  end.

Definition status_2xx (resp : Response) : bool :=
  (200 <=? status_code resp) && (status_code resp <? 300).

(** One dispatch call: its arguments and what the network does. *)
Record chamada := MkChamada {
  c_net : http;
  c_texto : str;
  c_confianca : option Q
}.

Definition chamar (w : mundo) (c : chamada) : mundo :=
  snd (enviar_para_glossa (c_net c) (c_texto c) (c_confianca c) w).

(** A sequence of dispatch calls on one orchestrator. *)
Definition enviar_seq (cs : list chamada) (w : mundo) : mundo :=
  fold_left chamar cs w.

(** A fresh orchestrator with the default configuration. *)
Definition novo (sid : str) : mundo :=
  MkMundo (init ConfiguracaoSTT.padrao sid) [].

(** Calls rejected by the filter, calls answered by an HTTP response,
    calls that succeeded (status in [200,300)), and 2xx calls whose
    body the outcome record refuses. *)
Definition filtrada (c : chamada) : bool :=
  negb (deve_enviar (c_texto c) (c_confianca c)).

Definition resposta (c : chamada) : option Response :=
  if deve_enviar (c_texto c) (c_confianca c) then
    match post (c_net c) with
    | Ret resp => Some resp
    | Raise _ => None
    end
  else None.

Definition respondida (c : chamada) : bool :=
  match resposta c with Some _ => true | None => false end.

Definition sucedida (c : chamada) : bool :=
  match resposta c with Some resp => status_2xx resp | None => false end.

Definition corpo_recusado (c : chamada) : bool :=
  match resposta c with
  | Some resp =>
      status_2xx resp
      && match corpo_de resp with
         | JNull | JObj _ => false
         | _ => true
         end
  | None => false
  end.

(** The measured latency of a call, in milliseconds. *)
Definition latencia (c : chamada) : Q :=
  ((t_fim (c_net c) - t_inicio (c_net c)) * 1000)%Q.

Definition contar {A} (f : A -> bool) (l : list A) : Z :=
  len (filter f l).

(** A request answered with status 500 after 100 ms, one answered with
    status 200 and a JSON object after 50 ms, and one answered with
    status 200 and the JSON string ["ok"] after 50 ms. *)
Definition chamada_500 : chamada :=
  MkChamada
    (MkHttp (Ret (MkResponse 500 (Ret (JObj [])) (lit "erro"))) 0 (1 # 10))
    (lit "ola mundo") None.

Definition chamada_200 : chamada :=
  MkChamada
    (MkHttp (Ret (MkResponse 200 (Ret (JObj [(lit "glossa", JStr (lit "OLA"))]))
                    (lit "{}"))) 0 (1 # 20))
    (lit "ola mundo") None.

Definition chamada_200_texto : chamada :=
  MkChamada
    (MkHttp (Ret (MkResponse 200 (Ret (JStr (lit "ok"))) (lit "ok")))
       0 (1 # 20))
    (lit "ola mundo") None.

Definition chamada_timeout : chamada :=
  MkChamada (MkHttp (Raise (MkExn Timeout (lit "Read timed out."))) 0 10)
    (lit "ola mundo") (Some (1 # 2)).

Definition chamada_sem_rede : chamada :=
  MkChamada
    (MkHttp (Raise (MkExn ConnectionError (lit "Connection refused")))
       0 (1 # 1000))
    (lit "ola mundo") (Some (1 # 2)).

Definition chamada_curta : chamada :=
  MkChamada (c_net chamada_200) (lit " oi ") (Some 1%Q).

End ReferenciaEnvio.

Module ReferenciaSessao.

Import Esquema Gateway.

(** A recognizer driven by the first byte of each frame: [x01] is speech
    in progress (the hypothesis "ola" is pending), [x02] crosses an
    utterance boundary with the final text "ola mundo" and the word
    entries of [Referencia.exemplo], [xff] makes the recognizer fail,
    anything else is silence.  Its state tells whether speech is
    buffered and not yet returned as a final result. *)
Definition K_roteiro : Motor.KaldiRecognizer :=
  Motor.MkKaldi bool
    (fun pendente audio =>
       match audio with
       | Byte.x01 :: _ => (Ret false, true)
       | Byte.x02 :: _ => (Ret true, pendente)
       | Byte.xff :: _ =>
           (Raise (MkExn Exception (lit "Failed to process waveform")),
            pendente)
       | _ => (Ret false, pendente)
       end)
    (fun _ =>
       (Motor.MkResultado (Some (lit "ola mundo")) None
          (Some Referencia.exemplo), false))
    (fun pendente =>
       (Motor.MkResultado None
          (Some (if pendente : bool then lit "ola" else [])) None,
        pendente))
    (fun pendente =>
       (if pendente : bool then
          Motor.MkResultado (Some (lit "ola mundo")) None
            (Some Referencia.exemplo)
        else Motor.MkResultado (Some []) None None,
        false)).

Definition sid : str := lit "6f1c2d3e-0000-4000-8000-000000000001".

Definition http_200 : Orq.http := ReferenciaEnvio.c_net ReferenciaEnvio.chamada_200.

(** A frame of speech in progress received at clock reading [t]. *)
Definition fala (t : Q) : quadro :=
  MkQuadro (Ret [Byte.x01; Byte.x00]) t http_200 (Ret tt).

(** A frame that crosses an utterance boundary. *)
Definition fronteira (t : Q) : quadro :=
  MkQuadro (Ret [Byte.x02; Byte.x00]) t http_200 (Ret tt).

(** The client sends one frame of speech and disconnects. *)
Definition amb_desconexao : ambiente K_roteiro :=
  MkAmbiente K_roteiro sid (Ret false) (Ret tt) [fala 1000] (Ret tt) http_200.

(** The model cannot be loaded when the engine is built. *)
Definition amb_motor_falha : ambiente K_roteiro :=
  MkAmbiente K_roteiro sid
    (Raise (MkExn FileNotFoundError (lit "modelo nao encontrado")))
    (Ret tt) [] (Ret tt) http_200.

(** Partial hypotheses every 50 ms for 600 ms, then a boundary. *)
Definition amb_parciais : ambiente K_roteiro :=
  MkAmbiente K_roteiro sid (Ret false) (Ret tt)
    [fala 1000; fala (100005 # 100); fala (10001 # 10);
     fala (100015 # 100); fala (10002 # 10); fala (100025 # 100);
     fala (10003 # 10); fala (100035 # 100); fala (10004 # 10);
     fala (100045 # 100); fala (10005 # 10); fala (100055 # 100);
     fala (10006 # 10); fronteira (10006 # 10)]
    (Ret tt) http_200.

Definition e_inicio (m : Mensagem) : bool :=
  match tipo m with SESSAO_INICIADA => true | _ => false end.
Definition e_parcial (m : Mensagem) : bool :=
  match tipo m with TRANSCRICAO_PARCIAL => true | _ => false end.

(** "Exactly one session_started, sent first". *)
Definition uma_sessao_iniciada_primeiro (ms : list Mensagem) : Prop :=
  List.length (filter e_inicio ms) = 1%nat
  /\ exists m resto, ms = m :: resto /\ tipo m = SESSAO_INICIADA.

(** The messages delivered between two states of a session. *)
Definition entregues {K} (s s' : sessao K) : list Mensagem :=
  skipn (List.length (canal K s)) (canal K s').

(** The clock readings of the turns of the loop in which a partial
    message was delivered; the loop stops at the first exception. *)
Fixpoint instantes_parciais {K} (cfg : ConfiguracaoSTT.t) (id : str)
    (qs : list quadro) (s : sessao K) : list Q :=
  match qs with
  | [] => []
  | q :: qs' =>
      let '(r, s') := iteracao K cfg id q s in
      let resto :=
        match r with
        | Ret _ => instantes_parciais cfg id qs' s'
        | Raise _ => []
        end in
      if existsb e_parcial (entregues s s') then agora q :: resto else resto
  end.

(** The session of [amb] in which the client sends the frames [qs]
    and disconnects. *)
Definition com_quadros {K} (qs : list quadro) (amb : ambiente K)
  : ambiente K :=
  MkAmbiente K (uuid4 K amb) (criar_motor K amb) (send_inicio K amb) qs
    (send_erro K amb) (http_final K amb).

(** Each frame of [qs] with the frames received before it. *)
Fixpoint turnos (antes qs : list quadro) : list (list quadro * quadro) :=
  match qs with
  | [] => []
  | q :: qs' => (antes, q) :: turnos (antes ++ [q]) qs'
  end.

(** The number of partial messages the client receives in a session. *)
Definition n_parciais {K} (cfg : ConfiguracaoSTT.t) (amb : ambiente K)
  : nat :=
  List.length (filter e_parcial (mensagens K cfg amb)).

(** The turn of a frame delivered a partial message: the client
    receives more partial messages when it disconnects after the frame
    than when it disconnects before it. *)
Definition entregou_parcial {K} (cfg : ConfiguracaoSTT.t) (amb : ambiente K)
    (t : list quadro * quadro) : bool :=
  (n_parciais cfg (com_quadros (fst t) amb)
   <? n_parciais cfg (com_quadros (fst t ++ [snd t]) amb))%nat.

(** The clock readings of the turns of a session in which a partial
    message was delivered. *)
Definition instantes_sessao {K} (cfg : ConfiguracaoSTT.t) (amb : ambiente K)
  : list Q :=
  List.map (fun t => agora (snd t))
    (filter (entregou_parcial cfg amb) (turnos [] (quadros K amb))).

(** The number of partial messages the loop delivers from [s]. *)
Definition n_parciais_laco {K} (cfg : ConfiguracaoSTT.t) (id : str)
    (qs : list quadro) (s : sessao K) : nat :=
  List.length
    (filter e_parcial (entregues s (snd (laco K cfg id qs s)))).

(** The state in which the loop of a session starts, once the engine
    was built on [r] and the first message went out. *)
Definition no_inicio_do_laco {K} (cfg : ConfiguracaoSTT.t) (amb : ambiente K)
    (r : Motor.rec_state K) : sessao K :=
  MkSessao K (Some (Motor.init K (uuid4 K amb) r))
    (Some (Orq.init cfg (uuid4 K amb))) 0%Q
    [MensagemSessaoIniciada (uuid4 K amb) (lit "pt-br") 16000 1
       ConfiguracaoSTT.VERSAO_SERVICO]
    [].

(** The loop went through the frames [qs] from [s] without an
    exception and reached [s']. *)
Inductive percorre {K} (cfg : ConfiguracaoSTT.t) (id : str)
  : list quadro -> sessao K -> sessao K -> Prop :=
| percorre_nil s : percorre cfg id [] s s
| percorre_cons q qs s s1 s2 :
    iteracao K cfg id q s = (Ret tt, s1) ->
    percorre cfg id qs s1 s2 ->
    percorre cfg id (q :: qs) s s2.

(** Each instant is at least [I] after the one before it, the first
    one at least [I] after [u]. *)
Fixpoint espacados (I u : Q) (ts : list Q) : Prop :=
  match ts with
  | [] => True
  | t :: ts' => (I <= t - u)%Q /\ espacados I t ts'
  end.

(** The instants that fall in the window [[w, w + I)]. *)
Definition na_janela (w I t : Q) : bool :=
  Qle_bool w t && Qlt_bool t (w + I).

(** What one turn of the loop can deliver: nothing, one final message,
    or one partial message; a partial only when the clock reading of
    the turn is at least the configured interval after
    [ultima_emissao_parcial], which then takes that reading. *)
Inductive turno {K} (cfg : ConfiguracaoSTT.t) (id : str) (q : quadro)
    (s s' : sessao K) : Prop :=
| turno_nada :
    canal K s' = canal K s ->
    ultima_emissao_parcial K s' = ultima_emissao_parcial K s ->
    turno cfg id q s s'
| turno_final texto confianca despacho :
    canal K s' = canal K s
                 ++ [MensagemTranscricaoFinal id texto confianca despacho] ->
    ultima_emissao_parcial K s' = ultima_emissao_parcial K s ->
    turno cfg id q s s'
| turno_parcial texto confianca :
    canal K s' = canal K s
                 ++ [MensagemTranscricaoParcial id texto confianca] ->
    (ConfiguracaoSTT.INTERVALO_EMISSAO_PARCIAL cfg
     <= agora q - ultima_emissao_parcial K s)%Q ->
    ultima_emissao_parcial K s' = agora q ->
    turno cfg id q s s'.

End ReferenciaSessao.

(* ================================================================== *)
(** * motor_stt_vosk.py: the model loader and the engine constructor   *)
(* ================================================================== *)

Module CarregadorModeloVosk.

Section Carregador.

(** A loaded [vosk.Model]. *)
Variable Model : Type.

(** The class attributes of [CarregadorModeloVosk], and the arguments of
    the calls to [Model(...)] made so far. *)
Record t := Mk {
  _instancia_modelo : option Model;
  _modelo_carregado : bool;
  cargas : list (option str)
}.

Definition inicial : t := Mk None false [].

(** [Model(caminho)]: the outside world answers [carga]. *)
Definition construir (caminho : option str) (carga : res Model) : M t Model :=
  fun c =>
    (carga,
     Mk (_instancia_modelo c) (_modelo_carregado c) (cargas c ++ [caminho])).

(** [obter_modelo]: the cached instance when the flag is set and the
    instance is there, otherwise a load whose failure is logged and
    raised again. *)
Definition obter_modelo (caminho : option str) (carga : res Model)
  : M t Model :=
  fun c =>
    match (if _modelo_carregado c then _instancia_modelo c else None) with
    | Some m => (Ret m, c)
    | None =>
        try_except
          (m <- construir caminho carga ;;
           modify (fun c => Mk (Some m) (_modelo_carregado c) (cargas c)) ;;;
           modify (fun c => Mk (_instancia_modelo c) true (cargas c)) ;;;
           ret m)%py
          [(Exception, fun e => raise e)] c
    end.

Definition modelo_esta_carregado (c : t) : bool :=
  _modelo_carregado c && truthy_opt (_instancia_modelo c).

(** [MotorSTTVosk(session_id)]: fetch the shared model, then create the
    session's recognizer from it ([kaldi] tells what
    [KaldiRecognizer(modelo, taxa)] answers). *)
Definition novo_motor (K : MotorSTTVosk.KaldiRecognizer)
    (caminho : option str) (carga : res Model)
    (kaldi : Model -> res (MotorSTTVosk.rec_state K)) (sid : str)
  : M t (MotorSTTVosk.t K) :=
  (modelo <- obter_modelo caminho carga ;;
   r <- of_res (kaldi modelo) ;;
   ret (MotorSTTVosk.init K sid r))%py.

End Carregador.

Arguments _instancia_modelo {Model}.
Arguments _modelo_carregado {Model}.
Arguments cargas {Model}.

End CarregadorModeloVosk.

(* ================================================================== *)
(** * configuracao.py: validar; gateway_comunicacao.py: startup, /health *)
(* ================================================================== *)

Module Inicializacao.

Local Open Scope string_scope.

Module Carregador := CarregadorModeloVosk.

(** The settings of the environment read at start-up. *)
Record ambiente := MkAmbiente {
  CAMINHO_MODELO_VOSK : option str;
  DIRETORIO_LOGS : str;
  PORTA_SERVICO : Z
}.

(** What the file system answers: does the path exist, is it a
    directory, and does [mkdir(parents=True, exist_ok=True)] succeed. *)
Record sistema_arquivos := MkFS {
  existe : str -> bool;
  e_diretorio : str -> bool;
  mkdir : str -> bool
}.

(** The exceptions of [validar], by cause. *)
Inductive erro_configuracao :=
| ModeloNaoConfigurado                 (* ValueError *)
| ModeloNaoEncontrado (caminho : str)  (* FileNotFoundError *)
| ModeloNaoDiretorio (caminho : str)   (* NotADirectoryError *)
| TaxaInvalida (taxa : Z)              (* ValueError *)
| FalhaDiretorioLogs (caminho : str).  (* OSError raised by mkdir *)

Definition taxas_suportadas : list Z := [8000; 16000; 32000; 44100; 48000].

(** [validar]: the error raised, if any, and the [mkdir] calls made. *)
Definition validar (a : ambiente) (fs : sistema_arquivos)
  : option erro_configuracao * list str :=
  match CAMINHO_MODELO_VOSK a with
  | None => (Some ModeloNaoConfigurado, [])
  | Some caminho =>
      if negb (truthy caminho) then (Some ModeloNaoConfigurado, [])
      else if negb (existe fs caminho) then
        (Some (ModeloNaoEncontrado caminho), [])
      else if negb (e_diretorio fs caminho) then
        (Some (ModeloNaoDiretorio caminho), [])
      else if negb (existsb (Z.eqb ConfiguracaoSTT.TAXA_AMOSTRAGEM)
                      taxas_suportadas) then
        (Some (TaxaInvalida ConfiguracaoSTT.TAXA_AMOSTRAGEM), [])
      else if mkdir fs (DIRETORIO_LOGS a) then (None, [DIRETORIO_LOGS a])
      else (Some (FalhaDiretorioLogs (DIRETORIO_LOGS a)), [DIRETORIO_LOGS a])
  end.

Inductive falha_startup :=
| FalhaConfiguracao (e : erro_configuracao)
| FalhaModelo (e : exn).

Section Servico.

Variable Model : Type.

(** [startup]: validate, then preload the model; whatever fails is
    logged and raised again.  The result is the failure, if any, the
    loader afterwards and the [mkdir] calls made. *)
Definition startup (a : ambiente) (fs : sistema_arquivos) (carga : res Model)
    (c : Carregador.t Model)
  : option falha_startup * Carregador.t Model * list str :=
  match validar a fs with
  | (Some e, dirs) => (Some (FalhaConfiguracao e), c, dirs)
  | (None, dirs) =>
      match Carregador.obter_modelo Model (CAMINHO_MODELO_VOSK a) carga c with
      | (Ret _, c') => (None, c', dirs)
      | (Raise e, c') => (Some (FalhaModelo e), c', dirs)
      end
  end.

(** The [components] object of the health response. *)
Record componentes := MkComponentes {
  api_status : string;
  api_porta : Z;
  vosk_model_status : string;
  vosk_model_path : option str;
  vosk_model_sample_rate : Z;
  vosk_model_language : str;
  glossa_service_status : string;
  glossa_service_url : str
}.

(** [RespostaHealthCheck], without its timestamp. *)
Record RespostaHealthCheck := MkResposta {
  status : string;
  version : str;
  components : componentes
}.

(** [str(CAMINHO_MODELO_VOSK)] *)
Definition str_caminho (a : ambiente) : str :=
  match CAMINHO_MODELO_VOSK a with
  | Some p => p
  | None => lit "None"
  end.

Definition health_check (a : ambiente) (cfg : ConfiguracaoSTT.t)
    (c : Carregador.t Model) : RespostaHealthCheck :=
  let modelo_carregado := Carregador.modelo_esta_carregado Model c in
  let componentes :=
    MkComponentes "healthy" (PORTA_SERVICO a)
      (if modelo_carregado then "loaded" else "not_loaded")
      (if modelo_carregado then Some (str_caminho a) else None)
      ConfiguracaoSTT.TAXA_AMOSTRAGEM ConfiguracaoSTT.IDIOMA_ENTRADA
      "configured" (ConfiguracaoSTT.URL_SERVICO_GLOSSA cfg) in
  let status_geral := if modelo_carregado then "healthy" else "degraded" in
  MkResposta status_geral ConfiguracaoSTT.VERSAO_SERVICO componentes.

End Servico.

End Inicializacao.

(* ================================================================== *)
(** * test_client.py: how the client cuts the audio into frames        *)
(* ================================================================== *)

Module TestClient.

Definition chunk_size : nat := 8 * 1024.

(** [range(0, n, step)] for a positive [step]: 0, step, 2 step, ...
    below [n]. *)
Definition range_step (n step : nat) : list nat :=
  List.map (fun j => (j * step)%nat) (seq 0 ((n + step - 1) / step)).

(** [l[i:j]] for [0 <= i <= j]. *)
Definition slice {A} (l : list A) (i j : nat) : list A :=
  firstn (j - i) (skipn i l).

(** [f.seek(44); f.read()]: the PCM data after the WAV header. *)
Definition audio_data (arquivo : list Byte.byte) : list Byte.byte :=
  skipn 44 arquivo.

(** The frames sent by [enviar_audio], in order, for a step [k]. *)
Definition chunks_de (k : nat) (dados : list Byte.byte)
  : list (list Byte.byte) :=
  List.map (fun i => slice dados i (i + k))
    (range_step (List.length dados) k).

Definition enviar_audio (arquivo : list Byte.byte) : list (list Byte.byte) :=
  chunks_de chunk_size (audio_data arquivo).

(** The number of frames the client announces. *)
Definition total_chunks (arquivo : list Byte.byte) : nat :=
  (List.length (audio_data arquivo) / chunk_size)%nat.

End TestClient.

Module ReferenciaMotor.

Import MotorSTTVosk.

(** No white space at the start. *)
Definition inicio_limpo (s : str) : Prop :=
  match s with
  | [] => True
  | c :: _ => isspace c = false
  end.

(** No white space at either end. *)
Definition aparado (s : str) : Prop :=
  inicio_limpo s /\ inicio_limpo (rev s).

Definition e_final (r : bool * str * option Q) : bool := fst (fst r).

Definition e_parcial (r : bool * str * option Q) : bool :=
  negb (fst (fst r)) && truthy (snd (fst r)).

Section Sequencia.

Variable K : KaldiRecognizer.

(** Frames fed one after another to the same engine, until the
    recognizer fails: the results returned and the engine afterwards. *)
Fixpoint processar_seq (frames : list (list Byte.byte)) (m : t K)
  : list (bool * str * option Q) * t K :=
  match frames with
  | [] => ([], m)
  | f :: fs =>
      match processar_audio K f m with
      | (Ret r, m') =>
          let '(rs, m'') := processar_seq fs m' in (r :: rs, m'')
      | (Raise _, m') => ([], m')
      end
  end.

End Sequencia.

End ReferenciaMotor.

Module ReferenciaGateway.

Import Esquema Gateway.

(** A turn of the loop in which the client sent an empty frame. *)
Definition quadro_vazio (q : quadro) : bool :=
  match receive_bytes q with
  | Ret [] => true
  | _ => false
  end.

(** The same run without the turns of empty frames. *)
Definition sem_quadros_vazios {K} (amb : ambiente K) : ambiente K :=
  MkAmbiente K (uuid4 K amb) (criar_motor K amb) (send_inicio K amb)
    (filter (fun q => negb (quadro_vazio q)) (quadros K amb))
    (send_erro K amb) (http_final K amb).

(** A recognizer that never has anything but blank text to report. *)
Definition so_silencio (K : Motor.KaldiRecognizer) : Prop :=
  forall k,
    strip (Motor.get_or (Motor.text (fst (Motor.Result K k))) []) = []
    /\ strip (Motor.get_or (Motor.partial (fst (Motor.PartialResult K k))) [])
       = [].

(** A recognizer that never reports an utterance boundary. *)
Definition sem_fronteira (K : Motor.KaldiRecognizer) : Prop :=
  forall k audio, fst (Motor.AcceptWaveform K k audio) <> Ret true.

(** A recognizer that hears nothing, and one that hears speech without
    ever detecting a pause. *)
Definition K_mudo : Motor.KaldiRecognizer :=
  Motor.MkKaldi unit
    (fun k _ => (Ret false, k))
    (fun k => (Motor.MkResultado (Some []) None None, k))
    (fun k => (Motor.MkResultado None (Some (lit "  ")) None, k))
    (fun k => (Motor.MkResultado (Some []) None None, k)).

Definition K_continuo : Motor.KaldiRecognizer :=
  Motor.MkKaldi unit
    (fun k _ => (Ret false, k))
    (fun k => (Motor.MkResultado (Some []) None None, k))
    (fun k => (Motor.MkResultado None (Some (lit "ola como")) None, k))
    (fun k => (Motor.MkResultado (Some []) None None, k)).

Definition e_final_msg (m : Mensagem) : bool :=
  match tipo m with TRANSCRICAO_FINAL => true | _ => false end.

(** Three frames, the second one empty, then the client leaves. *)
Definition amb_com_vazio (K : Motor.KaldiRecognizer) (r : Motor.rec_state K)
  : ambiente K :=
  MkAmbiente K ReferenciaSessao.sid (Ret r) (Ret tt)
    [ReferenciaSessao.fala 1000;
     MkQuadro (Ret []) 1001 ReferenciaSessao.http_200 (Ret tt);
     ReferenciaSessao.fala 1002]
    (Ret tt) ReferenciaSessao.http_200.

(** The recognizer fails on the first frame. *)
Definition amb_motor_quebra : ambiente ReferenciaSessao.K_roteiro :=
  MkAmbiente ReferenciaSessao.K_roteiro ReferenciaSessao.sid (Ret false)
    (Ret tt)
    [MkQuadro (Ret [Byte.xff]) 1000 ReferenciaSessao.http_200 (Ret tt)]
    (Ret tt) ReferenciaSessao.http_200.

End ReferenciaGateway.

(* ================================================================== *)
(** * Properties                                                       *)
(* ================================================================== *)

(** ** Comparisons of rationals *)

Lemma Qlt_bool_iff (x y : Q) : Qlt_bool x y = true <-> (x < y)%Q.
Proof.
  unfold Qlt_bool. rewrite negb_true_iff.
  split; intro H.
  - apply Qnot_le_lt. intro Hle. apply Qle_bool_iff in Hle. congruence.
  - destruct (Qle_bool y x) eqn:E; [ | reflexivity ].
    apply Qle_bool_iff in E. exfalso. exact (Qlt_not_le _ _ H E).
Qed.

Lemma Qlt_bool_false_iff (x y : Q) : Qlt_bool x y = false <-> (y <= x)%Q.
Proof.
  unfold Qlt_bool. rewrite negb_false_iff. apply Qle_bool_iff.
Qed.

Lemma Qgt_bool_iff (x y : Q) : Qgt_bool x y = true <-> (y < x)%Q.
Proof. apply Qlt_bool_iff. Qed.

Lemma Qgt_bool_false_iff (x y : Q) : Qgt_bool x y = false <-> (x <= y)%Q.
Proof. apply Qlt_bool_false_iff. Qed.

Lemma Qge_bool_iff (x y : Q) : Qge_bool x y = true <-> (y <= x)%Q.
Proof. apply Qle_bool_iff. Qed.

(** ** Doubles *)

Section Binary64.

(** Rounding to the nearest integer is monotone and keeps the integers. *)
Lemma round_half_even_comp (a b : Q) :
  (a == b)%Q -> round_half_even a = round_half_even b.
Proof.
  intro H. unfold round_half_even.
  rewrite (Qfloor_comp _ _ H).
  assert (E : ((a - inject_Z (Qfloor b) ?= 1 # 2) = (b - inject_Z (Qfloor b) ?= 1 # 2))%Q).
  { apply Qcompare_comp; [ rewrite H; reflexivity | reflexivity ]. }
  rewrite E. reflexivity.
Qed.

Lemma round_half_even_limites (a : Q) :
  Qfloor a <= round_half_even a <= Qfloor a + 1.
Proof.
  unfold round_half_even.
  destruct (a - inject_Z (Qfloor a) ?= 1 # 2)%Q; [ destruct (Z.even _) | | ]; lia.
Qed.

Lemma round_half_even_Z (m : Z) : round_half_even (inject_Z m) = m.
Proof.
  unfold round_half_even. rewrite Qfloor_Z.
  assert (E : (inject_Z m - inject_Z m ?= 1 # 2)%Q = Lt).
  { rewrite <- Qlt_alt. ring_simplify. reflexivity. }
  rewrite E. reflexivity.
Qed.

Lemma round_half_even_le (a b : Q) :
  (a <= b)%Q -> round_half_even a <= round_half_even b.
Proof.
  intro H.
  pose proof (Qfloor_resp_le _ _ H) as Hf.
  pose proof (round_half_even_limites a) as [_ Ha].
  pose proof (round_half_even_limites b) as [Hb _].
  destruct (Z.eq_dec (Qfloor a) (Qfloor b)) as [E | E]; [ | lia ].
  unfold round_half_even. rewrite E.
  destruct (a - inject_Z (Qfloor b) ?= 1 # 2)%Q eqn:Ca;
    destruct (b - inject_Z (Qfloor b) ?= 1 # 2)%Q eqn:Cb;
    try (destruct (Z.even (Qfloor b))); try lia;
    try (apply Qeq_alt in Ca); try (apply Qeq_alt in Cb);
    try (rewrite <- Qlt_alt in Ca); try (rewrite <- Qlt_alt in Cb);
    try (rewrite <- Qgt_alt in Ca); try (rewrite <- Qgt_alt in Cb);
    exfalso; lra.
Qed.

Lemma pow2_pos (k : Z) : (0 < 2 ^ k)%Q.
Proof. apply Qpower_0_lt. reflexivity. Qed.

Lemma pow2_le (a b : Z) : a <= b -> (2 ^ a <= 2 ^ b)%Q.
Proof. intro H. apply Qpower_le_compat_l; [ exact H | discriminate ]. Qed.

Lemma pow2_lt (a b : Z) : a < b -> (2 ^ a < 2 ^ b)%Q.
Proof. intro H. apply Qpower_lt_compat_l; [ exact H | reflexivity ]. Qed.

Lemma pow2_lt_inv (a b : Z) : (2 ^ a < 2 ^ b)%Q -> a < b.
Proof. intro H. apply (Qpower_lt_compat_l_inv 2); [ exact H | reflexivity ]. Qed.

Lemma pow2_Z (a : Z) : 0 <= a -> (inject_Z (2 ^ a) == 2 ^ a)%Q.
Proof. intro H. rewrite Zpower_Qpower by exact H. reflexivity. Qed.

Lemma pow2_plus (a b : Z) : (2 ^ (a + b) == 2 ^ a * 2 ^ b)%Q.
Proof. apply Qpower_plus. discriminate. Qed.

Lemma pow2_succ (a : Z) : (2 ^ (a + 1) == 2 * 2 ^ a)%Q.
Proof. rewrite pow2_plus. change (2 ^ 1)%Q with 2%Q. ring. Qed.

(** [expoente q] is the binary exponent of [q]. *)
Lemma expoente_spec (q : Q) :
  (0 < q)%Q -> (2 ^ expoente q <= q < 2 ^ (expoente q + 1))%Q.
Proof.
  intro Hq. unfold expoente.
  destruct q as [n d]. cbn [Qnum Qden].
  assert (Hn : 0 < n) by (unfold Qlt in Hq; cbn in Hq; lia).
  set (a := Z.log2 n). set (b := Z.log2 (Z.pos d)).
  destruct (Z.log2_spec n Hn) as [Ha1 Ha2].
  destruct (Z.log2_spec (Z.pos d) ltac:(lia)) as [Hb1 Hb2].
  fold a in Ha1, Ha2. fold b in Hb1, Hb2.
  assert (Ha0 : 0 <= a) by apply Z.log2_nonneg.
  assert (Hb0 : 0 <= b) by apply Z.log2_nonneg.
  assert (HN : (inject_Z n == (n # d) * inject_Z (Z.pos d))%Q).
  { rewrite (Qmake_Qdiv n d). field. discriminate. }
  rewrite Zle_Qle, pow2_Z in Ha1 by exact Ha0.
  rewrite Zlt_Qlt, pow2_Z in Ha2 by lia.
  rewrite Zle_Qle, pow2_Z in Hb1 by exact Hb0.
  rewrite Zlt_Qlt, pow2_Z in Hb2 by lia.
  replace (Z.succ a) with (a + 1) in Ha2 by lia.
  replace (Z.succ b) with (b + 1) in Hb2 by lia.
  rewrite pow2_succ in Ha2, Hb2.
  assert (HE : (2 ^ a == 2 ^ (a - b) * 2 ^ b)%Q).
  { rewrite <- pow2_plus. replace (a - b + b) with a by lia. reflexivity. }
  pose proof (pow2_pos b) as HB. pose proof (pow2_pos (a - b)) as HEp.
  set (q := (n # d)%Q) in *.
  set (A := (2 ^ a)%Q) in *. set (B := (2 ^ b)%Q) in *.
  set (E := (2 ^ (a - b))%Q) in *.
  set (N := inject_Z n) in *. set (D := inject_Z (Z.pos d)) in *.
  assert (H1 : (q < 2 * E)%Q).
  { apply Qnot_le_lt. intro Hc.
    assert ((2 * E) * B <= q * D)%Q.
    { apply Qle_trans with (q * B)%Q.
      - apply Qmult_le_compat_r; lra.
      - apply Qmult_le_l; lra. }
    lra. }
  assert (H2 : (E < 2 * q)%Q).
  { apply Qnot_le_lt. intro Hc.
    assert (q * D < E * B)%Q.
    { apply Qlt_le_trans with (q * (2 * B))%Q.
      - apply Qmult_lt_l; lra.
      - setoid_replace (q * (2 * B))%Q with ((2 * q) * B)%Q by ring.
        apply Qmult_le_compat_r; lra. }
    lra. }
  destruct (Qle_bool E q) eqn:T.
  - apply Qle_bool_iff in T. rewrite pow2_succ. fold E. split; lra.
  - assert (Hlt : (q < E)%Q).
    { apply Qnot_le_lt. intro Hc. apply Qle_bool_iff in Hc. congruence. }
    replace (a - b - 1 + 1) with (a - b) by lia. fold E.
    assert (HE1 : (E == 2 * 2 ^ (a - b - 1))%Q).
    { unfold E. rewrite <- pow2_succ. replace (a - b - 1 + 1) with (a - b) by lia.
      reflexivity. }
    split; lra.
Qed.

Lemma expoente_unico (q : Q) (e : Z) :
  (2 ^ e <= q < 2 ^ (e + 1))%Q -> expoente q = e.
Proof.
  intros [H1 H2].
  assert (Hq : (0 < q)%Q) by (pose proof (pow2_pos e); lra).
  destruct (expoente_spec q Hq) as [H3 H4].
  assert (e < expoente q + 1) by (apply pow2_lt_inv; lra).
  assert (expoente q < e + 1) by (apply pow2_lt_inv; lra).
  lia.
Qed.

Lemma expoente_le (q1 q2 : Q) :
  (0 < q1)%Q -> (q1 <= q2)%Q -> expoente q1 <= expoente q2.
Proof.
  intros H1 H12.
  destruct (expoente_spec q1 H1) as [A1 A2].
  destruct (expoente_spec q2 ltac:(lra)) as [B1 B2].
  assert (expoente q1 < expoente q2 + 1) by (apply pow2_lt_inv; lra).
  lia.
Qed.

Lemma expoente_comp (q1 q2 : Q) :
  (0 < q1)%Q -> (q1 == q2)%Q -> expoente q1 = expoente q2.
Proof.
  intros H1 H12. symmetry. apply expoente_unico.
  rewrite <- H12. apply expoente_spec. exact H1.
Qed.

(** Rounding to a grid is monotone and keeps the points of that grid
    and of every coarser one. *)
Lemma grade_comp (x : Z) (q1 q2 : Q) :
  (q1 == q2)%Q -> (grade x q1 == grade x q2)%Q.
Proof.
  intro H. unfold grade.
  rewrite (round_half_even_comp (q1 / 2 ^ x) (q2 / 2 ^ x)); [ reflexivity | ].
  rewrite H. reflexivity.
Qed.

Lemma grade_le (x : Z) (q1 q2 : Q) :
  (q1 <= q2)%Q -> (grade x q1 <= grade x q2)%Q.
Proof.
  intro H. unfold grade. pose proof (pow2_pos x) as Hx.
  apply Qmult_le_compat_r; [ | lra ].
  rewrite <- Zle_Qle. apply round_half_even_le.
  unfold Qdiv. apply Qmult_le_compat_r; [ exact H | ].
  apply Qlt_le_weak, Qinv_lt_0_compat, Hx.
Qed.

Lemma grade_fixo (x : Z) (m : Z) :
  (grade x (inject_Z m * 2 ^ x) == inject_Z m * 2 ^ x)%Q.
Proof.
  unfold grade. pose proof (pow2_pos x) as Hx.
  rewrite (round_half_even_comp _ (inject_Z m)).
  - rewrite round_half_even_Z. reflexivity.
  - field. lra.
Qed.

(** A multiple of [2^x] is a multiple of [2^y] for [y <= x]. *)
Lemma multiplo_fino (x y m : Z) :
  y <= x -> (inject_Z m * 2 ^ x == inject_Z (m * 2 ^ (x - y)) * 2 ^ y)%Q.
Proof.
  intro H. rewrite inject_Z_mult, pow2_Z by lia.
  rewrite <- Qmult_assoc, <- pow2_plus.
  replace (x - y + y) with x by lia. reflexivity.
Qed.

Lemma grade_fixo_fino (x y m : Z) :
  y <= x -> (grade y (inject_Z m * 2 ^ x) == inject_Z m * 2 ^ x)%Q.
Proof.
  intro H. rewrite (grade_comp y _ _ (multiplo_fino x y m H)).
  rewrite grade_fixo. symmetry. apply multiplo_fino. exact H.
Qed.

Lemma grade_pow2 (x e : Z) : x <= e -> (grade x (2 ^ e) == 2 ^ e)%Q.
Proof.
  intro H.
  assert (E : (2 ^ e == inject_Z 1 * 2 ^ e)%Q) by (change (inject_Z 1) with 1%Q; ring).
  rewrite (grade_comp x _ _ E). rewrite grade_fixo_fino by exact H.
  symmetry. exact E.
Qed.

Lemma grade_nonneg (x : Z) (q : Q) : (0 <= q)%Q -> (0 <= grade x q)%Q.
Proof.
  intro H. pose proof (grade_le x 0 q H) as Hle.
  assert (E : (grade x 0 == 0)%Q).
  { assert (E0 : (0 == inject_Z 0 * 2 ^ x)%Q) by (change (inject_Z 0) with 0%Q; ring).
    rewrite (grade_comp x _ _ E0). rewrite grade_fixo. symmetry. exact E0. }
  lra.
Qed.

Lemma quantum_le (q1 q2 : Q) :
  (0 < q1)%Q -> (q1 <= q2)%Q -> quantum q1 <= quantum q2.
Proof.
  intros H1 H12. unfold quantum.
  pose proof (expoente_le q1 q2 H1 H12). lia.
Qed.

Lemma quantum_comp (q1 q2 : Q) :
  (0 < q1)%Q -> (q1 == q2)%Q -> quantum q1 = quantum q2.
Proof.
  intros H1 H12. unfold quantum. rewrite (expoente_comp _ _ H1 H12). reflexivity.
Qed.

Lemma binary64_pos (q : Q) :
  (0 < q)%Q -> (binary64 q == grade (quantum q) q)%Q.
Proof.
  intro H. unfold binary64.
  rewrite Qgt_alt in H. rewrite H. apply Qred_correct.
Qed.

Lemma binary64_neg (q : Q) :
  (q < 0)%Q -> (binary64 q == - grade (quantum (- q)) (- q))%Q.
Proof.
  intro H. unfold binary64.
  rewrite Qlt_alt in H. rewrite H. apply Qred_correct.
Qed.

Lemma binary64_zero (q : Q) : (q == 0)%Q -> binary64 q = 0%Q.
Proof.
  intro H. unfold binary64. rewrite Qeq_alt in H. rewrite H. reflexivity.
Qed.

Lemma binary64_opp (q : Q) : (binary64 (- q) == - binary64 q)%Q.
Proof.
  destruct (Q_dec q 0) as [[H | H] | H].
  - rewrite (binary64_neg q H). rewrite binary64_pos by lra. ring.
  - rewrite (binary64_pos q H). rewrite binary64_neg by lra.
    assert (E : (- - q == q)%Q) by ring.
    assert (Hq : (0 < - - q)%Q) by lra.
    unfold quantum. rewrite (expoente_comp _ _ Hq E).
    rewrite (grade_comp _ _ _ E). reflexivity.
  - rewrite (binary64_zero q H). rewrite binary64_zero by (rewrite H; reflexivity).
    reflexivity.
Qed.

Lemma binary64_comp (q1 q2 : Q) : (q1 == q2)%Q -> binary64 q1 = binary64 q2.
Proof.
  intro H. unfold binary64.
  assert (C : (q1 ?= 0)%Q = (q2 ?= 0)%Q)
    by (apply Qcompare_comp; [ exact H | reflexivity ]).
  rewrite <- C. destruct (q1 ?= 0)%Q eqn:E; [ reflexivity | | ].
  - rewrite <- Qlt_alt in E. apply Qred_complete.
    assert (Hq : (0 < - q1)%Q) by lra.
    assert (Hn : (- q1 == - q2)%Q) by (rewrite H; reflexivity).
    unfold quantum. rewrite (expoente_comp _ _ Hq Hn).
    rewrite (grade_comp _ _ _ Hn). reflexivity.
  - rewrite <- Qgt_alt in E. apply Qred_complete.
    unfold quantum. rewrite (expoente_comp _ _ E H).
    rewrite (grade_comp _ _ _ H). reflexivity.
Qed.

#[global] Instance binary64_Proper : Proper (Qeq ==> Qeq) binary64.
Proof. intros x y H. rewrite (binary64_comp x y H). reflexivity. Qed.

Lemma binary64_nonneg (q : Q) : (0 <= q)%Q -> (0 <= binary64 q)%Q.
Proof.
  intro H. destruct (Qle_lt_or_eq _ _ H) as [Hp | Hz].
  - rewrite binary64_pos by exact Hp. apply grade_nonneg. exact H.
  - rewrite binary64_zero by (symmetry; exact Hz). apply Qle_refl.
Qed.

(** Rounding to a double is monotone: within one grid by [grade_le],
    across two grids through the power of two between them. *)
Lemma binary64_le_pos (q1 q2 : Q) :
  (0 < q1)%Q -> (q1 <= q2)%Q -> (binary64 q1 <= binary64 q2)%Q.
Proof.
  intros H1 H12.
  assert (H2 : (0 < q2)%Q) by lra.
  rewrite (binary64_pos q1 H1), (binary64_pos q2 H2).
  pose proof (quantum_le q1 q2 H1 H12) as Hx.
  destruct (Z.eq_dec (quantum q1) (quantum q2)) as [E | E].
  - rewrite E. apply grade_le. exact H12.
  - assert (Hlt : quantum q1 < quantum q2) by lia.
    destruct (expoente_spec q1 H1) as [A1 A2].
    destruct (expoente_spec q2 H2) as [B1 B2].
    unfold quantum in *.
    set (e1 := expoente q1) in *. set (e2 := expoente q2) in *.
    assert (He : e1 + 1 <= e2) by lia.
    pose proof (pow2_le _ _ He) as Hp.
    apply Qle_trans with (2 ^ e2)%Q.
    + rewrite <- (grade_pow2 (Z.max (e1 - 52) (-1074)) e2) by lia.
      apply grade_le. lra.
    + rewrite <- (grade_pow2 (Z.max (e2 - 52) (-1074)) e2) at 1 by lia.
      apply grade_le. exact B1.
Qed.

Lemma binary64_le (q1 q2 : Q) :
  (q1 <= q2)%Q -> (binary64 q1 <= binary64 q2)%Q.
Proof.
  intro H.
  destruct (Q_dec q1 0) as [[H1 | H1] | H1].
  - destruct (Q_dec q2 0) as [[H2 | H2] | H2].
    + (* both negative *)
      assert (Hn : (binary64 (- q2) <= binary64 (- q1))%Q)
        by (apply binary64_le_pos; lra).
      rewrite !binary64_opp in Hn. lra.
    + pose proof (binary64_nonneg q2 ltac:(lra)).
      pose proof (binary64_nonneg (- q1) ltac:(lra)) as Hn.
      rewrite binary64_opp in Hn. lra.
    + pose proof (binary64_nonneg q2 ltac:(lra)).
      pose proof (binary64_nonneg (- q1) ltac:(lra)) as Hn.
      rewrite binary64_opp in Hn. lra.
  - apply binary64_le_pos; assumption.
  - rewrite (binary64_zero q1 H1). apply binary64_nonneg. lra.
Qed.

(** A positive multiple of [2^x] on or above the grid of its own
    binade is a double. *)
Lemma binary64_multiplo (m x : Z) :
  0 < m ->
  quantum (inject_Z m * 2 ^ x) <= x ->
  (binary64 (inject_Z m * 2 ^ x) == inject_Z m * 2 ^ x)%Q.
Proof.
  intros Hm Hx.
  assert (Hp : (0 < inject_Z m * 2 ^ x)%Q).
  { apply Qmult_lt_0_compat; [ | apply pow2_pos ].
    change 0%Q with (inject_Z 0). rewrite <- Zlt_Qlt. exact Hm. }
  rewrite binary64_pos by exact Hp.
  apply grade_fixo_fino. exact Hx.
Qed.

Lemma binary64_pow2 (e : Z) : -1074 <= e -> (binary64 (2 ^ e) == 2 ^ e)%Q.
Proof.
  intro He.
  assert (E : (2 ^ e == inject_Z 1 * 2 ^ e)%Q)
    by (change (inject_Z 1) with 1%Q; ring).
  rewrite (binary64_comp _ _ E).
  rewrite binary64_multiplo; [ symmetry; exact E | lia | ].
  rewrite <- (quantum_comp _ _ (pow2_pos e) E). unfold quantum.
  rewrite (expoente_unico (2 ^ e) e).
  - lia.
  - split; [ apply Qle_refl | apply pow2_lt; lia ].
Qed.

(** A double rounds to itself. *)
Lemma binary64_idem (q : Q) : (binary64 (binary64 q) == binary64 q)%Q.
Proof.
  assert (Hpos : forall q, (0 < q)%Q ->
            (binary64 (binary64 q) == binary64 q)%Q).
  { clear q. intros q Hq.
    destruct (expoente_spec q Hq) as [A1 A2].
    set (e := expoente q) in *.
    pose proof (binary64_pos q Hq) as Hb.
    set (x := quantum q) in *.
    assert (Hxe : x = Z.max (e - 52) (-1074)) by reflexivity.
    set (m := round_half_even (q / 2 ^ x)).
    assert (Hr : (binary64 q == inject_Z m * 2 ^ x)%Q) by exact Hb.
    assert (Hm0 : 0 <= m).
    { unfold m. rewrite <- (round_half_even_Z 0).
      apply round_half_even_le. pose proof (pow2_pos x).
      change (inject_Z 0) with 0%Q.
      apply Qle_shift_div_l; [ assumption | lra ]. }
    destruct (Z.eq_dec m 0) as [Ez | Ez].
    { rewrite Ez in Hr. change (inject_Z 0) with 0%Q in Hr.
      rewrite Qmult_0_l in Hr.
      rewrite (binary64_comp _ _ Hr). rewrite Hr.
      rewrite binary64_zero; reflexivity. }
    rewrite (binary64_comp _ _ Hr), Hr.
    (* the rounded value stays below the next power of two *)
    assert (Hup : (inject_Z m * 2 ^ x <= 2 ^ (Z.max (e + 1) x))%Q).
    { rewrite <- Hr. rewrite Hb. 
      rewrite <- (grade_pow2 x (Z.max (e + 1) x)) by lia.
      apply grade_le.
      apply Qle_trans with (2 ^ (e + 1))%Q; [ lra | apply pow2_le; lia ]. }
    assert (Hmp : (0 < inject_Z m * 2 ^ x)%Q).
    { apply Qmult_lt_0_compat; [ | apply pow2_pos ].
      change 0%Q with (inject_Z 0). rewrite <- Zlt_Qlt. lia. }
    destruct (Qlt_le_dec (inject_Z m * 2 ^ x) (2 ^ (Z.max (e + 1) x))%Q)
      as [Hlt | Hge].
    - apply binary64_multiplo; [ lia | ].
      unfold quantum.
      destruct (expoente_spec _ Hmp) as [C1 C2].
      assert (expoente (inject_Z m * 2 ^ x) < Z.max (e + 1) x)
        by (apply pow2_lt_inv; lra).
      lia.
    - assert (E : (inject_Z m * 2 ^ x == 2 ^ (Z.max (e + 1) x))%Q) by lra.
      rewrite E. apply binary64_pow2. lia. }
  destruct (Q_dec q 0) as [[H | H] | H].
  - assert (Hn : (binary64 (binary64 (- q)) == binary64 (- q))%Q)
      by (apply Hpos; lra).
    rewrite (binary64_comp _ _ (binary64_opp q)) in Hn.
    rewrite !binary64_opp in Hn. lra.
  - apply Hpos. exact H.
  - rewrite (binary64_zero q H). reflexivity.
Qed.

(** The integers up to [2^53] are doubles. *)
Lemma binary64_Z (z : Z) :
  0 <= z <= 2 ^ 53 -> (binary64 (inject_Z z) == inject_Z z)%Q.
Proof.
  intros [H0 H1].
  destruct (Z.eq_dec z 0) as [-> | Hz]; [ reflexivity | ].
  destruct (Z.eq_dec z (2 ^ 53)) as [-> | Hne]; [ reflexivity | ].
  assert (Hp : (0 < inject_Z z)%Q)
    by (change 0%Q with (inject_Z 0); rewrite <- Zlt_Qlt; lia).
  assert (E : (inject_Z z == inject_Z z * 2 ^ 0)%Q)
    by (change (2 ^ 0)%Q with 1%Q; ring).
  rewrite (binary64_comp _ _ E).
  rewrite binary64_multiplo; [ symmetry; exact E | lia | ].
  rewrite <- (quantum_comp _ _ Hp E). unfold quantum.
  destruct (expoente_spec _ Hp) as [C1 C2].
  assert (expoente (inject_Z z) < 53).
  { apply pow2_lt_inv. apply Qle_lt_trans with (inject_Z z); [ exact C1 | ].
    rewrite <- (pow2_Z 53) by lia. rewrite <- Zlt_Qlt. lia. }
  lia.
Qed.

Lemma candidato_volta (k : Z) (d c : Q) :
  candidato k d = Some c -> (binary64 c == d)%Q.
Proof.
  unfold candidato.
  destruct (Qeq_bool (binary64 _) d) eqn:E1;
    destruct (Qeq_bool (binary64 (inject_Z (Qceiling _) * _)) d) eqn:E2;
    try apply Qeq_bool_iff in E1; try apply Qeq_bool_iff in E2.
  - destruct (_ ?= _)%Q; [ destruct (Z.even _) | | ];
      intro H; inversion H; subst c; assumption.
  - intro H; inversion H; subst c; assumption.
  - intro H; inversion H; subst c; assumption.
  - discriminate.
Qed.

Lemma mais_curto_volta (n : nat) (k : Z) (d : Q) :
  (binary64 d == d)%Q -> (binary64 (mais_curto n k d) == d)%Q.
Proof.
  intro Hd. revert k. induction n as [ | n IH ]; intro k; cbn [mais_curto].
  - exact Hd.
  - destruct (candidato k d) as [ c | ] eqn:E.
    + exact (candidato_volta k d c E).
    + apply IH.
Qed.

(** Reading back what [repr] writes gives the double again. *)
Lemma repr_volta (d : Q) : (binary64 d == d)%Q -> (binary64 (repr d) == d)%Q.
Proof.
  intro Hd. unfold repr.
  destruct (d ?= 0)%Q eqn:C.
  - apply Qeq_alt in C. rewrite C. reflexivity.
  - rewrite (binary64_comp _ _ (Qred_correct _)).
    rewrite binary64_opp. unfold repr_pos.
    rewrite mais_curto_volta.
    + rewrite Qred_correct. ring.
    + rewrite (binary64_comp _ _ (Qred_correct _)).
      rewrite Qred_correct. rewrite binary64_opp, Hd. reflexivity.
  - rewrite (binary64_comp _ _ (Qred_correct _)). unfold repr_pos.
    rewrite mais_curto_volta.
    + apply Qred_correct.
    + rewrite (binary64_comp _ _ (Qred_correct _)).
      rewrite Qred_correct. exact Hd.
Qed.

Lemma repr_comp (d1 d2 : Q) : (d1 == d2)%Q -> repr d1 = repr d2.
Proof.
  intro H. unfold repr.
  assert (C : (d1 ?= 0)%Q = (d2 ?= 0)%Q)
    by (apply Qcompare_comp; [ exact H | reflexivity ]).
  rewrite <- C.
  assert (E1 : Qred d1 = Qred d2) by (apply Qred_complete; exact H).
  assert (E2 : Qred (- d1) = Qred (- d2))
    by (apply Qred_complete; rewrite H; reflexivity).
  rewrite E1, E2. reflexivity.
Qed.

(** Larger doubles have larger names. *)
Lemma repr_le (d1 d2 : Q) :
  (binary64 d1 == d1)%Q -> (binary64 d2 == d2)%Q ->
  (d1 <= d2)%Q -> (repr d1 <= repr d2)%Q.
Proof.
  intros H1 H2 H.
  destruct (Qle_lt_or_eq _ _ H) as [Hlt | Heq].
  - apply Qnot_lt_le. intro Hc.
    pose proof (binary64_le _ _ (Qlt_le_weak _ _ Hc)) as Hb.
    rewrite (repr_volta d1 H1), (repr_volta d2 H2) in Hb. lra.
  - rewrite (repr_comp _ _ Heq). apply Qle_refl.
Qed.

Lemma float_comp (x y : Q) : (x == y)%Q -> float_ x = float_ y.
Proof. intro H. unfold float_. rewrite (binary64_comp _ _ H). reflexivity. Qed.

(** [float_] names the double nearest to its argument. *)
Lemma binary64_float (x : Q) : (binary64 (float_ x) == binary64 x)%Q.
Proof. unfold float_. apply repr_volta. apply binary64_idem. Qed.

Lemma float_le (x y : Q) : (x <= y)%Q -> (float_ x <= float_ y)%Q.
Proof.
  intro H. unfold float_.
  apply repr_le; try apply binary64_idem. apply binary64_le. exact H.
Qed.

Lemma float_nonneg (x : Q) : (0 <= x)%Q -> (0 <= float_ x)%Q.
Proof. intro H. apply (float_le 0 x H). Qed.

Lemma float_le_1 (x : Q) : (x <= 1)%Q -> (float_ x <= 1)%Q.
Proof. intro H. apply (float_le x 1 H). Qed.

Lemma float_pos (x : Q) : (0 < binary64 x)%Q -> (0 < float_ x)%Q.
Proof.
  intro H. apply Qnot_le_lt. intro Hc.
  pose proof (binary64_le _ _ Hc) as Hb.
  rewrite binary64_float in Hb. change (binary64 0) with 0%Q in Hb. lra.
Qed.

Lemma float_nonpos (x : Q) : (binary64 x <= 0)%Q -> (float_ x <= 0)%Q.
Proof.
  intro H. unfold float_. change 0%Q with (repr (binary64 0)).
  apply repr_le; try apply binary64_idem. exact H.
Qed.

Lemma float_gt_0 (x : Q) : float_gt (float_ x) 0 = true <-> (0 < float_ x)%Q.
Proof.
  unfold float_gt, Qgt_bool. rewrite Qlt_bool_iff.
  change (binary64 0) with 0%Q. rewrite binary64_float.
  split; intro H.
  - apply float_pos. exact H.
  - apply Qnot_le_lt. intro Hc. pose proof (float_nonpos x Hc). lra.
Qed.

End Binary64.

(** ** The dispatch filter *)

Section Filtro.

Import OrquestradorEnvioGlossa.

(** The filter in terms of the stripped text alone: an empty [texto]
    strips to the empty string. *)
Lemma deve_enviar_strip (texto : str) (confianca : option Q) :
  deve_enviar texto confianca =
    if negb (truthy (strip texto)) then false
    else if len (strip texto) <? 3 then false
    else match confianca with
         | Some c => negb (Qlt_bool c (3 # 10))
         | None => true
         end.
Proof.
  unfold deve_enviar. destruct texto as [ | c t ].
  - reflexivity.
  - cbn [truthy negb orb].
    destruct (negb (truthy (strip (c :: t)))); [ reflexivity | ].
    destruct (len (strip (c :: t)) <? 3); [ reflexivity | ].
    destruct confianca as [ q | ]; [ | reflexivity ].
    destruct (Qlt_bool q (3 # 10)); reflexivity.
Qed.

(** C3.  [deve_enviar texto confianca] answers true exactly when the
    stripped text is non-empty, has at least 3 characters, and the
    confidence is unknown or at least 0.3.  In particular a stripped
    text shorter than 3 characters is rejected whatever the
    confidence, and with an unknown confidence only the emptiness and
    length filters decide. *)
Theorem deve_enviar_spec (texto : str) (confianca : option Q) :
  (deve_enviar texto confianca = true <->
     strip texto <> []
     /\ 3 <= len (strip texto)
     /\ (confianca = None
         \/ exists c, confianca = Some c /\ (3 # 10 <= c)%Q))
  /\ (len (strip texto) < 3 -> deve_enviar texto confianca = false)
  /\ (deve_enviar texto None = true <->
        strip texto <> [] /\ 3 <= len (strip texto)).
Proof.
  rewrite !deve_enviar_strip.
  destruct (strip texto) as [ | c t ] eqn:Est.
  - cbn. repeat split; try congruence; try tauto.
  - cbn [truthy negb].
    destruct (Z.ltb_spec (len (c :: t)) 3) as [Hlt | Hge].
    + repeat split; try congruence; try lia.
    + repeat split; try congruence; try lia.
      * destruct confianca as [ q | ]; [ right | left; reflexivity ].
        exists q. split; [ reflexivity | ].
        apply Qlt_bool_false_iff. now apply negb_true_iff.
      * intros (_ & _ & [Hc | (q & Hc & Hq)]); subst; [ reflexivity | ].
        apply negb_true_iff. now apply Qlt_bool_false_iff.
Qed.

Lemma deve_enviar_spec_witness :
  deve_enviar (lit "  ola ") (Some (1 # 2)) = true
  /\ deve_enviar (lit " oi ") (Some 1%Q) = false
  /\ deve_enviar (lit "ola") None = true.
Proof.
  split; [ | split ].
  - apply (proj1 (deve_enviar_spec (lit "  ola ") (Some (1 # 2)))).
    split; [ discriminate | ].
    split; [ vm_compute; discriminate | ].
    right. exists (1 # 2). split; [ reflexivity | ].
    unfold Qle; simpl; lia.
  - apply (proj1 (proj2 (deve_enviar_spec (lit " oi ") (Some 1%Q)))).
    reflexivity.
  - apply (proj2 (proj2 (deve_enviar_spec (lit "ola") None))).
    split; [ discriminate | vm_compute; discriminate ].
Defined.

End Filtro.

(** ** Confidence of a final result *)

Section Confianca.

Import MotorSTTVosk Referencia.

Lemma float_sub_gt (x y : Q) :
  float_gt (float_sub x y) 0 = Qlt_bool 0 (float_sub x y).
Proof.
  unfold float_sub.
  destruct (Qlt_bool 0 _) eqn:E.
  - apply float_gt_0. apply Qlt_bool_iff. exact E.
  - destruct (float_gt _ 0) eqn:G; [ | reflexivity ].
    apply float_gt_0 in G. apply Qlt_bool_iff in G. congruence.
Qed.

Lemma fold_acumular64 (ws : list palavra) (a b : Q) :
  fold_left acumular ws (a, b)
  = (fold_left float_add
       (List.map (fun p => float_mul (confianca_de p) (duracao64 p))
          (com_duracao64 ws)) a,
     fold_left float_add (List.map duracao64 (com_duracao64 ws)) b).
Proof.
  revert a b. induction ws as [ | p ws IH ]; intros a b; [ reflexivity | ].
  cbn [fold_left com_duracao64 filter].
  unfold acumular at 2. fold (duracao64 p). fold (confianca_de p).
  unfold duracao64 at 1. rewrite float_sub_gt. fold (duracao64 p).
  fold (com_duracao64 ws).
  destruct (Qlt_bool 0 (duracao64 p)); [ | apply IH ].
  rewrite IH. reflexivity.
Qed.

(** Sums of doubles *)

Lemma binary64_add (x y : Q) :
  (binary64 (float_add x y) == binary64 (binary64 x + binary64 y))%Q.
Proof. unfold float_add. apply binary64_float. Qed.

Lemma binary64_mul (x y : Q) :
  (binary64 (float_mul x y) == binary64 (binary64 x * binary64 y))%Q.
Proof. unfold float_mul. apply binary64_float. Qed.

Lemma binary64_duracao (p : palavra) :
  (0 < duracao64 p)%Q -> (0 < binary64 (duracao64 p))%Q.
Proof.
  intro H. apply Qnot_le_lt. intro Hc.
  unfold duracao64, float_sub in *.
  rewrite binary64_float in Hc.
  pose proof (float_nonpos _ Hc). lra.
Qed.








End Confianca.

(** ** The dispatch call *)

Section Despacho.

Import Esquema OrquestradorEnvioGlossa ReferenciaEnvio.

Variables (net : http) (texto : str) (confianca : option Q) (w : mundo).

(** The orchestrator after the attempt counter was incremented and the
    request was put on the wire. *)
Let o1 : t := inc_total (self w).
Let fio : list pedido := rede w ++ [montar_pedido o1 texto confianca].
Let duracao_ms : Q := ((t_fim net - t_inicio net) * 1000)%Q.

Ltac passo :=
  unfold enviar_para_glossa, bind, alterar, modify, get, of_res,
    try_except, requests_post, ret, novo_resultado;
  cbn [fst snd self rede select issubclass exn_class exc_class_eqb
       url_glossa session_id timeout negb].

Lemma conf_str_ok (c : option Q) : exists f, conf_str c = Ret f.
Proof. destruct c; eexists; reflexivity. Qed.

Lemma enviar_filtrado :
  deve_enviar texto confianca = false ->
  enviar_para_glossa net texto confianca w =
    (Ret (MkResultadoDespacho (url_glossa (self w)) false None None None
            (Some msg_filtrada)),
     MkMundo o1 (rede w)).
Proof. intro H. passo. rewrite H. reflexivity. Qed.

Lemma enviar_excecao (e : exn) :
  deve_enviar texto confianca = true ->
  post net = Raise e ->
  enviar_para_glossa net texto confianca w =
    (Ret (if issubclass (exn_class e) Timeout then
            MkResultadoDespacho (url_glossa (self w)) true None None
              (Some duracao_ms) (Some (msg_timeout (timeout (self w))))
          else if issubclass (exn_class e) RequestException then
            MkResultadoDespacho (url_glossa (self w)) false None None
              (Some duracao_ms) (Some (msg_rede e))
          else
            MkResultadoDespacho (url_glossa (self w)) false None None
              None (Some (msg_inesperado e))),
     MkMundo (inc_falha o1) fio).
Proof.
  intros H He. passo. rewrite H. cbn [negb].
  destruct (conf_str_ok confianca) as [f ->]. rewrite He.
  cbn [issubclass].
  destruct (exc_class_eqb (exn_class e) Timeout); [ reflexivity | ].
  destruct (exn_class e); reflexivity.
Qed.

Lemma enviar_http_erro (resp : Response) :
  deve_enviar texto confianca = true ->
  post net = Ret resp ->
  status_2xx resp = false ->
  enviar_para_glossa net texto confianca w =
    (Ret (MkResultadoDespacho (url_glossa (self w)) true
            (Some (status_code resp))
            (Some [(lit "error", JStr (slice_to 200 (text resp)))])
            (Some duracao_ms) (Some (msg_http (status_code resp)))),
     MkMundo (inc_falha (add_latencia duracao_ms o1)) fio).
Proof.
  intros H Hp Hs. passo. rewrite H. cbn [negb].
  destruct (conf_str_ok confianca) as [f ->]. unfold status_2xx in Hs.
  rewrite Hp, Hs.
  reflexivity.
Qed.

Lemma enviar_2xx (resp : Response) :
  deve_enviar texto confianca = true ->
  post net = Ret resp ->
  status_2xx resp = true ->
  enviar_para_glossa net texto confianca w =
    match novo_resultado (url_glossa (self w)) true
            (Some (status_code resp)) (corpo_de resp)
            (Some duracao_ms) None with
    | Ret r =>
        (Ret r, MkMundo (inc_sucesso (add_latencia duracao_ms o1)) fio)
    | Raise e =>
        (Ret (MkResultadoDespacho (url_glossa (self w)) false None None
                None (Some (msg_inesperado e))),
         MkMundo (inc_falha (inc_sucesso (add_latencia duracao_ms o1))) fio)
    end.
Proof.
  intros H Hp Hs. passo. rewrite H. cbn [negb].
  destruct (conf_str_ok confianca) as [f ->]. unfold status_2xx in Hs.
  rewrite Hp, Hs.
  unfold corpo_de.
  destruct (json_ resp) as [ j | e ].
  - destruct j; reflexivity.
  - cbn [select issubclass]. reflexivity.
Qed.

End Despacho.

Section DespachoPropriedades.

Import Esquema OrquestradorEnvioGlossa ReferenciaEnvio.

Lemma timeout_e_request_exception (c : exc_class) :
  issubclass c RequestException = false -> issubclass c Timeout = false.
Proof. destruct c; simpl; congruence. Qed.

Lemma issubclass_timeout (c : exc_class) :
  issubclass c Timeout = true <-> c = Timeout.
Proof. destruct c; simpl; split; congruence. Qed.

(** The call always returns an outcome. *)
Lemma enviar_para_glossa_retorna
    (net : http) (texto : str) (confianca : option Q) (w : mundo) :
  exists r w', enviar_para_glossa net texto confianca w = (Ret r, w').
Proof.
  destruct (deve_enviar texto confianca) eqn:Hd.
  - destruct (post net) as [ resp | e ] eqn:Hp.
    + destruct (status_2xx resp) eqn:Hs.
      * rewrite (enviar_2xx net texto confianca w resp Hd Hp Hs).
        destruct (novo_resultado _ _ _ _ _ _); eexists _, _; reflexivity.
      * rewrite (enviar_http_erro net texto confianca w resp Hd Hp Hs).
        eexists _, _; reflexivity.
    + rewrite (enviar_excecao net texto confianca w e Hd Hp).
      eexists _, _; reflexivity.
  - rewrite (enviar_filtrado net texto confianca w Hd).
    eexists _, _; reflexivity.
Qed.

(** C5.  Whatever the text, the confidence and the behaviour of the
    HTTP call, [enviar_para_glossa] returns an outcome and raises
    nothing.  An exception of [requests.post] that is not a
    [RequestException], and an exception raised while the outcome of a
    2xx response is built, end up in the [error] field of an outcome
    with [request_sent = false]. *)
Theorem enviar_para_glossa_nunca_propaga
    (net : http) (texto : str) (confianca : option Q) (w : mundo) :
  exists r w',
    enviar_para_glossa net texto confianca w = (Ret r, w')
    /\ (forall e,
          deve_enviar texto confianca = true ->
          post net = Raise e ->
          issubclass (exn_class e) RequestException = false ->
          request_sent r = false /\ error r = Some (msg_inesperado e))
    /\ (forall resp e,
          deve_enviar texto confianca = true ->
          post net = Ret resp ->
          status_2xx resp = true ->
          novo_resultado (url_glossa (self w)) true
            (Some (status_code resp)) (corpo_de resp)
            (Some ((t_fim net - t_inicio net) * 1000)%Q) None = Raise e ->
          request_sent r = false /\ error r = Some (msg_inesperado e)).
Proof.
  destruct (deve_enviar texto confianca) eqn:Hd.
  - destruct (post net) as [ resp | e ] eqn:Hp.
    + destruct (status_2xx resp) eqn:Hs.
      * rewrite (enviar_2xx net texto confianca w resp Hd Hp Hs).
        destruct (novo_resultado _ _ _ _ _ _) as [ r | e ] eqn:Hn.
        -- eexists _, _. split; [ reflexivity | ].
           split; [ intros; discriminate | ].
           intros resp' e' _ Heq _ Hn'. inversion Heq; subst resp'.
           rewrite Hn in Hn'. discriminate.
        -- eexists _, _. split; [ reflexivity | ].
           split; [ intros; discriminate | ].
           intros resp' e' _ Heq _ Hn'. inversion Heq; subst resp'.
           rewrite Hn in Hn'. inversion Hn'; subst e'. split; reflexivity.
      * rewrite (enviar_http_erro net texto confianca w resp Hd Hp Hs).
        eexists _, _. split; [ reflexivity | ].
        split; [ intros; discriminate | ].
        intros resp' e' _ Heq Hs'. inversion Heq; subst resp'. congruence.
    + rewrite (enviar_excecao net texto confianca w e Hd Hp).
      eexists _, _. split; [ reflexivity | ].
      split; [ | intros; discriminate ].
      intros e' _ Heq Hsub. inversion Heq; subst e'.
      rewrite (timeout_e_request_exception _ Hsub), Hsub.
      split; reflexivity.
  - rewrite (enviar_filtrado net texto confianca w Hd).
    eexists _, _. split; [ reflexivity | ].
    split; intros; discriminate.
Qed.

Lemma enviar_para_glossa_nunca_propaga_witness :
  exists r w',
    enviar_para_glossa
      (MkHttp (Raise (MkExn KeyError (lit "chave"))) 0 1)
      (lit "ola mundo") None (novo (lit "s1")) = (Ret r, w')
    /\ request_sent r = false
    /\ error r = Some (msg_inesperado (MkExn KeyError (lit "chave"))).
Proof.
  destruct (enviar_para_glossa_nunca_propaga
              (MkHttp (Raise (MkExn KeyError (lit "chave"))) 0 1)
              (lit "ola mundo") None (novo (lit "s1")))
    as (r & w' & Heq & Hexc & _).
  exists r, w'. split; [ exact Heq | ].
  apply (Hexc (MkExn KeyError (lit "chave"))); reflexivity.
Defined.

(** C6.  On a call that passes the filter, a transport failure of
    [requests.post] yields an outcome and adds one to the failure
    counter.  A timeout gives [request_sent = true], no response
    status and the timeout message; any other [RequestException]
    gives [request_sent = false] and the network-error message. *)
Theorem enviar_falha_de_transporte
    (net : http) (texto : str) (confianca : option Q) (w : mundo) (e : exn) :
  deve_enviar texto confianca = true ->
  post net = Raise e ->
  issubclass (exn_class e) RequestException = true ->
  exists r w',
    enviar_para_glossa net texto confianca w = (Ret r, w')
    /\ envios_falha (self w') = envios_falha (self w) + 1
    /\ (exn_class e = Timeout ->
          request_sent r = true
          /\ response_status r = None
          /\ error r = Some (msg_timeout (timeout (self w))))
    /\ (exn_class e <> Timeout ->
          request_sent r = false
          /\ error r = Some (msg_rede e)).
Proof.
  intros Hd Hp Hsub.
  rewrite (enviar_excecao net texto confianca w e Hd Hp), Hsub.
  eexists _, _. split; [ reflexivity | ].
  split; [ reflexivity | ].
  split.
  - intro Ht. rewrite (proj2 (issubclass_timeout _) Ht).
    repeat split.
  - intro Ht. destruct (issubclass (exn_class e) Timeout) eqn:E.
    + apply issubclass_timeout in E. contradiction.
    + split; reflexivity.
Qed.

Lemma enviar_falha_de_transporte_witness :
  (exists r w',
     enviar_para_glossa (c_net chamada_timeout) (c_texto chamada_timeout)
       (c_confianca chamada_timeout) (novo (lit "s1")) = (Ret r, w')
     /\ envios_falha (self w') = 1
     /\ request_sent r = true
     /\ response_status r = None
     /\ error r = Some (msg_timeout 10))
  /\ (exists r w',
        enviar_para_glossa (c_net chamada_sem_rede) (c_texto chamada_sem_rede)
          (c_confianca chamada_sem_rede) (novo (lit "s1")) = (Ret r, w')
        /\ envios_falha (self w') = 1
        /\ request_sent r = false
        /\ error r = Some (msg_rede (MkExn ConnectionError
                                       (lit "Connection refused")))).
Proof.
  split.
  - destruct (enviar_falha_de_transporte (c_net chamada_timeout)
                (c_texto chamada_timeout) (c_confianca chamada_timeout)
                (novo (lit "s1")) (MkExn Timeout (lit "Read timed out."))
                eq_refl eq_refl eq_refl)
      as (r & w' & Heq & Hf & Ht & _).
    exists r, w'. split; [ exact Heq | ]. split; [ exact Hf | ].
    exact (Ht eq_refl).
  - destruct (enviar_falha_de_transporte (c_net chamada_sem_rede)
                (c_texto chamada_sem_rede) (c_confianca chamada_sem_rede)
                (novo (lit "s1"))
                (MkExn ConnectionError (lit "Connection refused"))
                eq_refl eq_refl eq_refl)
      as (r & w' & Heq & Hf & _ & Hn).
    exists r, w'. split; [ exact Heq | ]. split; [ exact Hf | ].
    apply Hn. discriminate.
Defined.

(** C7.  When the filter rejects the text, [enviar_para_glossa] adds
    one to the attempt counter, leaves the success and failure counters
    and the wire untouched, does not depend on the network at all, and
    returns an outcome with [request_sent = false], an explanatory
    [error], and no response status, response body or duration. *)
Theorem enviar_filtrado_spec
    (net : http) (texto : str) (confianca : option Q) (w : mundo) :
  deve_enviar texto confianca = false ->
  exists r w',
    enviar_para_glossa net texto confianca w = (Ret r, w')
    /\ (forall net', enviar_para_glossa net' texto confianca w = (Ret r, w'))
    /\ total_envios (self w') = total_envios (self w) + 1
    /\ envios_sucesso (self w') = envios_sucesso (self w)
    /\ envios_falha (self w') = envios_falha (self w)
    /\ rede w' = rede w
    /\ request_sent r = false
    /\ error r = Some msg_filtrada
    /\ response_status r = None
    /\ response_body r = None
    /\ duration_ms r = None.
Proof.
  intro Hd. eexists _, _.
  split; [ apply (enviar_filtrado net texto confianca w Hd) | ].
  split; [ intro net'; apply (enviar_filtrado net' texto confianca w Hd) | ].
  repeat split.
Qed.

Lemma enviar_filtrado_spec_witness :
  exists r w',
    enviar_para_glossa (c_net chamada_curta) (c_texto chamada_curta)
      (c_confianca chamada_curta) (novo (lit "s1")) = (Ret r, w')
    /\ total_envios (self w') = 1
    /\ rede w' = []
    /\ request_sent r = false
    /\ error r = Some msg_filtrada.
Proof.
  destruct (enviar_filtrado_spec (c_net chamada_curta) (c_texto chamada_curta)
              (c_confianca chamada_curta) (novo (lit "s1")) eq_refl)
    as (r & w' & Heq & _ & Ht & _ & _ & Hr & Hs & He & _).
  exists r, w'. repeat split; assumption.
Defined.

End DespachoPropriedades.

(** ** Counters and statistics of the orchestrator *)

Section Contadores.

Import Esquema OrquestradorEnvioGlossa ReferenciaEnvio.
Import Referencia (Qsum).

(** The effect of one call on the four statistics fields. *)
Lemma chamar_contadores (w : mundo) (c : chamada) :
  total_envios (self (chamar w c)) = total_envios (self w) + 1
  /\ envios_sucesso (self (chamar w c))
     = envios_sucesso (self w) + (if sucedida c then 1 else 0)
  /\ envios_falha (self (chamar w c))
     = envios_falha (self w)
       + (if filtrada c then 0
          else if sucedida c then (if corpo_recusado c then 1 else 0)
          else 1)
  /\ latencia_total_ms (self (chamar w c))
     = (if respondida c then (latencia_total_ms (self w) + latencia c)%Q
        else latencia_total_ms (self w)).
Proof.
  unfold chamar, filtrada, sucedida, corpo_recusado, respondida, resposta,
    latencia.
  destruct c as [net texto confianca]; cbn [c_net c_texto c_confianca].
  destruct (deve_enviar texto confianca) eqn:Hd; cbn [negb].
  - destruct (post net) as [ resp | e ] eqn:Hp.
    + destruct (status_2xx resp) eqn:Hs.
      * rewrite (enviar_2xx net texto confianca w resp Hd Hp Hs).
        cbn [andb].
        destruct (corpo_de resp); cbn; repeat split; lia.
      * rewrite (enviar_http_erro net texto confianca w resp Hd Hp Hs).
        cbn. repeat split; lia.
    + rewrite (enviar_excecao net texto confianca w e Hd Hp).
      cbn. repeat split; lia.
  - rewrite (enviar_filtrado net texto confianca w Hd).
    cbn. repeat split; lia.
Qed.

Lemma contar_cons {A} (f : A -> bool) (x : A) (l : list A) :
  contar f (x :: l) = (if f x then 1 else 0) + contar f l.
Proof.
  unfold contar, len. simpl. destruct (f x); simpl List.length; lia.
Qed.

(** After any sequence of calls: every call is an attempt; the success
    and failure counters together count the calls that passed the
    filter, plus once more each 2xx call whose body was refused; the
    latency total adds the latency of every call that received an HTTP
    response, whatever its status. *)
Lemma enviar_seq_contadores (cs : list chamada) (w : mundo) :
  total_envios (self (enviar_seq cs w)) = total_envios (self w) + len cs
  /\ envios_sucesso (self (enviar_seq cs w))
     = envios_sucesso (self w) + contar sucedida cs
  /\ envios_sucesso (self (enviar_seq cs w))
     + envios_falha (self (enviar_seq cs w)) + contar filtrada cs
     = envios_sucesso (self w) + envios_falha (self w) + len cs
       + contar corpo_recusado cs
  /\ (latencia_total_ms (self (enviar_seq cs w))
      == latencia_total_ms (self w)
         + Qsum (List.map latencia (filter respondida cs)))%Q.
Proof.
  revert w. induction cs as [ | c cs IH ]; intro w.
  - cbn. repeat split; try lia. ring.
  - unfold enviar_seq. cbn [fold_left]. fold (enviar_seq cs (chamar w c)).
    destruct (IH (chamar w c)) as (Ht & Hs & Hsf & Hl).
    destruct (chamar_contadores w c) as (Ht1 & Hs1 & Hf1 & Hl1).
    rewrite !contar_cons.
    replace (len (c :: cs)) with (1 + len cs)
      by (unfold len; simpl List.length; lia).
    split; [ lia | ]. split; [ lia | ]. split.
    + rewrite Hs1, Hf1 in Hsf.
      unfold corpo_recusado, sucedida, filtrada, resposta in *.
      destruct (deve_enviar (c_texto c) (c_confianca c)); cbn [negb] in *;
        [ | lia ].
      destruct (post (c_net c)); [ | lia ].
      destruct (status_2xx a); cbn [andb] in *; [ | lia ].
      destruct (corpo_de a); lia.
    + rewrite Hl, Hl1. cbn [filter].
      unfold Qsum.
      destruct (respondida c); cbn [List.map fold_right]; ring.
Qed.

(** When no 2xx response carries a refused body, the success and
    failure counters of a fresh orchestrator never exceed the attempt
    counter, and the difference is the number of filtered calls. *)
Lemma contadores_sem_corpo_recusado (cs : list chamada) (sid : str) :
  contar corpo_recusado cs = 0 ->
  let o := self (enviar_seq cs (novo sid)) in
  envios_sucesso o + envios_falha o <= total_envios o
  /\ total_envios o - (envios_sucesso o + envios_falha o)
     = contar filtrada cs.
Proof.
  intros H o.
  destruct (enviar_seq_contadores cs (novo sid)) as (Ht & _ & Hsf & _).
  fold o in Ht, Hsf. cbn in Ht, Hsf.
  assert (0 <= contar filtrada cs) by (unfold contar, len; lia).
  lia.
Qed.

(** C2, at a failing input.  A request answered with status 500 after
    100 ms followed by a request answered with status 200 after 50 ms:
    there is one success, whose latency is 50 ms, and the reported
    average latency is 150 ms, because the latency of the failed
    request was added to the running total as well. *)
Theorem latencia_media_conta_respostas_de_erro :
  let cs := [chamada_500; chamada_200] in
  let o := self (enviar_seq cs (novo (lit "s1"))) in
  envios_sucesso o = 1
  /\ envios_falha o = 1
  /\ List.map latencia (filter sucedida cs) = [latencia chamada_200]
  /\ (latencia chamada_200 == 50)%Q
  /\ (latencia_total_ms o == 150)%Q
  /\ (latencia_media_ms (obter_estatisticas o) == 150)%Q.
Proof. cbv zeta. repeat split. Qed.

(** C10, at a failing input.  One request that passes the filter and is
    answered with status 200 and the JSON string ["ok"]: the call is
    counted as a success and, when the outcome record refuses the
    body, as a failure too, so the two counters add up to 2 after a
    single attempt and no filtered call. *)
Theorem sucesso_e_falha_na_mesma_chamada :
  let o := self (chamar (novo (lit "s1")) chamada_200_texto) in
  filtrada chamada_200_texto = false
  /\ total_envios o = 1
  /\ envios_sucesso o = 1
  /\ envios_falha o = 1
  /\ total_envios o < envios_sucesso o + envios_falha o.
Proof. cbv zeta. repeat split. Qed.

End Contadores.

(** ** The engine's flush at teardown *)

Section Finalizacao.

Import MotorSTTVosk.

Variable K : KaldiRecognizer.

Lemma spec_finalizacao_recusada :
  Format.float_spec_ok ".2f if confianca else 'N/A'" = false.
Proof. reflexivity. Qed.

(** What [finalizar_sessao] does in every engine state: with an empty
    flushed text it returns [None]; with a non-empty one the info line
    cannot be formatted and the call raises, [ValueError] when the
    confidence is a number and [TypeError] when it is [None]. *)
Lemma finalizar_sessao_casos (m : t K) :
  let r := fst (FinalResult K (recognizer m)) in
  let m' := set_recognizer K (snd (FinalResult K (recognizer m))) m in
  let texto := strip (get_or (text r) []) in
  (texto = [] -> finalizar_sessao K m = (Ret None, m'))
  /\ (texto <> [] ->
        exists e, finalizar_sessao K m = (Raise e, m')
          /\ exn_class e = (match _calcular_confianca_media r with
                            | Some _ => ValueError
                            | None => TypeError
                            end)).
Proof.
  cbv zeta. unfold finalizar_sessao, bind, call, of_res, ret.
  destruct (FinalResult K (recognizer m)) as [r k]. cbn [fst snd].
  destruct (strip (get_or (text r) [])) as [ | c s ]; cbn [truthy].
  - split; [ reflexivity | congruence ].
  - split; [ congruence | intros _ ].
    destruct (_calcular_confianca_media r) as [ q | ].
    + unfold Format.format_. rewrite spec_finalizacao_recusada.
      eexists. split; reflexivity.
    + eexists. split; reflexivity.
Qed.

End Finalizacao.

(** ** The session handler *)

Section Sessao.

Import Esquema Gateway ReferenciaSessao.

Variable K : Motor.KaldiRecognizer.
Variable cfg : ConfiguracaoSTT.t.

Local Abbreviation I := (ConfiguracaoSTT.INTERVALO_EMISSAO_PARCIAL cfg).
Local Abbreviation canal := (canal K).
Local Abbreviation ultima := (ultima_emissao_parcial K).

Lemma no_motor_canal {A} (m : M (Motor.t K) A) (s : sessao K) :
  canal (snd (no_motor K m s)) = canal s
  /\ ultima (snd (no_motor K m s)) = ultima s
  /\ orquestrador K (snd (no_motor K m s)) = orquestrador K s.
Proof.
  unfold no_motor. destruct (motor_stt K s) as [ mo | ].
  - destruct (m mo) as [r mo']. repeat split.
  - repeat split.
Qed.

Lemma no_orquestrador_canal {A} (m : M Orq.mundo A) (s : sessao K) :
  canal (snd (no_orquestrador K m s)) = canal s
  /\ ultima (snd (no_orquestrador K m s)) = ultima s.
Proof.
  unfold no_orquestrador. destruct (orquestrador K s) as [ o | ].
  - destruct (m _) as [r w]. repeat split.
  - repeat split.
Qed.

Lemma enviar_canal (r : res unit) (m : Mensagem) (s : sessao K) :
  ultima (snd (enviar K r m s)) = ultima s
  /\ match fst (enviar K r m s) with
     | Ret _ => canal (snd (enviar K r m s)) = canal s ++ [m]
     | Raise _ => canal (snd (enviar K r m s)) = canal s
     end.
Proof. unfold enviar. destruct r; split; reflexivity. Qed.

Lemma iteracao_turno (id : str) (q : quadro) (s : sessao K) :
  turno cfg id q s (snd (iteracao K cfg id q s)).
Proof.
  unfold iteracao, bind, of_res, ret, get, modify.
  destruct (receive_bytes q) as [ audio | e ]; cbn [fst snd];
    [ | now apply turno_nada ].
  destruct (truthy audio); cbn [negb]; [ | now apply turno_nada ].
  pose proof (no_motor_canal (Motor.processar_audio K audio) s) as (Hc & Hu & _).
  destruct (no_motor K (Motor.processar_audio K audio) s)
    as [[ [[is_final texto] confianca] | e ] s1]; cbn [fst snd] in *;
    [ | now apply turno_nada ].
  destruct is_final, (truthy texto); cbn [andb negb];
    try (now apply turno_nada).
  - (* final *)
    pose proof (no_orquestrador_canal
                  (Orq.enviar_para_glossa (http q) texto confianca) s1)
      as (Hc2 & Hu2).
    destruct (no_orquestrador K _ s1) as [[ d | e ] s2]; cbn [fst snd] in *;
      [ | apply turno_nada; congruence ].
    unfold nova_final. destruct (confianca_valida confianca);
      [ | apply turno_nada; cbn; congruence ].
    pose proof (enviar_canal (send_json q)
                  (MensagemTranscricaoFinal id texto confianca (Some d)) s2)
      as (Hu3 & Hc3).
    destruct (enviar K (send_json q) _ s2) as [[ u | e ] s3];
      cbn [fst snd] in *.
    + eapply turno_final; [ rewrite Hc3, Hc2, Hc; reflexivity | congruence ].
    + apply turno_nada; congruence.
  - (* partial *)
    destruct (Qge_bool (agora q - ultima s1) I) eqn:Hthr;
      [ | apply turno_nada; cbn; congruence ].
    apply Qge_bool_iff in Hthr.
    unfold nova_parcial. destruct (confianca_valida confianca);
      [ | apply turno_nada; cbn; congruence ].
    pose proof (enviar_canal (send_json q)
                  (MensagemTranscricaoParcial id texto confianca) s1)
      as (Hu3 & Hc3).
    destruct (enviar K (send_json q) _ s1) as [[ u | e ] s3];
      cbn [fst snd] in *.
    + eapply turno_parcial; cbn.
      * rewrite Hc3, Hc. reflexivity.
      * rewrite <- Hu. exact Hthr.
      * reflexivity.
    + apply turno_nada; congruence.
Qed.

Lemma entregues_app (s s' : sessao K) (l : list Mensagem) :
  canal s' = canal s ++ l -> entregues s s' = l.
Proof.
  unfold entregues. intros ->.
  induction (canal s) as [ | m c IH ]; [ reflexivity | exact IH ].
Qed.

Lemma entregues_nada (s s' : sessao K) :
  canal s' = canal s -> entregues s s' = [].
Proof. intro H. apply entregues_app. rewrite app_nil_r. exact H. Qed.

(** The loop only ever delivers partial and final messages, and it
    always ends by an exception. *)
Lemma laco_canal (id : str) (qs : list quadro) (s : sessao K) :
  exists novos e,
    canal (snd (laco K cfg id qs s)) = canal s ++ novos
    /\ Forall (fun m => tipo m = TRANSCRICAO_PARCIAL
                        \/ tipo m = TRANSCRICAO_FINAL) novos
    /\ fst (laco K cfg id qs s) = Raise e.
Proof.
  revert s. induction qs as [ | q qs IH ]; intro s.
  - exists [], (MkExn WebSocketDisconnect []). cbn.
    rewrite app_nil_r. repeat split. constructor.
  - cbn [laco]. unfold bind.
    pose proof (iteracao_turno id q s) as Ht.
    destruct (iteracao K cfg id q s) as [[ u | e ] s1]; cbn [fst snd] in *.
    + destruct (IH s1) as (novos & e & Hc & Hf & Hr).
      destruct Ht as [ Hc1 _ | t c d Hc1 _ | t c Hc1 _ _ ].
      * exists novos, e. rewrite Hc, Hc1. repeat split; assumption.
      * exists (MensagemTranscricaoFinal id t c d :: novos), e.
        rewrite Hc, Hc1, <- app_assoc. repeat split; try assumption.
        constructor; [ right; reflexivity | assumption ].
      * exists (MensagemTranscricaoParcial id t c :: novos), e.
        rewrite Hc, Hc1, <- app_assoc. repeat split; try assumption.
        constructor; [ left; reflexivity | assumption ].
    + destruct Ht as [ Hc1 _ | t c d Hc1 _ | t c Hc1 _ _ ].
      * exists [], e. rewrite app_nil_r. repeat split; auto.
      * exists [MensagemTranscricaoFinal id t c d], e.
        repeat split; auto.
      * exists [MensagemTranscricaoParcial id t c], e.
        repeat split; auto.
Qed.

(** Successive partial emissions are at least the interval apart. *)
Lemma instantes_espacados (id : str) (qs : list quadro) (s : sessao K) :
  espacados I (ultima s) (instantes_parciais cfg id qs s).
Proof.
  revert s. induction qs as [ | q qs IH ]; intro s; [ exact Logic.I | ].
  cbn [instantes_parciais].
  pose proof (iteracao_turno id q s) as Ht.
  destruct (iteracao K cfg id q s) as [r s1]; cbn [snd] in Ht.
  assert (Hresto : forall u, ultima s1 = u ->
            espacados I u (match r with
                           | Ret _ => instantes_parciais cfg id qs s1
                           | Raise _ => []
                           end)).
  { intros u <-. destruct r; [ apply IH | exact Logic.I ]. }
  destruct Ht as [ Hc Hu | t c d Hc Hu | t c Hc Hthr Hu ].
  - rewrite (entregues_nada _ _ Hc). cbn [existsb]. now apply Hresto.
  - rewrite (entregues_app _ _ _ Hc). cbn. now apply Hresto.
  - rewrite (entregues_app _ _ _ Hc). cbn.
    split; [ exact Hthr | now apply Hresto ].
Qed.

Lemma espacados_depois (i u : Q) (ts : list Q) :
  (0 <= i)%Q -> espacados i u ts -> Forall (fun t => (u + i <= t)%Q) ts.
Proof.
  intro Hi. revert u. induction ts as [ | t ts IH ]; intros u H.
  - constructor.
  - destruct H as [Ht Hts]. constructor; [ lra | ].
    eapply Forall_impl; [ | apply (IH t Hts) ].
    cbn. intros a Ha. lra.
Qed.

(** At most one of the spaced instants falls in a window as long as
    the interval. *)
Lemma espacados_janela (i u w : Q) (ts : list Q) :
  espacados i u ts ->
  (List.length (filter (na_janela w i) ts) <= 1)%nat.
Proof.
  revert u. induction ts as [ | t ts IH ]; intros u H; [ cbn; lia | ].
  destruct H as [Ht Hts]. cbn [filter].
  destruct (na_janela w i t) eqn:E; [ | exact (IH t Hts) ].
  unfold na_janela in E. apply andb_true_iff in E as [E1 E2].
  apply Qle_bool_iff in E1. apply Qlt_bool_iff in E2.
  assert (Hi : (0 <= i)%Q) by lra.
  pose proof (espacados_depois i t ts Hi Hts) as Hall.
  assert (Hnone : filter (na_janela w i) ts = []).
  { clear -Hall E1. induction Hall as [ | a l Ha _ IHl ]; [ reflexivity | ].
    cbn [filter]. unfold na_janela at 1.
    destruct (Qlt_bool a (w + i)) eqn:Ea.
    - apply Qlt_bool_iff in Ea. lra.
    - rewrite andb_false_r. exact IHl. }
  rewrite Hnone. cbn. lia.
Qed.

Lemma try_finally_snd {S A} (b : M S A) (f : M S unit) (s : S) :
  snd (try_finally b f s) = snd (f (snd (b s))).
Proof.
  unfold try_finally. destruct (b s) as [r s1]. cbn [snd].
  destruct (f s1) as [[ u | e ] s2]; reflexivity.
Qed.

(** The [finally] block delivers nothing to the client. *)
Lemma finalizacao_canal (amb : ambiente K) (s : sessao K) :
  canal (snd (finalizacao K amb s)) = canal s.
Proof.
  unfold finalizacao, bind, get, ret. cbn [fst snd].
  destruct (truthy_opt (motor_stt K s)); [ | reflexivity ].
  pose proof (no_motor_canal (Motor.finalizar_sessao K) s) as (Hc & _ & _).
  destruct (no_motor K (Motor.finalizar_sessao K) s)
    as [[ [ [texto confianca] | ] | e ] s1]; cbn [fst snd] in *;
    try exact Hc.
  destruct (truthy_opt (orquestrador K s1)); cbn [fst snd]; [ | exact Hc ].
  pose proof (no_orquestrador_canal
                (Orq.enviar_para_glossa (http_final K amb) texto confianca)
                s1) as (Hc2 & _).
  destruct (no_orquestrador K _ s1) as [[ d | e ] s2]; cbn [fst snd] in *;
    congruence.
Qed.

(** The [except] clauses deliver nothing, or the one error message. *)
Lemma tratadores_canal (amb : ambiente K) (e : exn) (s : sessao K) :
  let r :=
    match select [(WebSocketDisconnect, fun _ => ret tt);
                  (Exception, tratar_erro K amb)] e with
    | Some h => h s
    | None => (Raise e, s)
    end in
  canal (snd r) = canal s
  \/ canal (snd r)
     = canal s ++ [MensagemErro (Some (uuid4 K amb))
                     (lit "PROCESSING_ERROR") (exn_str e)].
Proof.
  cbn [select].
  destruct (issubclass (exn_class e) WebSocketDisconnect);
    [ left; reflexivity | ].
  cbn [issubclass].
  unfold tratar_erro, try_except, bind, of_res, novo_erro, enviar, ret.
  destruct (send_erro K amb) as [ u | e' ]; cbn.
  - right. reflexivity.
  - left. reflexivity.
Qed.

(** The [try] block always ends by an exception.  Either the engine
    was built and the first message went out, and then the channel
    holds [session_started] followed by partial and final messages
    only; or one of the two failed, and the channel is empty. *)
Lemma corpo_casos (amb : ambiente K) :
  exists e s',
    corpo K cfg amb (inicial K) = (Raise e, s')
    /\ match criar_motor K amb, send_inicio K amb with
       | Ret _, Ret _ =>
           exists novos,
             canal s' = MensagemSessaoIniciada (uuid4 K amb) (lit "pt-br")
                          16000 1 ConfiguracaoSTT.VERSAO_SERVICO :: novos
             /\ Forall (fun m => tipo m = TRANSCRICAO_PARCIAL
                                 \/ tipo m = TRANSCRICAO_FINAL) novos
       | _, _ => canal s' = []
       end.
Proof.
  unfold corpo, bind, of_res, modify, nova_sessao_iniciada, enviar.
  destruct (criar_motor K amb) as [ r | e ]; cbn [fst snd].
  - destruct (send_inicio K amb) as [ u | e ]; cbn [fst snd].
    + match goal with
      | |- context [laco K cfg ?id ?qs ?s0] =>
          destruct (laco_canal id qs s0) as (novos & e & Hc & Hf & Hr);
          destruct (laco K cfg id qs s0) as [r' s'] eqn:El
      end.
      cbn [fst snd] in *. subst r'.
      exists e, s'. split; [ reflexivity | ].
      exists novos. split; [ exact Hc | exact Hf ].
    + eexists _, _. split; reflexivity.
  - eexists _, _. split; reflexivity.
Qed.

Lemma sem_inicio (l : list Mensagem) :
  Forall (fun m => tipo m <> SESSAO_INICIADA) l -> filter e_inicio l = [].
Proof.
  induction 1 as [ | m l Hm _ IH ]; [ reflexivity | ].
  cbn [filter]. unfold e_inicio at 1.
  destruct (tipo m); try exact IH. congruence.
Qed.

(** C8, as the handler has it.  When the engine is built and the first
    send succeeds, [session_started] is the first message of the
    session and no other message of the session has that type.  When
    building the engine or that first send fails, no [session_started]
    is sent and the session's only message, if any, is the error
    message.  In every run there is at most one [session_started], and
    no partial or final message comes before it: a session that does
    not start with [session_started] consists of at most one error
    message. *)
Theorem sessao_iniciada_no_maximo_uma_vez (amb : ambiente K) :
  let ms := mensagens K cfg amb in
  let inicio :=
    MensagemSessaoIniciada (uuid4 K amb) (lit "pt-br") 16000 1
      ConfiguracaoSTT.VERSAO_SERVICO in
  (forall r u,
     criar_motor K amb = Ret r -> send_inicio K amb = Ret u ->
     exists resto,
       ms = inicio :: resto
       /\ Forall (fun m => tipo m <> SESSAO_INICIADA) resto)
  /\ ((exists e, criar_motor K amb = Raise e)
      \/ (exists e, send_inicio K amb = Raise e) ->
      ms = []
      \/ exists msg,
           ms = [MensagemErro (Some (uuid4 K amb))
                   (lit "PROCESSING_ERROR") msg])
  /\ (List.length (filter e_inicio ms) <= 1)%nat
  /\ (forall m resto,
        ms = m :: resto ->
        m = inicio \/ (tipo m = ERRO /\ resto = [])).
Proof.
  cbv zeta.
  assert (Hms :
    (exists resto,
       (exists r u, criar_motor K amb = Ret r /\ send_inicio K amb = Ret u)
       /\ mensagens K cfg amb
          = MensagemSessaoIniciada (uuid4 K amb) (lit "pt-br") 16000 1
              ConfiguracaoSTT.VERSAO_SERVICO :: resto
       /\ Forall (fun m => tipo m <> SESSAO_INICIADA) resto)
    \/ (((exists e, criar_motor K amb = Raise e)
         \/ (exists e, send_inicio K amb = Raise e))
        /\ (mensagens K cfg amb = []
            \/ exists msg,
                 mensagens K cfg amb
                 = [MensagemErro (Some (uuid4 K amb))
                      (lit "PROCESSING_ERROR") msg]))).
  { unfold mensagens, websocket_stt.
    rewrite try_finally_snd, finalizacao_canal.
    unfold try_except.
    destruct (corpo_casos amb) as (e & s' & Hcorpo & Hcasos).
    rewrite Hcorpo.
    pose proof (tratadores_canal amb e s') as Htr. cbv zeta in Htr.
    destruct (select _ e) as [ h | ].
    - destruct (criar_motor K amb) as [ r | e1 ] eqn:Ecm.
      + destruct (send_inicio K amb) as [ u | e2 ] eqn:Esi.
        * left. destruct Hcasos as (novos & Hc & Hf).
          assert (Hnovos : Forall (fun m => tipo m <> SESSAO_INICIADA) novos).
          { eapply Forall_impl; [ | exact Hf ].
            cbn. intros m [ -> | -> ]; discriminate. }
          destruct Htr as [ Htr | Htr ]; rewrite Htr, Hc.
          -- exists novos. repeat split; try assumption.
             now exists r, u.
          -- eexists.
             split; [ now exists r, u | ].
             split; [ cbn [app]; reflexivity | ].
             apply Forall_app. split; [ exact Hnovos | ].
             constructor; [ discriminate | constructor ].
        * right. split; [ right; now exists e2 | ].
          destruct Htr as [ Htr | Htr ]; rewrite Htr, Hcasos;
            [ left; reflexivity | right; eexists; reflexivity ].
      + right. split; [ left; now exists e1 | ].
        destruct Htr as [ Htr | Htr ]; rewrite Htr, Hcasos;
          [ left; reflexivity | right; eexists; reflexivity ].
    - cbn [snd] in *.
      destruct (criar_motor K amb) as [ r | e1 ] eqn:Ecm.
      + destruct (send_inicio K amb) as [ u | e2 ] eqn:Esi.
        * left. destruct Hcasos as (novos & Hc & Hf).
          exists novos. rewrite Hc.
          repeat split; [ now exists r, u | ].
          eapply Forall_impl; [ | exact Hf ].
          cbn. intros m [ -> | -> ]; discriminate.
        * right. split; [ right; now exists e2 | left; exact Hcasos ].
      + right. split; [ left; now exists e1 | left; exact Hcasos ]. }
  split; [ | split; [ | split ] ].
  - intros r u Hr Hu.
    destruct Hms as [ (resto & _ & Hm & Hf)
                    | ([ (e & He) | (e & He) ] & _) ]; try congruence.
    now exists resto.
  - intros Hfalha.
    destruct Hms as [ (resto & (r & u & Hr & Hu) & _) | (_ & Hm) ];
      [ | exact Hm ].
    destruct Hfalha as [ (e & He) | (e & He) ]; congruence.
  - destruct Hms as [ (resto & _ & -> & Hf)
                    | (_ & [ -> | (msg & ->) ]) ].
    + cbn [filter e_inicio tipo]. rewrite (sem_inicio _ Hf). cbn. lia.
    + cbn. lia.
    + cbn. lia.
  - intros m resto' Hm.
    destruct Hms as [ (resto & _ & Heq & Hf)
                    | (_ & [ Heq | (msg & Heq) ]) ];
      rewrite Heq in Hm; inversion Hm; subst.
    + left. reflexivity.
    + right. split; reflexivity.
Qed.

(** The loop over [qs1 ++ qs2] continues from the state reached after
    [qs1]. *)
Lemma laco_percorre (id : str) (qs1 qs2 : list quadro) (s s1 : sessao K) :
  percorre cfg id qs1 s s1 ->
  laco K cfg id (qs1 ++ qs2) s = laco K cfg id qs2 s1.
Proof.
  induction 1 as [ s | q qs s s1 s2 Hq _ IH ]; [ reflexivity | ].
  cbn [app laco]. unfold bind. rewrite Hq. exact IH.
Qed.

Lemma entregues_mesmo (s : sessao K) : entregues s s = [].
Proof. unfold entregues. apply skipn_all. Qed.

Lemma iteracao_entrega (id : str) (q : quadro) (s : sessao K) :
  exists d,
    canal (snd (iteracao K cfg id q s)) = canal s ++ d
    /\ (d = [] \/ (exists m, d = [m] /\ tipo m = TRANSCRICAO_FINAL)
        \/ (exists m, d = [m] /\ tipo m = TRANSCRICAO_PARCIAL)).
Proof.
  destruct (iteracao_turno id q s) as [ Hc _ | t c d Hc _ | t c Hc _ _ ].
  - exists []. rewrite app_nil_r. split; [ exact Hc | left; reflexivity ].
  - eexists. split; [ exact Hc | right; left; eexists; split; reflexivity ].
  - eexists. split; [ exact Hc | right; right; eexists; split; reflexivity ].
Qed.

Lemma n_parciais_laco_nil (id : str) (s : sessao K) :
  n_parciais_laco cfg id [] s = 0%nat.
Proof. unfold n_parciais_laco. cbn. rewrite entregues_mesmo. reflexivity. Qed.

(** The partial messages of the loop are those of its first turn and,
    when that turn returns, those of the rest of the loop. *)
Lemma n_parciais_laco_cons (id : str) (q : quadro) (l : list quadro)
    (s : sessao K) :
  n_parciais_laco cfg id (q :: l) s
  = (List.length
       (filter e_parcial (entregues s (snd (iteracao K cfg id q s))))
     + match fst (iteracao K cfg id q s) with
       | Ret _ => n_parciais_laco cfg id l (snd (iteracao K cfg id q s))
       | Raise _ => 0
       end)%nat.
Proof.
  unfold n_parciais_laco. cbn [laco]. unfold bind.
  destruct (iteracao_entrega id q s) as (d & Hd & _).
  destruct (iteracao K cfg id q s) as [[ u | e ] s1]; cbn [fst snd] in *.
  - destruct (laco_canal id l s1) as (novos & e & Hc & _ & _).
    rewrite (entregues_app s s1 d Hd).
    rewrite (entregues_app s1 _ novos Hc).
    rewrite (entregues_app s _ (d ++ novos))
      by (rewrite Hc, Hd, app_assoc; reflexivity).
    rewrite filter_app, length_app. reflexivity.
  - lia.
Qed.

Lemma existsb_filter {A} (f : A -> bool) (l : list A) :
  (0 <? List.length (filter f l))%nat = existsb f l.
Proof.
  induction l as [ | x l IH ]; [ reflexivity | ].
  cbn [filter existsb]. destruct (f x); [ reflexivity | exact IH ].
Qed.

Lemma filter_map_troca {A B} (f : B -> bool) (g : A -> B) (l : list A) :
  filter f (List.map g l) = List.map g (filter (fun x => f (g x)) l).
Proof.
  induction l as [ | x l IH ]; [ reflexivity | ].
  cbn [List.map filter]. destruct (f (g x)); cbn [List.map]; rewrite IH;
    reflexivity.
Qed.

Lemma filter_nenhum {A} (l : list A) : filter (fun _ => false) l = [].
Proof. induction l as [ | x l IH ]; [ reflexivity | exact IH ]. Qed.

Lemma turnos_prefixo (p a l : list quadro) :
  turnos (p ++ a) l = List.map (fun t => (p ++ fst t, snd t)) (turnos a l).
Proof.
  revert a. induction l as [ | q l IH ]; intro a; [ reflexivity | ].
  cbn [turnos List.map fst snd]. f_equal.
  rewrite <- app_assoc. apply IH.
Qed.

(** Every partial message of the loop is delivered in one of its
    turns. *)
Lemma n_parciais_laco_instantes (id : str) (qs : list quadro) (s : sessao K) :
  n_parciais_laco cfg id qs s
  = List.length (instantes_parciais cfg id qs s).
Proof.
  revert s. induction qs as [ | q qs IH ]; intro s.
  - apply n_parciais_laco_nil.
  - rewrite n_parciais_laco_cons. cbn [instantes_parciais].
    destruct (iteracao_entrega id q s) as (d & Hd & Hcasos).
    destruct (iteracao K cfg id q s) as [r s1]; cbn [fst snd] in *.
    rewrite (entregues_app s s1 d Hd).
    assert (Hr : match r with
                 | Ret _ => n_parciais_laco cfg id qs s1
                 | Raise _ => 0%nat
                 end
                 = List.length (match r with
                                | Ret _ => instantes_parciais cfg id qs s1
                                | Raise _ => []
                                end))
      by (destruct r; [ apply IH | reflexivity ]).
    rewrite Hr.
    destruct Hcasos as [ -> | [ (m & -> & Hm) | (m & -> & Hm) ] ];
      cbn [filter existsb]; unfold e_parcial; rewrite ?Hm; reflexivity.
Qed.

Lemma ltb_soma (a x y : nat) : (a + x <? a + y)%nat = (x <? y)%nat.
Proof.
  destruct (Nat.ltb_spec x y); [ apply Nat.ltb_lt | apply Nat.ltb_ge ]; lia.
Qed.

(** Whether a later turn delivers a partial message is decided by the
    loop that starts after the first turn. *)
Lemma n_parciais_laco_depois (id : str) (q : quadro) (s : sessao K)
    (t : list quadro * quadro) :
  (n_parciais_laco cfg id (q :: fst t) s
   <? n_parciais_laco cfg id (q :: fst t ++ [snd t]) s)%nat
  = match fst (iteracao K cfg id q s) with
    | Ret _ =>
        (n_parciais_laco cfg id (fst t) (snd (iteracao K cfg id q s))
         <? n_parciais_laco cfg id (fst t ++ [snd t])
              (snd (iteracao K cfg id q s)))%nat
    | Raise _ => false
    end.
Proof.
  rewrite !n_parciais_laco_cons.
  destruct (fst (iteracao K cfg id q s));
    [ apply ltb_soma | apply Nat.ltb_irrefl ].
Qed.

(** The turns of the loop that deliver a partial message, seen from
    the number of messages delivered, are those of
    [instantes_parciais]. *)
Lemma instantes_turnos (id : str) (qs : list quadro) (s : sessao K) :
  List.map (fun t => agora (snd t))
    (filter (fun t => (n_parciais_laco cfg id (fst t) s
                       <? n_parciais_laco cfg id (fst t ++ [snd t]) s)%nat)
       (turnos [] qs))
  = instantes_parciais cfg id qs s.
Proof.
  revert s. induction qs as [ | q qs IH ]; intro s; [ reflexivity | ].
  cbn [turnos app].
  change [q] with ([q] ++ []) at 1. rewrite turnos_prefixo.
  cbn [filter fst snd app].
  assert (Hresto :
    List.map (fun t => agora (snd t))
      (filter (fun t => (n_parciais_laco cfg id (fst t) s
                         <? n_parciais_laco cfg id (fst t ++ [snd t]) s)%nat)
         (List.map (fun t => (q :: fst t, snd t)) (turnos [] qs)))
    = match fst (iteracao K cfg id q s) with
      | Ret _ => instantes_parciais cfg id qs (snd (iteracao K cfg id q s))
      | Raise _ => []
      end).
  { rewrite filter_map_troca, map_map. cbn [fst snd].
    rewrite (filter_ext _ _ (n_parciais_laco_depois id q s)).
    destruct (fst (iteracao K cfg id q s)).
    - apply IH.
    - rewrite filter_nenhum. reflexivity. }
  assert (Hcab :
    (n_parciais_laco cfg id [] s <? n_parciais_laco cfg id [q] s)%nat
    = existsb e_parcial (entregues s (snd (iteracao K cfg id q s)))).
  { rewrite n_parciais_laco_nil, n_parciais_laco_cons.
    destruct (fst (iteracao K cfg id q s));
      rewrite ?n_parciais_laco_nil, Nat.add_0_r; apply existsb_filter. }
  rewrite Hcab. cbn [instantes_parciais].
  destruct (iteracao K cfg id q s) as [r s1]; cbn [fst snd] in *.
  destruct (existsb e_parcial (entregues s s1)); cbn [List.map snd];
    rewrite Hresto; reflexivity.
Qed.

(** When the engine is built and the first message goes out, the
    [try] block is the loop from [no_inicio_do_laco]. *)
Lemma corpo_laco (amb : ambiente K) (r : Motor.rec_state K) (u : unit) :
  criar_motor K amb = Ret r -> send_inicio K amb = Ret u ->
  corpo K cfg amb (inicial K)
  = laco K cfg (uuid4 K amb) (quadros K amb) (no_inicio_do_laco cfg amb r).
Proof.
  intros Hr Hu.
  unfold corpo, bind, of_res, modify, nova_sessao_iniciada, enviar.
  rewrite Hr, Hu. reflexivity.
Qed.

Lemma sem_parciais (l : list Mensagem) :
  Forall (fun m => tipo m <> TRANSCRICAO_PARCIAL) l -> filter e_parcial l = [].
Proof.
  induction 1 as [ | m l Hm _ IH ]; [ reflexivity | ].
  cbn [filter]. unfold e_parcial at 1.
  destruct (tipo m); try exact IH. congruence.
Qed.

(** The partial messages of a session are those of its loop. *)
Lemma parciais_da_sessao (amb : ambiente K) :
  filter e_parcial (mensagens K cfg amb)
  = match criar_motor K amb, send_inicio K amb with
    | Ret r, Ret _ =>
        filter e_parcial
          (entregues (no_inicio_do_laco cfg amb r)
             (snd (laco K cfg (uuid4 K amb) (quadros K amb)
                     (no_inicio_do_laco cfg amb r))))
    | _, _ => []
    end.
Proof.
  unfold mensagens, websocket_stt.
  rewrite try_finally_snd, finalizacao_canal.
  unfold try_except.
  destruct (corpo_casos amb) as (e & s' & Hcorpo & Hcasos).
  pose proof (tratadores_canal amb e s') as Htr. cbv zeta in Htr.
  assert (Herro : forall msg,
            filter e_parcial
              [MensagemErro (Some (uuid4 K amb)) (lit "PROCESSING_ERROR") msg]
            = []) by reflexivity.
  destruct (criar_motor K amb) as [ r | e1 ] eqn:Ecm;
    [ destruct (send_inicio K amb) as [ u | e2 ] eqn:Esi | ].
  - rewrite (corpo_laco amb r u Ecm Esi) in *.
    destruct (laco_canal (uuid4 K amb) (quadros K amb)
                (no_inicio_do_laco cfg amb r))
      as (novos & e' & Hc & _ & _).
    rewrite Hcorpo in *. cbn [snd] in *.
    rewrite (entregues_app _ _ _ Hc).
    assert (H0 : filter e_parcial (canal (no_inicio_do_laco cfg amb r)) = [])
      by reflexivity.
    destruct (select _ e) as [ h | ]; cbn [snd] in *.
    + destruct Htr as [ Htr | Htr ]; rewrite Htr, Hc;
        rewrite ?filter_app, ?Herro, H0, ?app_nil_r; reflexivity.
    + rewrite Hc, filter_app, H0. reflexivity.
  - rewrite Hcorpo.
    destruct (select _ e) as [ h | ]; cbn [snd] in *.
    + destruct Htr as [ Htr | Htr ]; rewrite Htr, Hcasos; reflexivity.
    + rewrite Hcasos. reflexivity.
  - rewrite Hcorpo.
    destruct (select _ e) as [ h | ]; cbn [snd] in *.
    + destruct Htr as [ Htr | Htr ]; rewrite Htr, Hcasos; reflexivity.
    + rewrite Hcasos. reflexivity.
Qed.

(** The instants read off the messages of a session are those of the
    turns of its loop. *)
Lemma instantes_da_sessao (amb : ambiente K) :
  instantes_sessao cfg amb
  = match criar_motor K amb, send_inicio K amb with
    | Ret r, Ret _ =>
        instantes_parciais cfg (uuid4 K amb) (quadros K amb)
          (no_inicio_do_laco cfg amb r)
    | _, _ => []
    end.
Proof.
  unfold instantes_sessao.
  assert (Hn : forall l,
            n_parciais cfg (com_quadros l amb)
            = match criar_motor K amb, send_inicio K amb with
              | Ret r, Ret _ =>
                  n_parciais_laco cfg (uuid4 K amb) l
                    (no_inicio_do_laco cfg amb r)
              | _, _ => 0%nat
              end).
  { intro l. unfold n_parciais. rewrite parciais_da_sessao.
    cbn [com_quadros criar_motor send_inicio quadros uuid4].
    destruct (criar_motor K amb); [ destruct (send_inicio K amb) | ];
      reflexivity. }
  rewrite (filter_ext _
             (fun t =>
                match criar_motor K amb, send_inicio K amb with
                | Ret r, Ret _ =>
                    (n_parciais_laco cfg (uuid4 K amb) (fst t)
                       (no_inicio_do_laco cfg amb r)
                     <? n_parciais_laco cfg (uuid4 K amb) (fst t ++ [snd t])
                          (no_inicio_do_laco cfg amb r))%nat
                | _, _ => false
                end)).
  - destruct (criar_motor K amb) as [ r | e1 ];
      [ destruct (send_inicio K amb) as [ u | e2 ] | ].
    + apply instantes_turnos.
    + rewrite filter_nenhum. reflexivity.
    + rewrite filter_nenhum. reflexivity.
  - intro t. unfold entregou_parcial. rewrite !Hn.
    destruct (criar_motor K amb); [ destruct (send_inicio K amb) | ];
      reflexivity.
Qed.

(** C9.  In every session the turns that deliver a partial message
    read the clock at least the configured interval apart (the first
    one at least the interval after 0, the initial value of
    [ultima_emissao_parcial]), so at most one partial message is
    delivered in any window as long as the interval; and every partial
    message of the session is delivered in one of these turns.  In the
    loop, after any frames gone through without an exception: a frame
    whose result is a final with valid confidence has its final message
    delivered whatever the clock reading and the time of the last
    partial emission; a frame whose result is a partial with text has
    its partial message delivered when the clock reading is at least
    the interval after the last partial emission, and delivers nothing,
    leaving that time as it was, when it is not. *)
Theorem parciais_limitadas_pelo_intervalo (amb : ambiente K) :
  espacados I 0 (instantes_sessao cfg amb)
  /\ (forall w,
        (List.length (filter (na_janela w I) (instantes_sessao cfg amb))
         <= 1)%nat)
  /\ n_parciais cfg amb = List.length (instantes_sessao cfg amb)
  /\ (forall id qs1 q qs2 s s1 audio mo mo' o texto confianca,
        percorre cfg id qs1 s s1 ->
        receive_bytes q = Ret audio -> audio <> [] ->
        send_json q = Ret tt ->
        motor_stt K s1 = Some mo -> orquestrador K s1 = Some o ->
        Motor.processar_audio K audio mo
          = (Ret (true, texto, confianca), mo') ->
        texto <> [] ->
        confianca_valida confianca = true ->
        exists d resto,
          canal (snd (laco K cfg id (qs1 ++ q :: qs2) s))
          = canal s1
            ++ MensagemTranscricaoFinal id texto confianca (Some d) :: resto)
  /\ (forall id qs1 q qs2 s s1 audio mo mo' texto confianca,
        percorre cfg id qs1 s s1 ->
        receive_bytes q = Ret audio -> audio <> [] ->
        send_json q = Ret tt ->
        motor_stt K s1 = Some mo ->
        Motor.processar_audio K audio mo
          = (Ret (false, texto, confianca), mo') ->
        texto <> [] ->
        confianca_valida confianca = true ->
        ((I <= agora q - ultima s1)%Q ->
           exists resto,
             canal (snd (laco K cfg id (qs1 ++ q :: qs2) s))
             = canal s1
               ++ MensagemTranscricaoParcial id texto confianca :: resto)
        /\ ((agora q - ultima s1 < I)%Q ->
              canal (snd (laco K cfg id (qs1 ++ [q]) s)) = canal s1
              /\ ultima (snd (laco K cfg id (qs1 ++ [q]) s)) = ultima s1)).
Proof.
  assert (Hesp : espacados I 0 (instantes_sessao cfg amb)).
  { rewrite instantes_da_sessao.
    destruct (criar_motor K amb) as [ r | e1 ];
      [ destruct (send_inicio K amb) as [ u | e2 ] | ];
      try exact Logic.I.
    apply (instantes_espacados (uuid4 K amb) (quadros K amb)
             (no_inicio_do_laco cfg amb r)). }
  split; [ exact Hesp | ].
  split; [ intro w; eapply espacados_janela; exact Hesp | ].
  split.
  { unfold n_parciais. rewrite parciais_da_sessao, instantes_da_sessao.
    destruct (criar_motor K amb) as [ r | e1 ];
      [ destruct (send_inicio K amb) as [ u | e2 ] | ];
      try reflexivity.
    apply n_parciais_laco_instantes. }
  split.
  - intros id qs1 q qs2 s s1 audio mo mo' o texto confianca
      Hper Hrb Ha Hsj Hmo Ho Hp Ht Hv.
    rewrite (laco_percorre id qs1 (q :: qs2) s s1 Hper).
    destruct s1 as [ms os u c rd]. cbn in Hmo, Ho. subst ms os.
    destruct (enviar_para_glossa_retorna (http q) texto confianca
                (Orq.MkMundo o rd)) as (d & w' & Hd).
    cbn [laco]. unfold bind at 1.
    assert (Hit : exists s2,
              iteracao K cfg id q (MkSessao K (Some mo) (Some o) u c rd)
              = (Ret tt, s2)
              /\ canal s2
                 = c ++ [MensagemTranscricaoFinal id texto confianca
                           (Some d)]).
    { unfold iteracao, bind, of_res, ret, no_motor, no_orquestrador.
      rewrite Hrb.
      destruct audio as [ | b audio ]; [ congruence | ].
      destruct texto as [ | x texto ]; [ congruence | ].
      cbn -[Motor.processar_audio Orq.enviar_para_glossa].
      rewrite Hp.
      cbn -[Motor.processar_audio Orq.enviar_para_glossa].
      rewrite Hd. unfold nova_final, enviar. rewrite Hv, Hsj.
      eexists. split; reflexivity. }
    destruct Hit as (s2 & Hit & Hc2). rewrite Hit.
    destruct (laco_canal id qs2 s2) as (novos & e & Hc & _ & _).
    exists d, novos. rewrite Hc, Hc2, <- app_assoc. reflexivity.
  - intros id qs1 q qs2 s s1 audio mo mo' texto confianca
      Hper Hrb Ha Hsj Hmo Hp Ht Hv.
    destruct s1 as [ms os u c rd]. cbn in Hmo. subst ms.
    split.
    + intro Hthr.
      rewrite (laco_percorre id qs1 (q :: qs2) s _ Hper).
      cbn [laco]. unfold bind at 1.
      assert (Hit : exists s2,
                iteracao K cfg id q (MkSessao K (Some mo) os u c rd)
                = (Ret tt, s2)
                /\ canal s2
                   = c ++ [MensagemTranscricaoParcial id texto confianca]).
      { unfold iteracao, bind, of_res, ret, get, modify, no_motor.
        rewrite Hrb.
        destruct audio as [ | b audio ]; [ congruence | ].
        destruct texto as [ | x texto ]; [ congruence | ].
        cbn -[Motor.processar_audio].
        rewrite Hp.
        cbn -[Motor.processar_audio Qge_bool].
        cbn in Hthr. apply Qge_bool_iff in Hthr. rewrite Hthr.
        unfold nova_parcial, enviar. rewrite Hv, Hsj.
        eexists. split; reflexivity. }
      destruct Hit as (s2 & Hit & Hc2). rewrite Hit.
      destruct (laco_canal id qs2 s2) as (novos & e & Hc & _ & _).
      exists novos. rewrite Hc, Hc2, <- app_assoc. reflexivity.
    + intro Hthr.
      rewrite (laco_percorre id qs1 [q] s _ Hper).
      cbn [laco]. unfold bind.
      assert (Hit : exists s2,
                iteracao K cfg id q (MkSessao K (Some mo) os u c rd)
                = (Ret tt, s2)
                /\ canal s2 = c /\ ultima s2 = u).
      { unfold iteracao, bind, of_res, ret, get, modify, no_motor.
        rewrite Hrb.
        destruct audio as [ | b audio ]; [ congruence | ].
        destruct texto as [ | x texto ]; [ congruence | ].
        cbn -[Motor.processar_audio].
        rewrite Hp.
        cbn -[Motor.processar_audio Qge_bool].
        assert (Hf : Qge_bool (agora q - u) I = false).
        { destruct (Qge_bool (agora q - u) I) eqn:E; [ | reflexivity ].
          apply Qge_bool_iff in E. cbn in Hthr. lra. }
        rewrite Hf. eexists. repeat split; reflexivity. }
      destruct Hit as (s2 & Hit & Hc2 & Hu2). rewrite Hit.
      cbn. split; assumption.
Qed.

End Sessao.

(** ** Scripted sessions *)

Section Roteiros.

Import Esquema Gateway ReferenciaSessao.

Let cfg := ConfiguracaoSTT.padrao.

Lemma parciais_limitadas_pelo_intervalo_witness :
  (List.length
     (filter (na_janela 1000 (1 # 2)) (instantes_sessao cfg amb_parciais))
   <= 1)%nat
  /\ n_parciais cfg amb_parciais
     = List.length (instantes_sessao cfg amb_parciais)
  /\ (exists d resto,
        canal _
          (snd (laco K_roteiro cfg sid
                  ([fala 1000] ++ fronteira (10001 # 10) :: [fala 1001])
                  (no_inicio_do_laco cfg amb_parciais false)))
        = canal _
            (snd (iteracao K_roteiro cfg sid (fala 1000)
                    (no_inicio_do_laco cfg amb_parciais false)))
          ++ MensagemTranscricaoFinal sid (lit "ola mundo") (Some (7 # 10))
               (Some d) :: resto)
  /\ canal _
       (snd (laco K_roteiro cfg sid ([fala 1000] ++ [fala (10001 # 10)])
               (no_inicio_do_laco cfg amb_parciais false)))
     = canal _
         (snd (iteracao K_roteiro cfg sid (fala 1000)
                 (no_inicio_do_laco cfg amb_parciais false))).
Proof.
  pose (s0 := no_inicio_do_laco cfg amb_parciais false).
  pose (s1 := snd (iteracao K_roteiro cfg sid (fala 1000) s0)).
  pose (mo := Motor.Mk K_roteiro sid true 2 1 0).
  assert (Hper : percorre cfg sid [fala 1000] s0 s1)
    by (eapply percorre_cons; [ reflexivity | apply percorre_nil ]).
  destruct (parciais_limitadas_pelo_intervalo K_roteiro cfg amb_parciais)
    as (_ & Hjanela & Hn & Hfinal & Hparcial).
  split; [ apply Hjanela | ].
  split; [ exact Hn | ].
  split.
  - apply (Hfinal sid [fala 1000] (fronteira (10001 # 10)) [fala 1001]
             s0 s1 [Byte.x02; Byte.x00] mo
             (snd (Motor.processar_audio K_roteiro [Byte.x02; Byte.x00] mo))
             (Orq.init cfg sid) (lit "ola mundo") (Some (7 # 10)) Hper).
    + reflexivity.
    + discriminate.
    + reflexivity.
    + reflexivity.
    + reflexivity.
    + vm_compute. reflexivity.
    + discriminate.
    + reflexivity.
  - apply (Hparcial sid [fala 1000] (fala (10001 # 10)) [] s0 s1
             [Byte.x01; Byte.x00] mo
             (snd (Motor.processar_audio K_roteiro [Byte.x01; Byte.x00] mo))
             (lit "ola") None Hper).
    + reflexivity.
    + discriminate.
    + reflexivity.
    + reflexivity.
    + vm_compute. reflexivity.
    + discriminate.
    + reflexivity.
    + vm_compute. reflexivity.
Defined.

Lemma sessao_iniciada_no_maximo_uma_vez_witness :
  (exists resto,
     mensagens K_roteiro cfg amb_parciais
     = MensagemSessaoIniciada sid (lit "pt-br") 16000 1
         ConfiguracaoSTT.VERSAO_SERVICO :: resto
     /\ Forall (fun m => tipo m <> SESSAO_INICIADA) resto)
  /\ (mensagens K_roteiro cfg amb_motor_falha = []
      \/ exists msg,
           mensagens K_roteiro cfg amb_motor_falha
           = [MensagemErro (Some sid) (lit "PROCESSING_ERROR") msg]).
Proof.
  split.
  - apply (proj1 (sessao_iniciada_no_maximo_uma_vez K_roteiro cfg
                    amb_parciais) false tt); reflexivity.
  - apply (proj1 (proj2 (sessao_iniciada_no_maximo_uma_vez K_roteiro cfg
                           amb_motor_falha))).
    left. eexists. reflexivity.
Defined.

(** C8 as stated fails when the engine cannot be built: the client
    receives the error message and no [session_started]. *)
Lemma sessao_sem_session_started :
  mensagens K_roteiro cfg amb_motor_falha
  = [MensagemErro (Some sid) (lit "PROCESSING_ERROR")
       (lit "modelo nao encontrado")]
  /\ ~ uma_sessao_iniciada_primeiro (mensagens K_roteiro cfg amb_motor_falha).
Proof.
  split; [ reflexivity | ].
  intros [H _]. vm_compute in H. discriminate.
Qed.

(** C1, at a failing input.  The client sends one frame of speech and
    disconnects, so the recognizer holds the text "ola mundo" with
    word confidences 0.9 and 0.5.  [finalizar_sessao] flushes it and
    raises [ValueError] instead of returning [("ola mundo", 0.7)]; in
    the handler the exception leaves the [finally] block, and nothing
    is sent downstream. *)
Theorem finalizar_sessao_levanta_com_texto_pendente :
  let m := Motor.init K_roteiro sid true in
  fst (Motor.FinalResult K_roteiro (Motor.recognizer m))
  = Motor.MkResultado (Some (lit "ola mundo")) None (Some Referencia.exemplo)
  /\ fst (Motor.finalizar_sessao K_roteiro m)
     = Raise (MkExn ValueError (lit "Invalid format specifier"))
  /\ fst (websocket_stt K_roteiro cfg amb_desconexao (inicial K_roteiro))
     = Raise (MkExn ValueError (lit "Invalid format specifier"))
  /\ rede _ (snd (websocket_stt K_roteiro cfg amb_desconexao
                    (inicial K_roteiro))) = [].
Proof. cbv zeta. repeat split. Qed.

End Roteiros.

(* ================================================================== *)
(** * Further properties of the orchestrator                           *)
(* ================================================================== *)

Section DespachoExtras.

Import Esquema OrquestradorEnvioGlossa ReferenciaEnvio.

Lemma contar_limites {A} (f : A -> bool) (l : list A) :
  0 <= contar f l <= len l.
Proof.
  unfold contar, len. induction l as [ | x l IH ]; cbn [filter]; [ cbn; lia | ].
  destruct (f x); cbn [List.length]; lia.
Qed.

Lemma len_app {A} (l1 l2 : list A) : len (l1 ++ l2) = len l1 + len l2.
Proof. unfold len. rewrite length_app. lia. Qed.

(** The wire after one call. *)
Lemma chamar_rede (w : mundo) (c : chamada) :
  rede (chamar w c)
  = if filtrada c then rede w
    else rede w ++ [montar_pedido (self w) (c_texto c) (c_confianca c)].
Proof.
  unfold chamar, filtrada.
  destruct c as [net texto confianca]; cbn [c_net c_texto c_confianca].
  destruct (deve_enviar texto confianca) eqn:Hd; cbn [negb].
  - destruct (post net) as [ resp | e ] eqn:Hp.
    + destruct (status_2xx resp) eqn:Hs.
      * rewrite (enviar_2xx net texto confianca w resp Hd Hp Hs).
        destruct (novo_resultado _ _ _ _ _ _); reflexivity.
      * rewrite (enviar_http_erro net texto confianca w resp Hd Hp Hs).
        reflexivity.
    + rewrite (enviar_excecao net texto confianca w e Hd Hp). reflexivity.
  - rewrite (enviar_filtrado net texto confianca w Hd). reflexivity.
Qed.

(** X1.  No retries and no silent sends: a call that passes the filter
    puts exactly one request on the wire, whatever the network then
    does, and that request carries the text and the confidence it was
    given together with the orchestrator's URL, session id and timeout;
    a filtered call puts none.  After a sequence of calls the wire
    holds one request per call that was not filtered. *)
Theorem uma_requisicao_por_chamada (cs : list chamada) (w : mundo) :
  (forall c,
     rede (chamar w c)
     = if filtrada c then rede w
       else rede w ++ [MkPedido (url_glossa (self w)) (c_texto c)
                         (session_id (self w)) (c_confianca c)
                         (lit "stt_microservice")
                         ConfiguracaoSTT.VERSAO_SERVICO (timeout (self w))
                         (p_headers (montar_pedido (self w) (c_texto c)
                                       (c_confianca c)))])
  /\ len (rede (enviar_seq cs w))
     = len (rede w) + len cs - contar filtrada cs.
Proof.
  split.
  - intro c. rewrite chamar_rede. reflexivity.
  - revert w. induction cs as [ | c cs IH ]; intro w.
    + cbn. lia.
    + unfold enviar_seq. cbn [fold_left]. fold (enviar_seq cs (chamar w c)).
      rewrite IH, chamar_rede, contar_cons.
      replace (len (c :: cs)) with (1 + len cs)
        by (unfold len; simpl List.length; lia).
      destruct (filtrada c); [ lia | ]. rewrite len_app.
      unfold len. cbn [List.length]. lia.
Qed.

(** X2.  A call that passes the filter and is answered with a status in
    [200,300) and a body that is a JSON object, or that does not parse
    as JSON, is a success: the outcome has [request_sent = true], the
    status, the measured duration and no error; its body is the parsed
    object, or [{"raw": ...}] with at most the first 200 characters of
    the raw text; the success counter and the latency total grow, the
    failure counter does not. *)
Theorem envio_bem_sucedido
    (net : http) (texto : str) (confianca : option Q) (w : mundo)
    (resp : Response) :
  deve_enviar texto confianca = true ->
  post net = Ret resp ->
  status_2xx resp = true ->
  (exists d, corpo_de resp = JObj d) ->
  exists r w',
    enviar_para_glossa net texto confianca w = (Ret r, w')
    /\ request_sent r = true
    /\ response_status r = Some (status_code resp)
    /\ duration_ms r = Some ((t_fim net - t_inicio net) * 1000)%Q
    /\ error r = None
    /\ (forall d, json_ resp = Ret (JObj d) -> response_body r = Some d)
    /\ (forall e, json_ resp = Raise e ->
          response_body r
          = Some [(lit "raw", JStr (slice_to 200 (text resp)))]
          /\ len (slice_to 200 (text resp)) <= 200)
    /\ envios_sucesso (self w') = envios_sucesso (self w) + 1
    /\ envios_falha (self w') = envios_falha (self w)
    /\ latencia_total_ms (self w')
       = (latencia_total_ms (self w) + (t_fim net - t_inicio net) * 1000)%Q.
Proof.
  intros Hd Hp Hs (d & Hc).
  rewrite (enviar_2xx net texto confianca w resp Hd Hp Hs), Hc.
  cbn [novo_resultado]. eexists _, _. split; [ reflexivity | ].
  assert (Hlen : len (slice_to 200 (text resp)) <= 200).
  { unfold slice_to, len. rewrite length_firstn. lia. }
  unfold corpo_de in Hc.
  destruct (json_ resp) as [ j | e ] eqn:Hj.
  - subst j. cbn. repeat split; try congruence.
  - inversion Hc; subst d. cbn. repeat split; try congruence; exact Hlen.
Qed.

Lemma envio_bem_sucedido_witness :
  exists r w',
    enviar_para_glossa (c_net chamada_200) (lit "ola mundo") None
      (novo (lit "s1")) = (Ret r, w')
    /\ request_sent r = true
    /\ response_status r = Some 200
    /\ error r = None
    /\ response_body r = Some [(lit "glossa", JStr (lit "OLA"))]
    /\ envios_sucesso (self w') = 1.
Proof.
  destruct (envio_bem_sucedido (c_net chamada_200) (lit "ola mundo") None
              (novo (lit "s1")) _ eq_refl eq_refl eq_refl
              (ex_intro _ _ eq_refl))
    as (r & w' & Heq & Hs & Hst & _ & He & Hb & _ & Hc & _).
  exists r, w'. repeat split; try assumption.
  apply Hb. reflexivity.
Defined.

(** X3.  A call that passes the filter and is answered with a status
    outside [200,300) is a failure that still reports the exchange:
    [request_sent = true], the status, the duration, the error text
    naming the status and a body [{"error": ...}] with at most the first
    200 characters of the response text; the failure counter grows and
    the success counter does not. *)
Theorem envio_erro_http
    (net : http) (texto : str) (confianca : option Q) (w : mundo)
    (resp : Response) :
  deve_enviar texto confianca = true ->
  post net = Ret resp ->
  status_2xx resp = false ->
  exists r w',
    enviar_para_glossa net texto confianca w = (Ret r, w')
    /\ request_sent r = true
    /\ response_status r = Some (status_code resp)
    /\ duration_ms r = Some ((t_fim net - t_inicio net) * 1000)%Q
    /\ error r = Some (msg_http (status_code resp))
    /\ response_body r
       = Some [(lit "error", JStr (slice_to 200 (text resp)))]
    /\ len (slice_to 200 (text resp)) <= 200
    /\ envios_falha (self w') = envios_falha (self w) + 1
    /\ envios_sucesso (self w') = envios_sucesso (self w).
Proof.
  intros Hd Hp Hs.
  rewrite (enviar_http_erro net texto confianca w resp Hd Hp Hs).
  eexists _, _. split; [ reflexivity | ].
  assert (Hlen : len (slice_to 200 (text resp)) <= 200).
  { unfold slice_to, len. rewrite length_firstn. lia. }
  cbn. repeat split. exact Hlen.
Qed.

Lemma envio_erro_http_witness :
  exists r w',
    enviar_para_glossa (c_net chamada_500) (lit "ola mundo") None
      (novo (lit "s1")) = (Ret r, w')
    /\ request_sent r = true
    /\ response_status r = Some 500
    /\ error r = Some (msg_http 500)
    /\ envios_falha (self w') = 1.
Proof.
  destruct (envio_erro_http (c_net chamada_500) (lit "ola mundo") None
              (novo (lit "s1")) _ eq_refl eq_refl eq_refl)
    as (r & w' & Heq & Hs & Hst & _ & He & _ & _ & Hf & _).
  exists r, w'. repeat split; assumption.
Defined.

(** X4.  Every outcome is coherent, whatever happened: it names the
    orchestrator's URL; the call counts as one attempt and leaves the
    session id, URL and timeout of the orchestrator alone; an outcome
    with [request_sent = false] has neither status nor body; an outcome
    with a status has [request_sent = true] and a duration; and an
    outcome without error has a status in [200,300), and its call was
    counted as a success and not as a failure. *)
Theorem resultado_coerente
    (net : http) (texto : str) (confianca : option Q) (w : mundo) :
  exists r w',
    enviar_para_glossa net texto confianca w = (Ret r, w')
    /\ target_url r = url_glossa (self w)
    /\ session_id (self w') = session_id (self w)
    /\ url_glossa (self w') = url_glossa (self w)
    /\ timeout (self w') = timeout (self w)
    /\ total_envios (self w') = total_envios (self w) + 1
    /\ (request_sent r = false ->
          response_status r = None /\ response_body r = None)
    /\ (forall st, response_status r = Some st ->
          request_sent r = true
          /\ duration_ms r = Some ((t_fim net - t_inicio net) * 1000)%Q)
    /\ (error r = None ->
          exists st,
            response_status r = Some st
            /\ 200 <= st < 300
            /\ envios_sucesso (self w') = envios_sucesso (self w) + 1
            /\ envios_falha (self w') = envios_falha (self w)).
Proof.
  destruct (deve_enviar texto confianca) eqn:Hd.
  - destruct (post net) as [ resp | e ] eqn:Hp.
    + destruct (status_2xx resp) eqn:Hs.
      * rewrite (enviar_2xx net texto confianca w resp Hd Hp Hs).
        assert (Hst : 200 <= status_code resp < 300).
        { unfold status_2xx in Hs. apply andb_true_iff in Hs as [H1 H2].
          apply Z.leb_le in H1. apply Z.ltb_lt in H2. lia. }
        unfold novo_resultado.
        destruct (corpo_de resp); eexists _, _;
          (split; [ reflexivity | ]); cbn;
          repeat split; try congruence;
          try (intros st Hr; inversion Hr; reflexivity);
          try (intros _; eexists; repeat split; lia).
      * rewrite (enviar_http_erro net texto confianca w resp Hd Hp Hs).
        eexists _, _. split; [ reflexivity | ]. cbn.
        repeat split; try congruence.
    + rewrite (enviar_excecao net texto confianca w e Hd Hp).
      eexists _, _. split; [ reflexivity | ].
      destruct (issubclass (exn_class e) Timeout);
        [ | destruct (issubclass (exn_class e) RequestException) ];
        cbn; repeat split; congruence.
  - rewrite (enviar_filtrado net texto confianca w Hd).
    eexists _, _. split; [ reflexivity | ]. cbn.
    repeat split; congruence.
Qed.

Lemma resultado_coerente_witness :
  exists r w',
    enviar_para_glossa (c_net chamada_200) (lit "ola mundo") None
      (novo (lit "s1")) = (Ret r, w')
    /\ target_url r = lit "http://localhost:9000/traduzir"
    /\ exists st, response_status r = Some st /\ 200 <= st < 300.
Proof.
  destruct (resultado_coerente (c_net chamada_200) (lit "ola mundo") None
              (novo (lit "s1")))
    as (r & w' & Heq & Hu & _ & _ & _ & _ & _ & _ & Herr).
  exists r, w'. split; [ exact Heq | ]. split; [ exact Hu | ].
  assert (He : error r = None).
  { pose proof Heq as H. vm_compute in H. inversion H. reflexivity. }
  destruct (Herr He) as (st & Hst & Hr & _).
  exists st. split; assumption.
Defined.

(** ** Rounding *)

Lemma round_half_even_entre (q : Q) (a b : Z) :
  (inject_Z a <= q)%Q -> (q <= inject_Z b)%Q ->
  a <= round_half_even q <= b.
Proof.
  intros Ha Hb.
  pose proof (Qfloor_le q) as Hfl.
  pose proof (Qlt_floor q) as Hfu.
  rewrite inject_Z_plus in Hfu.
  assert (Haf : a <= Qfloor q).
  { rewrite <- (Qfloor_Z a). now apply Qfloor_resp_le. }
  assert (Hfb : Qfloor q <= b).
  { rewrite <- (Qfloor_Z b). now apply Qfloor_resp_le. }
  unfold round_half_even.
  destruct (Qcompare (q - inject_Z (Qfloor q)) (1 # 2)) eqn:E.
  - apply Qeq_alt in E.
    assert (Hlt : (inject_Z (Qfloor q) < inject_Z b)%Q) by lra.
    rewrite <- Zlt_Qlt in Hlt.
    destruct (Z.even (Qfloor q)); lia.
  - lia.
  - apply Qgt_alt in E.
    assert (Hlt : (inject_Z (Qfloor q) < inject_Z b)%Q) by lra.
    rewrite <- Zlt_Qlt in Hlt. lia.
Qed.

Lemma round_half_even_perto (q : Q) :
  (- (1 # 2) <= inject_Z (round_half_even q) - q <= 1 # 2)%Q.
Proof.
  pose proof (Qfloor_le q) as Hfl.
  pose proof (Qlt_floor q) as Hfu.
  rewrite inject_Z_plus in Hfu. change (inject_Z 1) with 1%Q in Hfu.
  unfold round_half_even.
  destruct (Qcompare (q - inject_Z (Qfloor q)) (1 # 2)) eqn:E.
  - apply Qeq_alt in E.
    destruct (Z.even (Qfloor q));
      [ | rewrite inject_Z_plus; change (inject_Z 1) with 1%Q ]; lra.
  - apply Qlt_alt in E. lra.
  - apply Qgt_alt in E. rewrite inject_Z_plus.
    change (inject_Z 1) with 1%Q. lra.
Qed.

Lemma round_1_perto (q : Q) :
  (- (1 # 20) <= round_ q 1 - q <= 1 # 20)%Q.
Proof.
  unfold round_. change (inject_Z (10 ^ Z.of_nat 1)) with 10%Q.
  pose proof (round_half_even_perto (q * 10)) as H.
  split.
  - apply Qle_minus_iff.
    setoid_replace (inject_Z (round_half_even (q * 10)) / 10 - q
                    + - - (1 # 20))%Q
      with ((inject_Z (round_half_even (q * 10)) - q * 10 + (1 # 2)) / 10)%Q
      by field.
    apply Qle_shift_div_l; lra.
  - apply Qle_minus_iff.
    setoid_replace ((1 # 20)
                    + - (inject_Z (round_half_even (q * 10)) / 10 - q))%Q
      with (((1 # 2) - (inject_Z (round_half_even (q * 10)) - q * 10)) / 10)%Q
      by field.
    apply Qle_shift_div_l; lra.
Qed.

Lemma round_1_entre (q : Q) (a b : Z) :
  (inject_Z a <= q)%Q -> (q <= inject_Z b)%Q ->
  (inject_Z a <= round_ q 1 <= inject_Z b)%Q.
Proof.
  intros Ha Hb.
  unfold round_. change (inject_Z (10 ^ Z.of_nat 1)) with 10%Q.
  destruct (round_half_even_entre (q * 10) (a * 10) (b * 10)) as [H1 H2].
  - rewrite inject_Z_mult. change (inject_Z 10) with 10%Q. lra.
  - rewrite inject_Z_mult. change (inject_Z 10) with 10%Q. lra.
  - rewrite Zle_Qle, inject_Z_mult in H1, H2.
    change (inject_Z 10) with 10%Q in H1, H2.
    split.
    + apply Qle_shift_div_l; lra.
    + apply Qle_shift_div_r; lra.
Qed.

(** X5.  The statistics of an orchestrator after any sequence of calls:
    the attempts are the calls, the successes are the calls answered
    with a status in [200,300), the reported success rate lies between
    0 and 100 and is within 0.05 of 100 times successes over attempts;
    with no call at all both the rate and the average latency are 0
    (nothing is divided by zero). *)
Theorem estatisticas_limitadas (cs : list chamada) (sid : str) :
  let e := obter_estatisticas (self (enviar_seq cs (novo sid))) in
  e_total_envios e = len cs
  /\ e_envios_sucesso e = contar sucedida cs
  /\ (0 <= taxa_sucesso_pct e <= 100)%Q
  /\ (cs <> [] ->
        (- (1 # 20)
         <= taxa_sucesso_pct e
            - inject_Z (contar sucedida cs) / inject_Z (len cs) * 100
         <= 1 # 20)%Q)
  /\ (cs = [] -> (taxa_sucesso_pct e == 0)%Q /\ (latencia_media_ms e == 0)%Q).
Proof.
  cbv zeta.
  destruct (enviar_seq_contadores cs (novo sid)) as (Ht & Hs & _ & _).
  cbn [novo self init total_envios envios_sucesso] in Ht, Hs.
  rewrite Z.add_0_l in Ht, Hs.
  pose proof (contar_limites sucedida cs) as Hlim.
  unfold obter_estatisticas.
  cbn [e_total_envios e_envios_sucesso taxa_sucesso_pct latencia_media_ms].
  rewrite Ht, Hs.
  split; [ reflexivity | ]. split; [ reflexivity | ].
  split; [ | split ].
  - change 0%Q with (inject_Z 0). change 100%Q with (inject_Z 100).
    apply round_1_entre.
    + destruct (len cs >? 0) eqn:E; [ | apply Qle_refl ].
      apply Z.gtb_lt in E.
      apply Qmult_le_0_compat; [ | discriminate ].
      apply Qle_shift_div_l.
      * change 0%Q with (inject_Z 0). now rewrite <- Zlt_Qlt.
      * rewrite Qmult_0_l. change 0%Q with (inject_Z 0).
        rewrite <- Zle_Qle. lia.
    + destruct (len cs >? 0) eqn:E; [ | discriminate ].
      apply Z.gtb_lt in E.
      assert (Hq : (inject_Z (contar sucedida cs) / inject_Z (len cs) <= 1)%Q).
      { apply Qle_shift_div_r.
        - change 0%Q with (inject_Z 0). now rewrite <- Zlt_Qlt.
        - rewrite Qmult_1_l. rewrite <- Zle_Qle. lia. }
      change (inject_Z 100) with 100%Q. lra.
  - intro Hne.
    assert (E : (len cs >? 0) = true).
    { apply Z.gtb_lt. destruct cs; [ congruence | ].
      unfold len. cbn [List.length]. lia. }
    rewrite E. apply round_1_perto.
  - intros ->. split; vm_compute; reflexivity.
Qed.

Lemma estatisticas_limitadas_witness :
  let e := obter_estatisticas
             (self (enviar_seq [chamada_500; chamada_200] (novo (lit "s1")))) in
  (- (1 # 20) <= taxa_sucesso_pct e - 50 <= 1 # 20)%Q.
Proof.
  cbv zeta.
  pose proof (proj1 (proj2 (proj2 (proj2
                (estatisticas_limitadas [chamada_500; chamada_200]
                   (lit "s1")))))
                ltac:(discriminate)) as H.
  cbv zeta in H.
  split; [ eapply Qle_trans; [ apply (proj1 H) | ]
         | eapply Qle_trans; [ | apply (proj2 H) ] ];
    vm_compute; discriminate.
Defined.

End DespachoExtras.

(* ================================================================== *)
(** * Further properties of the engine                                 *)
(* ================================================================== *)

Section MotorExtras.

Import MotorSTTVosk Referencia ReferenciaMotor.

Lemma lstrip_inicio (s : str) : inicio_limpo (lstrip s).
Proof.
  induction s as [ | c s IH ]; [ exact Logic.I | ].
  cbn [lstrip]. destruct (isspace c) eqn:E; [ exact IH | exact E ].
Qed.

Lemma lstrip_id (s : str) : inicio_limpo s -> lstrip s = s.
Proof.
  destruct s as [ | c s ]; [ reflexivity | ].
  cbn. intros ->. reflexivity.
Qed.

Lemma lstrip_app_ultimo (l : str) (c : codepoint) :
  isspace c = false -> exists l', lstrip (l ++ [c]) = l' ++ [c].
Proof.
  intro Hc. induction l as [ | a l IH ].
  - exists []. cbn. rewrite Hc. reflexivity.
  - cbn [app lstrip]. destruct (isspace a).
    + exact IH.
    + exists (a :: l). reflexivity.
Qed.

Lemma rstrip_inicio (s : str) : inicio_limpo s -> inicio_limpo (rstrip s).
Proof.
  destruct s as [ | c s ]; [ intros _; exact Logic.I | ].
  cbn [inicio_limpo]. intro Hc. unfold rstrip. cbn [rev].
  destruct (lstrip_app_ultimo (rev s) c Hc) as (l' & ->).
  rewrite rev_unit. exact Hc.
Qed.

Lemma strip_aparado (s : str) : aparado (strip s).
Proof.
  split.
  - apply rstrip_inicio, lstrip_inicio.
  - unfold strip, rstrip. rewrite rev_involutive. apply lstrip_inicio.
Qed.

Lemma strip_id (s : str) : aparado s -> strip s = s.
Proof.
  intros [Hi Hf]. unfold strip, rstrip.
  rewrite (lstrip_id s Hi), (lstrip_id (rev s) Hf). apply rev_involutive.
Qed.

Lemma strip_idempotente (s : str) : strip (strip s) = strip s.
Proof. apply strip_id, strip_aparado. Qed.

Variable K : KaldiRecognizer.

(** X6.  What [processar_audio] returns.  The text has no white space
    at either end (stripping it again changes nothing).  A final result
    always has text, and its confidence is the one computed from the
    recognizer's word entries; a non-final result never carries a
    confidence. *)
Theorem processar_audio_resultado
    (audio : list Byte.byte) (m m' : t K)
    (is_final : bool) (texto : str) (confianca : option Q) :
  processar_audio K audio m = (Ret (is_final, texto, confianca), m') ->
  aparado texto
  /\ strip texto = texto
  /\ (is_final = true ->
        texto <> []
        /\ exists r,
             fst (AcceptWaveform K (recognizer m) audio) = Ret true
             /\ Result K (snd (AcceptWaveform K (recognizer m) audio))
                = (r, recognizer m')
             /\ texto = strip (get_or (text r) [])
             /\ confianca = _calcular_confianca_media r)
  /\ (is_final = false -> confianca = None).
Proof.
  unfold processar_audio, bind, modify, accept_waveform, call, of_res, ret.
  cbn [fst snd recognizer add_bytes].
  destruct (AcceptWaveform K (recognizer m) audio) as [[ [ | ] | e ] k];
    cbn [fst snd recognizer set_recognizer]; [ | | discriminate ].
  - destruct (Result K k) as [r k'] eqn:Hr.
    cbn [fst snd recognizer set_recognizer inc_finais].
    destruct (strip (get_or (text r) [])) as [ | c t ] eqn:Hs; cbn [truthy].
    + intro H. inversion H; subst.
      repeat split; try discriminate; exact Logic.I.
    + destruct (conf_str (_calcular_confianca_media r)) as [ f | e ] eqn:Hc.
      * intro H. inversion H; subst.
        pose proof (strip_aparado (get_or (text r) [])) as Ha.
        rewrite Hs in Ha.
        split; [ exact Ha | ]. split; [ now apply strip_id | ].
        split; [ | discriminate ].
        intros _. split; [ discriminate | ].
        exists r. split; [ reflexivity | ]. split; [ reflexivity | ].
        split; [ symmetry; exact Hs | reflexivity ].
      * discriminate.
  - destruct (PartialResult K k) as [r k'].
    cbn [fst snd recognizer set_recognizer inc_parciais].
    pose proof (strip_aparado (get_or (partial r) [])) as Ha.
    destruct (strip (get_or (partial r) [])) as [ | c t ] eqn:Hs; cbn [truthy];
      intro H; inversion H; subst.
    + repeat split; try discriminate; exact Logic.I.
    + split; [ exact Ha | ]. split; [ now apply strip_id | ].
      split; [ discriminate | reflexivity ].
Qed.

(** X7.  What [processar_audio] does to the engine.  The bytes of the
    frame are counted on every call, also when the recognizer fails;
    the session id never changes.  A final result adds one to the final
    counter, a non-final result with text adds one to the partial
    counter, and nothing else moves the counters.  The call raises only
    when [AcceptWaveform] does, and then with that very exception. *)
Theorem processar_audio_contadores (audio : list Byte.byte) (m : t K) :
  let r := fst (processar_audio K audio m) in
  let m' := snd (processar_audio K audio m) in
  bytes_processados m' = bytes_processados m + len audio
  /\ session_id m' = session_id m
  /\ match r with
     | Ret x =>
         transcricoes_finais m'
         = transcricoes_finais m + (if e_final x then 1 else 0)
         /\ transcricoes_parciais m'
            = transcricoes_parciais m + (if e_parcial x then 1 else 0)
     | Raise e =>
         fst (AcceptWaveform K (recognizer m) audio) = Raise e
         /\ transcricoes_finais m' = transcricoes_finais m
         /\ transcricoes_parciais m' = transcricoes_parciais m
     end.
Proof.
  cbv zeta.
  unfold processar_audio, bind, modify, accept_waveform, call, of_res, ret,
    e_final, e_parcial.
  cbn [fst snd recognizer add_bytes].
  destruct (AcceptWaveform K (recognizer m) audio) as [[ [ | ] | e ] k];
    cbn [fst snd recognizer set_recognizer].
  - destruct (Result K k) as [r k'].
    cbn [fst snd recognizer set_recognizer].
    destruct (strip (get_or (text r) [])) as [ | c t ]; cbn [truthy].
    + cbn. repeat split; lia.
    + destruct (_calcular_confianca_media r) as [ q | ];
        cbn; repeat split; lia.
  - destruct (PartialResult K k) as [r k'].
    cbn [fst snd recognizer set_recognizer].
    destruct (strip (get_or (partial r) [])) as [ | c t ]; cbn [truthy];
      cbn; repeat split; lia.
  - cbn. repeat split.
Qed.

(** One call moves the counters by at most one step each. *)
Lemma processar_audio_passo (audio : list Byte.byte) (m : t K) :
  bytes_processados (snd (processar_audio K audio m))
  = bytes_processados m + len audio
  /\ match fst (processar_audio K audio m) with
     | Ret x =>
         transcricoes_finais (snd (processar_audio K audio m))
         = transcricoes_finais m + (if e_final x then 1 else 0)
         /\ transcricoes_parciais (snd (processar_audio K audio m))
            = transcricoes_parciais m + (if e_parcial x then 1 else 0)
     | Raise _ =>
         transcricoes_finais (snd (processar_audio K audio m))
         = transcricoes_finais m
         /\ transcricoes_parciais (snd (processar_audio K audio m))
            = transcricoes_parciais m
     end.
Proof.
  unfold processar_audio, bind, modify, accept_waveform, call, of_res, ret,
    e_final, e_parcial.
  cbn [fst snd recognizer add_bytes].
  destruct (AcceptWaveform K (recognizer m) audio) as [[ [ | ] | e ] k];
    cbn [fst snd recognizer set_recognizer].
  - destruct (Result K k) as [r k'].
    cbn [fst snd recognizer set_recognizer].
    destruct (strip (get_or (text r) [])) as [ | c t ]; cbn [truthy];
      [ cbn; repeat split; lia | ].
    destruct (_calcular_confianca_media r) as [ q | ]; cbn; repeat split; lia.
  - destruct (PartialResult K k) as [r k'].
    cbn [fst snd recognizer set_recognizer].
    destruct (strip (get_or (partial r) [])) as [ | c t ]; cbn [truthy];
      cbn; repeat split; lia.
  - cbn. repeat split.
Qed.

Lemma contar_resultados_cons (f : bool * str * option Q -> bool)
    (x : bool * str * option Q) (l : list (bool * str * option Q)) :
  len (filter f (x :: l)) = (if f x then 1 else 0) + len (filter f l).
Proof.
  unfold len. cbn [filter]. destruct (f x); cbn [List.length]; lia.
Qed.

(** X8.  Over any run of frames through one engine: the final counter
    grows by the number of final results returned, the partial counter
    by the number of non-final results with text, so together they
    never grow by more than the number of frames; the byte counter
    never decreases, and when every frame was processed it grew by the
    total size of the frames. *)
Theorem processar_seq_contadores (frames : list (list Byte.byte)) (m : t K) :
  let rs := fst (processar_seq K frames m) in
  let m' := snd (processar_seq K frames m) in
  transcricoes_finais m' = transcricoes_finais m + len (filter e_final rs)
  /\ transcricoes_parciais m'
     = transcricoes_parciais m + len (filter e_parcial rs)
  /\ transcricoes_finais m' + transcricoes_parciais m'
     <= transcricoes_finais m + transcricoes_parciais m + len frames
  /\ bytes_processados m <= bytes_processados m'
  /\ (len rs = len frames ->
        bytes_processados m'
        = bytes_processados m + fold_right Z.add 0 (List.map len frames)).
Proof.
  cbv zeta. revert m. induction frames as [ | f fs IH ]; intro m.
  - cbn. repeat split; lia.
  - cbn [processar_seq].
    pose proof (processar_audio_passo f m) as (Hb & Hc).
    destruct (processar_audio K f m) as [[ x | e ] m1]; cbn [fst snd] in *.
    + destruct (IH m1) as (Hf & Hp & Hle & Hby & Hall).
      destruct (processar_seq K fs m1) as [rs m2]; cbn [fst snd] in *.
      destruct Hc as [Hc1 Hc2].
      rewrite !contar_resultados_cons.
      assert (Hlen : len (f :: fs) = 1 + len fs)
        by (unfold len; cbn [List.length]; lia).
      assert (Hxor : (if e_final x then 1 else 0)
                     + (if e_parcial x then 1 else 0) <= 1).
      { unfold e_final, e_parcial. destruct (fst (fst x)); cbn;
          [ lia | destruct (truthy (snd (fst x))); lia ]. }
      assert (0 <= len f) by (unfold len; lia).
      repeat split; try lia.
      intro Hl. cbn [List.map fold_right].
      rewrite Hall; [ lia | ].
      unfold len in *. cbn [List.length] in Hl. lia.
    + destruct Hc as (Hc1 & Hc2).
      assert (0 <= len f) by (unfold len; lia).
      assert (0 <= len (f :: fs)) by (unfold len; lia).
      cbn [filter]. repeat split; cbn; lia.
Qed.

End MotorExtras.

Section ConfiancaExtras.

Import MotorSTTVosk Referencia ReferenciaMotor.

Lemma binary64_unidade (x : Q) :
  (0 <= x <= 1)%Q -> (0 <= binary64 x <= 1)%Q.
Proof.
  intros [H0 H1]. split.
  - apply binary64_nonneg. exact H0.
  - apply (binary64_le x 1 H1).
Qed.

Lemma somas_ponderadas_limites (l : list palavra) (a b : Q) :
  Forall (fun p => (0 <= confianca_de p <= 1)%Q /\ (0 < duracao64 p)%Q) l ->
  (0 <= binary64 a <= binary64 b)%Q ->
  (0 <= binary64 (fold_left float_add
                    (List.map (fun p => float_mul (confianca_de p)
                                          (duracao64 p)) l) a)
   <= binary64 (fold_left float_add (List.map duracao64 l) b))%Q.
Proof.
  intro Hall. revert a b.
  induction Hall as [ | p l [Hc Hd] _ IH ]; intros a b Hab; [ exact Hab | ].
  cbn [List.map fold_left]. apply IH.
  rewrite !binary64_add, binary64_mul.
  pose proof (binary64_unidade _ Hc) as [Hc0 Hc1].
  pose proof (binary64_duracao p Hd) as Hdp.
  set (c := binary64 (confianca_de p)) in *.
  set (d := binary64 (duracao64 p)) in *.
  assert (Hp0 : (0 <= c * d)%Q) by (apply Qmult_le_0_compat; lra).
  assert (Hp1 : (c * d <= d)%Q).
  { setoid_replace d with (1 * d)%Q at 2 by ring.
    apply Qmult_le_compat_r; lra. }
  assert (Hq0 : (0 <= binary64 (c * d))%Q) by (apply binary64_nonneg; exact Hp0).
  assert (Hq1 : (binary64 (c * d) <= d)%Q).
  { unfold d at 2. rewrite <- (binary64_idem (duracao64 p)). fold d.
    apply binary64_le. exact Hp1. }
  split.
  - apply binary64_nonneg. lra.
  - apply binary64_le. lra.
Qed.

Definition limite (k : Z) : Z := Z.min k (2 ^ 53).

Lemma soma_confiancas_limites (l : list Q) (a : Q) (k : Z) :
  Forall (fun c => (0 <= c <= 1)%Q) l -> 0 <= k ->
  (0 <= binary64 a <= inject_Z (limite k))%Q ->
  (0 <= binary64 (fold_left float_add l a) <= inject_Z (limite (k + len l)))%Q.
Proof.
  intro Hall. revert a k.
  induction Hall as [ | c l Hc _ IH ]; intros a k Hk Ha.
  - cbn [fold_left]. replace (k + len (@nil Q)) with k by (cbn; lia). exact Ha.
  - cbn [fold_left].
    replace (k + len (c :: l)) with ((k + 1) + len l)
      by (unfold len; cbn [List.length]; lia).
    apply IH; [ lia | ].
    rewrite binary64_add.
    pose proof (binary64_unidade _ Hc) as [Hc0 Hc1].
    split; [ apply binary64_nonneg; lra | ].
    apply Qle_trans with (binary64 (inject_Z (limite k) + 1)).
    + apply binary64_le. lra.
    + unfold limite. destruct (Z_lt_le_dec k (2 ^ 53)) as [Hlt | Hge].
      * rewrite !Z.min_l by lia.
        change 1%Q with (inject_Z 1). rewrite <- inject_Z_plus.
        rewrite binary64_Z by lia. apply Qle_refl.
      * rewrite !Z.min_r by lia. vm_compute. discriminate.
Qed.

Lemma binary64_len (n : Z) :
  0 <= n -> (inject_Z (limite n) <= binary64 (inject_Z n))%Q.
Proof.
  intro Hn. unfold limite. destruct (Z_lt_le_dec n (2 ^ 53)) as [Hlt | Hge].
  - rewrite Z.min_l by lia. rewrite binary64_Z by lia. apply Qle_refl.
  - rewrite Z.min_r by lia.
    rewrite <- (binary64_Z (2 ^ 53)) by lia.
    apply binary64_le. rewrite <- Zle_Qle. exact Hge.
Qed.

Lemma float_truediv_unidade (x y : Q) :
  (0 <= binary64 x <= binary64 y)%Q -> (0 < binary64 y)%Q ->
  (0 <= float_truediv x y <= 1)%Q.
Proof.
  intros [H0 H1] Hy. unfold float_truediv. split.
  - apply float_nonneg. apply Qle_shift_div_l; [ exact Hy | lra ].
  - apply float_le_1. apply Qle_shift_div_r; [ exact Hy | lra ].
Qed.

(** X9.  When every word entry of a recognizer result has a confidence
    between 0 and 1, so has the confidence computed for the result,
    whichever of the two means is taken: the value always passes the
    [ge=0.0, le=1.0] validation of the partial and final messages. *)
Theorem confianca_media_valida (r : resultado) :
  (forall ws p, result r = Some ws -> In p ws ->
     (0 <= confianca_de p <= 1)%Q) ->
  Esquema.confianca_valida (_calcular_confianca_media r) = true
  /\ forall c, _calcular_confianca_media r = Some c -> (0 <= c <= 1)%Q.
Proof.
  intro H.
  assert (Hc : forall c, _calcular_confianca_media r = Some c ->
                 (0 <= c <= 1)%Q).
  { unfold _calcular_confianca_media.
    destruct (result r) as [ ws | ] eqn:Hr; cbn [get_or];
      [ | cbn; discriminate ].
    destruct ws as [ | p ws ]; [ cbn; discriminate | ].
    cbn [truthy negb].
    specialize (H (p :: ws)).
    assert (Hws : forall x, In x (p :: ws) -> (0 <= confianca_de x <= 1)%Q)
      by (intros x Hx; now apply H).
    rewrite fold_acumular64.
    set (l := com_duracao64 (p :: ws)).
    assert (Hl : Forall (fun p => (0 <= confianca_de p <= 1)%Q
                                  /\ (0 < duracao64 p)%Q) l).
    { apply Forall_forall. intros x Hx. unfold l, com_duracao64 in Hx.
      apply filter_In in Hx as [Hin Hx]. split; [ now apply Hws | ].
      apply Qlt_bool_iff. exact Hx. }
    pose proof (somas_ponderadas_limites l 0%Q 0%Q Hl
                  ltac:(split; apply Qle_refl)) as Hlim.
    destruct (float_gt _ 0) eqn:G; intros c Hc; inversion Hc; subst c.
    - apply float_truediv_unidade; [ exact Hlim | ].
      unfold float_gt, Qgt_bool in G. apply Qlt_bool_iff in G. exact G.
    - assert (Hcs : Forall (fun c => (0 <= c <= 1)%Q)
                      (List.map (fun p => get_or (conf p) 0%Q) (p :: ws))).
      { apply Forall_forall. intros c Hin. apply in_map_iff in Hin.
        destruct Hin as (x & <- & Hx). now apply Hws. }
      pose proof (soma_confiancas_limites _ 0%Q 0 Hcs ltac:(lia)
                    ltac:(split; apply Qle_refl)) as [Hs0 Hs1].
      assert (Hlen : 0 + len (List.map (fun p => get_or (conf p) 0%Q) (p :: ws))
                     = len (p :: ws))
        by (unfold len; rewrite List.length_map; lia).
      rewrite Hlen in Hs1.
      assert (Hn : 0 < len (p :: ws)) by (unfold len; cbn [List.length]; lia).
      pose proof (binary64_len (len (p :: ws)) ltac:(lia)) as Hb.
      apply float_truediv_unidade.
      + unfold sum. split; [ exact Hs0 | ].
        eapply Qle_trans; [ exact Hs1 | exact Hb ].
      + apply Qlt_le_trans with (inject_Z (limite (len (p :: ws)))); [ | exact Hb ].
        change 0%Q with (inject_Z 0). rewrite <- Zlt_Qlt. unfold limite. lia. }
  split; [ | exact Hc ].
  destruct (_calcular_confianca_media r) as [ c | ]; [ | reflexivity ].
  destruct (Hc c eq_refl) as [H0 H1].
  cbn [Esquema.confianca_valida]. apply andb_true_iff. split.
  - now apply Qge_bool_iff.
  - now apply Qle_bool_iff.
Qed.

Lemma confianca_media_valida_witness :
  Esquema.confianca_valida
    (_calcular_confianca_media (MkResultado None None (Some exemplo))) = true.
Proof.
  refine (proj1 (confianca_media_valida
                   (MkResultado None None (Some exemplo)) _)).
  intros ws p Hr Hp. inversion Hr; subst ws.
  destruct Hp as [ <- | [ <- | [] ] ]; split; vm_compute; discriminate.
Defined.

End ConfiancaExtras.

Section FiltroExtras.

Import OrquestradorEnvioGlossa.

(** X10.  The dispatch filter looks at the stripped text only, so white
    space around the text never changes its answer; and it is monotone
    in the confidence: a text accepted with some confidence is accepted
    with any higher one and with an unknown one. *)
Theorem deve_enviar_estavel (texto : str) (c c' : Q) :
  (forall confianca,
     deve_enviar (strip texto) confianca = deve_enviar texto confianca)
  /\ (deve_enviar texto (Some c) = true -> (c <= c')%Q ->
        deve_enviar texto (Some c') = true)
  /\ (deve_enviar texto (Some c) = true -> deve_enviar texto None = true).
Proof.
  split; [ | split ].
  - intro confianca.
    rewrite (deve_enviar_strip (strip texto)), (deve_enviar_strip texto).
    rewrite strip_idempotente. reflexivity.
  - rewrite !deve_enviar_strip.
    destruct (negb (truthy (strip texto))); [ discriminate | ].
    destruct (len (strip texto) <? 3); [ discriminate | ].
    intros H Hle. apply negb_true_iff in H. apply Qlt_bool_false_iff in H.
    apply negb_true_iff, Qlt_bool_false_iff. lra.
  - rewrite !deve_enviar_strip.
    destruct (negb (truthy (strip texto))); [ discriminate | ].
    destruct (len (strip texto) <? 3); [ discriminate | reflexivity ].
Qed.

Lemma deve_enviar_estavel_witness :
  deve_enviar (lit "ola") (Some (9 # 10)) = true
  /\ deve_enviar (lit "ola") None = true.
Proof.
  split.
  - apply (proj1 (proj2 (deve_enviar_estavel (lit "ola") (1 # 2) (9 # 10))));
      [ reflexivity | vm_compute; discriminate ].
  - apply (proj2 (proj2 (deve_enviar_estavel (lit "ola") (1 # 2) 0)));
      reflexivity.
Defined.

End FiltroExtras.

(* ================================================================== *)
(** * The model loader, start-up and the health endpoint               *)
(* ================================================================== *)

Section CarregadorExtras.

Import CarregadorModeloVosk.

Variable Model : Type.

(** X11.  The model is a process-wide singleton.  A call of
    [obter_modelo] that returns leaves the loader loaded, and from then
    on every call returns that same instance without touching the
    loader, whatever path or loading outcome it would meet; an engine
    built afterwards is built on that instance.  A call on a loaded
    loader changes nothing.  A call raises only when [Model(...)]
    raised, with that exception, and leaves the loader as unloaded as
    it was, so that a later call tries again. *)
Theorem modelo_carregado_uma_vez
    (caminho : option str) (carga : res Model) (c : t Model) :
  match obter_modelo Model caminho carga c with
  | (Ret m, c') =>
      modelo_esta_carregado Model c' = true
      /\ (forall caminho' carga',
            obter_modelo Model caminho' carga' c' = (Ret m, c'))
      /\ (forall K caminho' carga' kaldi sid,
            novo_motor Model K caminho' carga' kaldi sid c'
            = (match kaldi m with
               | Ret r => Ret (MotorSTTVosk.init K sid r)
               | Raise e => Raise e
               end, c'))
      /\ (modelo_esta_carregado Model c = true -> c' = c)
  | (Raise e, c') =>
      carga = Raise e
      /\ modelo_esta_carregado Model c = false
      /\ modelo_esta_carregado Model c' = false
      /\ cargas c' = cargas c ++ [caminho]
  end.
Proof.
  unfold modelo_esta_carregado.
  destruct c as [inst flag log]; cbn [_instancia_modelo _modelo_carregado].
  assert (Hcache : forall (m : Model) l caminho' carga',
            obter_modelo Model caminho' carga' (Mk Model (Some m) true l)
            = (Ret m, Mk Model (Some m) true l)) by reflexivity.
  assert (Hmotor : forall (m : Model) l K caminho' carga' kaldi sid,
            novo_motor Model K caminho' carga' kaldi sid
              (Mk Model (Some m) true l)
            = (match kaldi m with
               | Ret r => Ret (MotorSTTVosk.init K sid r)
               | Raise e => Raise e
               end, Mk Model (Some m) true l)).
  { intros. unfold novo_motor, bind, of_res, ret. rewrite Hcache.
    destruct (kaldi m); reflexivity. }
  assert (Hcarga : forall (inst0 : option Model) (flag0 : bool),
            (if flag0 then inst0 else None) = None ->
            obter_modelo Model caminho carga (Mk Model inst0 flag0 log)
            = match carga with
              | Ret m =>
                  (Ret m, Mk Model (Some m) true (log ++ [caminho]))
              | Raise e =>
                  (Raise e, Mk Model inst0 flag0 (log ++ [caminho]))
              end).
  { intros inst0 flag0 H. unfold obter_modelo.
    cbn [_instancia_modelo _modelo_carregado]. rewrite H.
    unfold try_except, bind, construir, modify, ret, raise.
    destruct carga; reflexivity. }
  destruct flag, inst as [ m | ]; cbn [andb truthy_opt].
  - rewrite Hcache. repeat split; auto.
  - rewrite Hcarga by reflexivity.
    destruct carga as [ m | e ]; cbn [_instancia_modelo _modelo_carregado
                                       cargas andb truthy_opt].
    + repeat split; auto. discriminate.
    + repeat split.
  - rewrite Hcarga by reflexivity.
    destruct carga as [ m' | e ]; cbn [_instancia_modelo _modelo_carregado
                                        cargas andb truthy_opt].
    + repeat split; auto. discriminate.
    + repeat split.
  - rewrite Hcarga by reflexivity.
    destruct carga as [ m | e ]; cbn [_instancia_modelo _modelo_carregado
                                       cargas andb truthy_opt].
    + repeat split; auto. discriminate.
    + repeat split.
Qed.

End CarregadorExtras.

Section InicializacaoExtras.

Import Inicializacao.

(** X12.  [validar] accepts a configuration exactly when the model path
    is set and not empty, exists, is a directory, and the log directory
    can be created.  The checks run in that order: a missing or empty
    path is reported before the file system is looked at, a path that
    does not exist before one that is not a directory.  The sample rate
    is never the reason, since the fixed rate is a supported one; and
    the log directory is created only after the model path passed its
    checks. *)
Theorem validar_casos (a : ambiente) (fs : sistema_arquivos) :
  (fst (validar a fs) = None <->
     exists caminho,
       CAMINHO_MODELO_VOSK a = Some caminho
       /\ caminho <> []
       /\ existe fs caminho = true
       /\ e_diretorio fs caminho = true
       /\ mkdir fs (DIRETORIO_LOGS a) = true)
  /\ (CAMINHO_MODELO_VOSK a = None \/ CAMINHO_MODELO_VOSK a = Some [] ->
        validar a fs = (Some ModeloNaoConfigurado, []))
  /\ (forall caminho,
        CAMINHO_MODELO_VOSK a = Some caminho -> caminho <> [] ->
        existe fs caminho = false ->
        validar a fs = (Some (ModeloNaoEncontrado caminho), []))
  /\ (forall caminho,
        CAMINHO_MODELO_VOSK a = Some caminho -> caminho <> [] ->
        existe fs caminho = true -> e_diretorio fs caminho = false ->
        validar a fs = (Some (ModeloNaoDiretorio caminho), []))
  /\ (forall taxa, fst (validar a fs) <> Some (TaxaInvalida taxa))
  /\ (snd (validar a fs) <> [] ->
        snd (validar a fs) = [DIRETORIO_LOGS a]
        /\ exists caminho,
             CAMINHO_MODELO_VOSK a = Some caminho
             /\ existe fs caminho = true
             /\ e_diretorio fs caminho = true).
Proof.
  unfold validar.
  change (existsb (Z.eqb ConfiguracaoSTT.TAXA_AMOSTRAGEM) taxas_suportadas)
    with true.
  cbn [negb].
  split; [ | split; [ | split; [ | split; [ | split ] ] ] ].
  - split.
    + destruct (CAMINHO_MODELO_VOSK a) as [ [ | x p ] | ];
        cbn [truthy negb fst]; try discriminate.
      destruct (existe fs (x :: p)) eqn:He; cbn [negb fst];
        [ | discriminate ].
      destruct (e_diretorio fs (x :: p)) eqn:Hd; cbn [negb fst];
        [ | discriminate ].
      destruct (mkdir fs (DIRETORIO_LOGS a)) eqn:Hm; cbn [fst];
        [ | discriminate ].
      intros _. exists (x :: p). repeat split; auto. discriminate.
    + intros (p & -> & Hne & He & Hd & Hm).
      destruct p as [ | x p ]; [ congruence | ].
      cbn [truthy negb]. rewrite He, Hd, Hm. reflexivity.
  - intros [ -> | -> ]; reflexivity.
  - intros p -> Hne He.
    destruct p as [ | x p ]; [ congruence | ].
    cbn [truthy negb]. rewrite He. reflexivity.
  - intros p -> Hne He Hd.
    destruct p as [ | x p ]; [ congruence | ].
    cbn [truthy negb]. rewrite He, Hd. reflexivity.
  - intro taxa.
    destruct (CAMINHO_MODELO_VOSK a) as [ [ | x p ] | ];
      cbn [truthy negb fst]; try discriminate.
    destruct (existe fs (x :: p)); cbn [negb fst]; [ | discriminate ].
    destruct (e_diretorio fs (x :: p)); cbn [negb fst]; [ | discriminate ].
    destruct (mkdir fs (DIRETORIO_LOGS a)); cbn [fst]; discriminate.
  - destruct (CAMINHO_MODELO_VOSK a) as [ [ | x p ] | ];
      cbn [truthy negb snd]; try congruence.
    destruct (existe fs (x :: p)) eqn:He; cbn [negb snd]; [ | congruence ].
    destruct (e_diretorio fs (x :: p)) eqn:Hd; cbn [negb snd];
      [ | congruence ].
    destruct (mkdir fs (DIRETORIO_LOGS a)); cbn [snd]; intros _;
      (split; [ reflexivity | exists (x :: p); repeat split; auto ]).
Qed.

Variable Model : Type.

(** X13.  Start-up is fail-fast and the health endpoint tells its
    outcome.  From a fresh process: when start-up succeeds the
    configuration was valid, the model was loaded exactly once, and
    [/health] answers "healthy" with the model "loaded" and its path.
    When validation fails the model is never loaded, not even tried;
    when loading fails the exception is the loader's.  In both failing
    cases [/health] answers "degraded" with the model "not_loaded" and
    no path. *)
Theorem startup_e_health (a : ambiente) (fs : sistema_arquivos)
    (cfg : ConfiguracaoSTT.t) (carga : res Model) :
  let '(falha, c', _) :=
    startup Model a fs carga (Carregador.inicial Model) in
  let h := health_check Model a cfg c' in
  match falha with
  | None =>
      fst (validar a fs) = None
      /\ (exists m, carga = Ret m)
      /\ Carregador.cargas c' = [CAMINHO_MODELO_VOSK a]
      /\ status h = "healthy"%string
      /\ vosk_model_status (components h) = "loaded"%string
      /\ vosk_model_path (components h) = Some (str_caminho a)
  | Some (FalhaConfiguracao e) =>
      fst (validar a fs) = Some e
      /\ c' = Carregador.inicial Model
      /\ status h = "degraded"%string
      /\ vosk_model_status (components h) = "not_loaded"%string
      /\ vosk_model_path (components h) = None
  | Some (FalhaModelo e) =>
      fst (validar a fs) = None
      /\ carga = Raise e
      /\ Carregador.cargas c' = [CAMINHO_MODELO_VOSK a]
      /\ status h = "degraded"%string
      /\ vosk_model_status (components h) = "not_loaded"%string
      /\ vosk_model_path (components h) = None
  end.
Proof.
  unfold startup.
  destruct (validar a fs) as [[ e | ] dirs]; cbn [fst].
  - repeat split.
  - unfold Carregador.obter_modelo, Carregador.inicial.
    cbn [Carregador._modelo_carregado Carregador._instancia_modelo].
    unfold try_except, bind, Carregador.construir, modify, ret, raise.
    destruct carga as [ m | e ]; cbn.
    + repeat split. now exists m.
    + repeat split.
Qed.

End InicializacaoExtras.

(* ================================================================== *)
(** * Further properties of the session handler                        *)
(* ================================================================== *)

Section SessaoExtras.

Import Esquema Gateway ReferenciaSessao ReferenciaGateway.

Variable K : Motor.KaldiRecognizer.
Variable cfg : ConfiguracaoSTT.t.

Local Abbreviation canal := (canal K).
Local Abbreviation rede := (rede K).

Lemma iteracao_vazio (id : str) (q : quadro) (s : sessao K) :
  quadro_vazio q = true -> iteracao K cfg id q s = (Ret tt, s).
Proof.
  unfold quadro_vazio, iteracao, bind, of_res, ret.
  destruct (receive_bytes q) as [ [ | b l ] | e ]; try discriminate.
  reflexivity.
Qed.

Lemma laco_sem_vazios (id : str) (qs : list quadro) (s : sessao K) :
  laco K cfg id (filter (fun q => negb (quadro_vazio q)) qs) s
  = laco K cfg id qs s.
Proof.
  revert s. induction qs as [ | q qs IH ]; intro s; [ reflexivity | ].
  cbn [filter laco]. destruct (quadro_vazio q) eqn:E; cbn [negb].
  - unfold bind. rewrite (iteracao_vazio id q s E). apply IH.
  - cbn [laco]. unfold bind.
    destruct (iteracao K cfg id q s) as [[ u | e ] s1]; [ apply IH | ].
    reflexivity.
Qed.

(** X14.  Empty frames are ignored altogether: a session in which the
    client interleaves empty frames with its audio ends in the same
    state, with the same messages sent, the same requests on the wire,
    the same engine counters and the same outcome, as the session
    without them. *)
Theorem quadros_vazios_ignorados (amb : ambiente K) :
  websocket_stt K cfg (sem_quadros_vazios amb) (inicial K)
  = websocket_stt K cfg amb (inicial K).
Proof.
  unfold websocket_stt, try_finally, try_except.
  assert (Hcorpo : corpo K cfg (sem_quadros_vazios amb) (inicial K)
                   = corpo K cfg amb (inicial K)).
  { unfold corpo, bind, sem_quadros_vazios.
    cbn [uuid4 criar_motor send_inicio quadros].
    destruct (of_res (criar_motor K amb) (inicial K)) as [[ r | e ] s0];
      [ | reflexivity ].
    repeat match goal with
           | |- context [match ?x with (_, _) => _ end] =>
               destruct x as [[ ? | ? ] ?]; try reflexivity
           end.
    apply laco_sem_vazios. }
  rewrite Hcorpo. reflexivity.
Qed.

(** The engine seen from a turn: what it returned, or what it raised. *)
Lemma processar_audio_casos (audio : list Byte.byte) (mo : Motor.t K) :
  match fst (Motor.processar_audio K audio mo) with
  | Ret (true, texto, _) =>
      fst (Motor.AcceptWaveform K (Motor.recognizer mo) audio) = Ret true
      /\ exists k,
           texto = strip (Motor.get_or (Motor.text (fst (Motor.Result K k))) [])
  | Ret (false, texto, _) =>
      texto = []
      \/ exists k,
           texto = strip (Motor.get_or
                            (Motor.partial (fst (Motor.PartialResult K k))) [])
  | Raise _ => True
  end.
Proof.
  unfold Motor.processar_audio, bind, modify, Motor.accept_waveform,
    Motor.call, of_res, ret.
  cbn [fst snd Motor.recognizer Motor.add_bytes].
  destruct (Motor.AcceptWaveform K (Motor.recognizer mo) audio)
    as [[ [ | ] | e ] k]; cbn [fst snd Motor.recognizer Motor.set_recognizer];
    [ | | exact Logic.I ].
  - destruct (Motor.Result K k) as [r k'] eqn:Hr.
    cbn [fst snd]. destruct (strip _) as [ | c t ] eqn:Hs; cbn [truthy].
    + cbn. now left.
    + destruct (Motor.conf_str _); cbn; [ | exact Logic.I ].
      split; [ reflexivity | ]. exists k. rewrite Hr. cbn [fst].
      symmetry. exact Hs.
  - destruct (Motor.PartialResult K k) as [r k'] eqn:Hr.
    cbn [fst snd]. destruct (strip _) as [ | c t ] eqn:Hs; cbn [truthy]; cbn.
    + now left.
    + right. exists k. rewrite Hr. cbn [fst]. symmetry. exact Hs.
Qed.

(** A turn whose engine result is not a final with text leaves the
    orchestrator and the wire alone and delivers no final message. *)
Lemma iteracao_sem_final (id : str) (q : quadro) (s : sessao K) :
  (forall audio mo texto confianca,
     fst (Motor.processar_audio K audio mo) = Ret (true, texto, confianca) ->
     texto = []) ->
  rede (snd (iteracao K cfg id q s)) = rede s
  /\ orquestrador K (snd (iteracao K cfg id q s)) = orquestrador K s
  /\ exists novos,
       canal (snd (iteracao K cfg id q s)) = canal s ++ novos
       /\ Forall (fun m => tipo m = TRANSCRICAO_PARCIAL) novos.
Proof.
  intro Hnf.
  assert (Hnada : forall s0 : sessao K,
            canal s0 = canal s ->
            exists novos, canal s0 = canal s ++ novos
              /\ Forall (fun m => tipo m = TRANSCRICAO_PARCIAL) novos).
  { intros s0 H. exists []. rewrite app_nil_r. split; [ exact H | constructor ]. }
  unfold iteracao, bind, of_res, ret, get, modify.
  destruct (receive_bytes q) as [ audio | e ]; cbn [fst snd];
    [ | repeat split; now apply Hnada ].
  destruct (truthy audio); cbn [negb]; [ | repeat split; now apply Hnada ].
  unfold no_motor. destruct (motor_stt K s) as [ mo | ];
    [ | repeat split; now apply Hnada ].
  specialize (Hnf audio mo).
  destruct (Motor.processar_audio K audio mo)
    as [[ [[is_final texto] confianca] | e ] mo']; cbn [fst snd] in *;
    [ | repeat split; now apply Hnada ].
  destruct is_final.
  - rewrite (Hnf texto confianca eq_refl). cbn.
    repeat split; now apply Hnada.
  - cbn [andb negb]. destruct (truthy texto);
      [ | cbn; repeat split; now apply Hnada ].
    cbn [set_motor ultima_emissao_parcial].
    destruct (Qge_bool _ _); [ | cbn; repeat split; now apply Hnada ].
    unfold nova_parcial. destruct (confianca_valida confianca);
      [ | cbn; repeat split; now apply Hnada ].
    unfold enviar. destruct (send_json q); cbn;
      [ | repeat split; now apply Hnada ].
    repeat split. eexists. split; [ reflexivity | ].
    constructor; [ reflexivity | constructor ].
Qed.

Lemma laco_sem_final (id : str) (qs : list quadro) (s : sessao K) :
  (forall audio mo texto confianca,
     fst (Motor.processar_audio K audio mo) = Ret (true, texto, confianca) ->
     texto = []) ->
  rede (snd (laco K cfg id qs s)) = rede s
  /\ orquestrador K (snd (laco K cfg id qs s)) = orquestrador K s
  /\ exists novos,
       canal (snd (laco K cfg id qs s)) = canal s ++ novos
       /\ Forall (fun m => tipo m = TRANSCRICAO_PARCIAL) novos.
Proof.
  intro Hnf. revert s. induction qs as [ | q qs IH ]; intro s.
  - cbn. repeat split. exists []. rewrite app_nil_r.
    split; [ reflexivity | constructor ].
  - cbn [laco]. unfold bind.
    destruct (iteracao_sem_final id q s Hnf) as (Hr & Ho & n1 & Hc & Hf).
    destruct (iteracao K cfg id q s) as [[ u | e ] s1]; cbn [fst snd] in *.
    + destruct (IH s1) as (Hr2 & Ho2 & n2 & Hc2 & Hf2).
      split; [ congruence | ]. split; [ congruence | ].
      exists (n1 ++ n2). rewrite Hc2, Hc, app_assoc.
      split; [ reflexivity | now apply Forall_app ].
    + repeat split; try assumption. now exists n1.
Qed.

(** X15.  Partial hypotheses never reach the downstream service.  With
    a recognizer that reports no utterance boundary, whatever the
    frames, the loop delivers partial messages only, puts nothing on
    the wire and leaves the orchestrator, and so its counters, as they
    were. *)
Theorem parciais_nao_despacham (id : str) (qs : list quadro) (s : sessao K) :
  sem_fronteira K ->
  rede (snd (laco K cfg id qs s)) = rede s
  /\ orquestrador K (snd (laco K cfg id qs s)) = orquestrador K s
  /\ exists novos,
       canal (snd (laco K cfg id qs s)) = canal s ++ novos
       /\ Forall (fun m => tipo m = TRANSCRICAO_PARCIAL) novos.
Proof.
  intro H. apply laco_sem_final.
  intros audio mo texto confianca Hp.
  pose proof (processar_audio_casos audio mo) as Hc. rewrite Hp in Hc.
  destruct Hc as [Hc _]. exfalso. exact (H _ _ Hc).
Qed.

(** X16.  A session in which the recognizer only ever has blank text
    delivers neither a partial nor a final message and sends nothing
    downstream during the loop: the client sees [session_started] and,
    if the session ends by an error, the error message. *)
Theorem sessao_silenciosa (amb : ambiente K) :
  so_silencio K ->
  Forall (fun m => tipo m = SESSAO_INICIADA \/ tipo m = ERRO)
    (mensagens K cfg amb)
  /\ forall id qs s, rede (snd (laco K cfg id qs s)) = rede s.
Proof.
  intro H.
  assert (Hnf : forall audio mo texto confianca,
            fst (Motor.processar_audio K audio mo)
            = Ret (true, texto, confianca) -> texto = []).
  { intros audio mo texto confianca Hp.
    pose proof (processar_audio_casos audio mo) as Hc. rewrite Hp in Hc.
    destruct Hc as (_ & k & ->). apply (H k). }
  assert (Hsil : forall id q (s : sessao K),
            canal (snd (iteracao K cfg id q s)) = canal s).
  { intros id q s.
    unfold iteracao, bind, of_res, ret, get, modify.
    destruct (receive_bytes q) as [ audio | e ]; cbn [fst snd];
      [ | reflexivity ].
    destruct (truthy audio); cbn [negb]; [ | reflexivity ].
    unfold no_motor. destruct (motor_stt K s) as [ mo | ]; [ | reflexivity ].
    pose proof (processar_audio_casos audio mo) as Hc.
    destruct (Motor.processar_audio K audio mo)
      as [[ [[is_final texto] confianca] | e ] mo']; cbn [fst snd] in *;
      [ | reflexivity ].
    assert (Ht : texto = []).
    { destruct is_final.
      - destruct Hc as (_ & k & ->). apply (H k).
      - destruct Hc as [ -> | (k & ->) ]; [ reflexivity | apply (H k) ]. }
    subst texto. destruct is_final; reflexivity. }
  assert (Hlaco : forall id qs (s : sessao K),
            canal (snd (laco K cfg id qs s)) = canal s).
  { intros id qs. induction qs as [ | q qs IH ]; intro s; [ reflexivity | ].
    cbn [laco]. unfold bind. specialize (Hsil id q s).
    destruct (iteracao K cfg id q s) as [[ u | e ] s1]; cbn [fst snd] in *.
    - rewrite IH. exact Hsil.
    - exact Hsil. }
  split; [ | intros id qs s; apply (laco_sem_final id qs s Hnf) ].
  unfold mensagens, websocket_stt.
  rewrite try_finally_snd, finalizacao_canal.
  unfold try_except.
  assert (Hcorpo : canal (snd (corpo K cfg amb (inicial K))) = []
                   \/ canal (snd (corpo K cfg amb (inicial K)))
                      = [MensagemSessaoIniciada (uuid4 K amb) (lit "pt-br")
                           16000 1 ConfiguracaoSTT.VERSAO_SERVICO]).
  { unfold corpo, bind, of_res, modify, nova_sessao_iniciada, enviar.
    destruct (criar_motor K amb) as [ r | e ]; cbn [fst snd];
      [ | left; reflexivity ].
    destruct (send_inicio K amb) as [ u | e ]; cbn [fst snd];
      [ | left; reflexivity ].
    match goal with
    | |- context [laco K cfg ?id ?qs ?s0] =>
        pose proof (Hlaco id qs s0) as Hl;
        destruct (laco K cfg id qs s0) as [[ u' | e ] s']
    end; right; exact Hl. }
  assert (Hfim : forall l e0,
            l = [] \/ l = [MensagemSessaoIniciada (uuid4 K amb) (lit "pt-br")
                             16000 1 ConfiguracaoSTT.VERSAO_SERVICO] ->
            Forall (fun m => tipo m = SESSAO_INICIADA \/ tipo m = ERRO) l
            /\ Forall (fun m => tipo m = SESSAO_INICIADA \/ tipo m = ERRO)
                 (l ++ [MensagemErro (Some (uuid4 K amb))
                          (lit "PROCESSING_ERROR") e0])).
  { intros l e0 [ -> | -> ]; split; cbn [app];
      repeat first [ apply Forall_nil
                   | apply Forall_cons;
                     [ first [ left; reflexivity | right; reflexivity ] | ] ]. }
  destruct (corpo K cfg amb (inicial K)) as [[ u | e ] s']; cbn [snd] in *.
  - apply (Hfim _ [] Hcorpo).
  - pose proof (tratadores_canal K amb e s') as Htr. cbv zeta in Htr.
    destruct (select _ e) as [ h | ]; cbn [snd] in *.
    + destruct Htr as [ -> | -> ]; apply (Hfim _ (exn_str e) Hcorpo).
    + apply (Hfim _ [] Hcorpo).
Qed.

(** X17.  How a session that ends by an exception is reported.  When
    the [try] block ends with the exception [e], the client has
    received the messages delivered so far and then: nothing more if
    [e] is the client's own disconnect; otherwise one [error] message
    with code PROCESSING_ERROR and the text of [e], unless that send
    fails too, which is swallowed.  Teardown adds no message. *)
Theorem mensagem_de_erro (amb : ambiente K) (e : exn) (s' : sessao K) :
  corpo K cfg amb (inicial K) = (Raise e, s') ->
  mensagens K cfg amb
  = canal s'
    ++ (if issubclass (exn_class e) WebSocketDisconnect then []
        else match send_erro K amb with
             | Ret _ => [MensagemErro (Some (uuid4 K amb))
                           (lit "PROCESSING_ERROR") (exn_str e)]
             | Raise _ => []
             end).
Proof.
  intro H. unfold mensagens, websocket_stt.
  rewrite try_finally_snd, finalizacao_canal.
  unfold try_except. rewrite H. cbn [select].
  destruct (issubclass (exn_class e) WebSocketDisconnect).
  - cbn. now rewrite app_nil_r.
  - cbn [issubclass].
    unfold tratar_erro, try_except, bind, of_res, novo_erro, enviar, ret.
    destruct (send_erro K amb) as [ u | e' ]; cbn.
    + reflexivity.
    + now rewrite app_nil_r.
Qed.

Lemma try_finally_fst {S A} (b : M S A) (f : M S unit) (s : S) :
  fst (try_finally b f s)
  = match fst (f (snd (b s))) with
    | Ret _ => fst (b s)
    | Raise e => Raise e
    end.
Proof.
  unfold try_finally. destruct (b s) as [r s1]. cbn [fst snd].
  destruct (f s1) as [[ u | e ] s2]; reflexivity.
Qed.

(** Both [except] clauses end normally. *)
Lemma tratadores_ret (amb : ambiente K) (e : exn) (s : sessao K) :
  fst (match select [(WebSocketDisconnect, fun _ => ret tt);
                     (Exception, tratar_erro K amb)] e with
       | Some h => h s
       | None => (Raise e, s)
       end) = Ret tt
  /\ motor_stt K (snd (match select [(WebSocketDisconnect, fun _ => ret tt);
                                     (Exception, tratar_erro K amb)] e with
                       | Some h => h s
                       | None => (Raise e, s)
                       end)) = motor_stt K s.
Proof.
  cbn [select].
  destruct (issubclass (exn_class e) WebSocketDisconnect);
    [ split; reflexivity | ].
  cbn [issubclass].
  unfold tratar_erro, try_except, bind, of_res, novo_erro, enviar, ret.
  destruct (send_erro K amb) as [ u | e' ]; cbn; split; reflexivity.
Qed.

(** The [finally] block ends normally, or with the formatting error of
    the engine's flush. *)
Lemma finalizacao_resultado (amb : ambiente K) (s : sessao K) :
  fst (finalizacao K amb s) = Ret tt
  \/ exists e mo,
       fst (finalizacao K amb s) = Raise e
       /\ motor_stt K s = Some mo
       /\ strip (Motor.get_or
                   (Motor.text (fst (Motor.FinalResult K (Motor.recognizer mo))))
                   []) <> []
       /\ (exn_class e = ValueError \/ exn_class e = TypeError).
Proof.
  unfold finalizacao, bind, get, ret. cbn [fst snd].
  destruct (motor_stt K s) as [ mo | ] eqn:Hm; cbn [truthy_opt];
    [ | left; reflexivity ].
  assert (Hnm : no_motor K (Motor.finalizar_sessao K) s
                = (let '(r, mo') := Motor.finalizar_sessao K mo in
                   (r, set_motor K (Some mo') s))).
  { unfold no_motor. rewrite Hm. reflexivity. }
  rewrite Hnm. clear Hnm.
  pose proof (finalizar_sessao_casos K mo) as Hf. cbv zeta in Hf.
  destruct Hf as [Hvazio Htexto].
  destruct (strip (Motor.get_or
                     (Motor.text (fst (Motor.FinalResult K
                                         (Motor.recognizer mo)))) []))
    as [ | c t ] eqn:Hs.
  - rewrite (Hvazio eq_refl). left. reflexivity.
  - destruct (Htexto ltac:(discriminate)) as (e & He & Hc). rewrite He.
    right. exists e, mo. cbn.
    split; [ reflexivity | ]. split; [ reflexivity | ].
    split; [ try rewrite Hs; discriminate | ].
    destruct (Motor._calcular_confianca_media _); [ left | right ]; exact Hc.
Qed.

(** X18.  The handler absorbs every failure of the session itself.
    Whatever the client, the recognizer, the downstream service and the
    sends do, the handler ends normally, with one exception: the
    engine's flush at teardown, when text is still pending, whose
    [ValueError] or [TypeError] escapes.  In particular a session whose
    engine could not be built always ends normally. *)
Theorem websocket_stt_absorve_falhas (amb : ambiente K) :
  (fst (websocket_stt K cfg amb (inicial K)) = Ret tt
   \/ exists e r,
        fst (websocket_stt K cfg amb (inicial K)) = Raise e
        /\ (exn_class e = ValueError \/ exn_class e = TypeError)
        /\ criar_motor K amb = Ret r)
  /\ ((exists e, criar_motor K amb = Raise e) ->
        fst (websocket_stt K cfg amb (inicial K)) = Ret tt).
Proof.
  assert (Hgeral :
    fst (websocket_stt K cfg amb (inicial K)) = Ret tt
    \/ exists e mo,
         fst (websocket_stt K cfg amb (inicial K)) = Raise e
         /\ (exn_class e = ValueError \/ exn_class e = TypeError)
         /\ motor_stt K (snd (try_except (corpo K cfg amb)
                                [(WebSocketDisconnect, fun _ => ret tt);
                                 (Exception, tratar_erro K amb)] (inicial K)))
            = Some mo).
  { unfold websocket_stt. rewrite try_finally_fst.
    destruct (corpo_casos K cfg amb) as (e & s' & Hcorpo & _).
    assert (Htry : fst (try_except (corpo K cfg amb)
                          [(WebSocketDisconnect, fun _ => ret tt);
                           (Exception, tratar_erro K amb)] (inicial K))
                   = Ret tt).
    { unfold try_except. rewrite Hcorpo. apply tratadores_ret. }
    rewrite Htry.
    destruct (finalizacao_resultado amb
                (snd (try_except (corpo K cfg amb)
                        [(WebSocketDisconnect, fun _ => ret tt);
                         (Exception, tratar_erro K amb)] (inicial K))))
      as [ -> | (e' & mo & -> & Hm & _ & Hc) ].
    - left. reflexivity.
    - right. exists e', mo. repeat split; assumption. }
  assert (Hsem : forall e, criar_motor K amb = Raise e ->
            motor_stt K (snd (try_except (corpo K cfg amb)
                                [(WebSocketDisconnect, fun _ => ret tt);
                                 (Exception, tratar_erro K amb)] (inicial K)))
            = None).
  { intros e He. unfold try_except.
    assert (Hc : corpo K cfg amb (inicial K) = (Raise e, inicial K)).
    { unfold corpo, bind, of_res. rewrite He. reflexivity. }
    rewrite Hc. rewrite (proj2 (tratadores_ret amb e (inicial K))).
    reflexivity. }
  split.
  - destruct Hgeral as [ H | (e & mo & H & Hc & Hm) ]; [ now left | ].
    right. destruct (criar_motor K amb) as [ r | e0 ] eqn:Hcm.
    + exists e, r. repeat split; assumption.
    + rewrite (Hsem e0 eq_refl) in Hm. discriminate.
  - intros (e0 & He0).
    destruct Hgeral as [ H | (e & mo & _ & _ & Hm) ]; [ exact H | ].
    rewrite (Hsem e0 He0) in Hm. discriminate.
Qed.

End SessaoExtras.

Section RoteirosExtras.

Import Esquema Gateway ReferenciaSessao ReferenciaGateway ReferenciaMotor.

Let cfg := ConfiguracaoSTT.padrao.

Lemma K_continuo_sem_fronteira : sem_fronteira K_continuo.
Proof. intros k audio. cbn. discriminate. Defined.

Lemma K_mudo_so_silencio : so_silencio K_mudo.
Proof. intro k. split; reflexivity. Defined.

Lemma parciais_nao_despacham_witness :
  rede _ (snd (laco K_continuo cfg sid [fala 1000; fala 1001]
                 (MkSessao K_continuo (Some (Motor.init K_continuo sid tt))
                    (Some (Orq.init cfg sid)) 0 [] []))) = [].
Proof.
  apply (proj1 (parciais_nao_despacham K_continuo cfg sid
                  [fala 1000; fala 1001]
                  (MkSessao K_continuo (Some (Motor.init K_continuo sid tt))
                     (Some (Orq.init cfg sid)) 0 [] [])
                  K_continuo_sem_fronteira)).
Defined.

Lemma sessao_silenciosa_witness :
  Forall (fun m => tipo m = SESSAO_INICIADA \/ tipo m = ERRO)
    (mensagens K_mudo cfg (amb_com_vazio K_mudo tt)).
Proof.
  apply (proj1 (sessao_silenciosa K_mudo cfg (amb_com_vazio K_mudo tt)
                  K_mudo_so_silencio)).
Defined.

Lemma mensagem_de_erro_witness :
  mensagens K_roteiro cfg amb_motor_quebra
  = [MensagemSessaoIniciada sid (lit "pt-br") 16000 1
       ConfiguracaoSTT.VERSAO_SERVICO;
     MensagemErro (Some sid) (lit "PROCESSING_ERROR")
       (lit "Failed to process waveform")].
Proof.
  rewrite (mensagem_de_erro K_roteiro cfg amb_motor_quebra
             (MkExn Exception (lit "Failed to process waveform"))
             (snd (corpo K_roteiro cfg amb_motor_quebra (inicial K_roteiro)))
             eq_refl).
  reflexivity.
Defined.

Lemma websocket_stt_absorve_falhas_witness :
  fst (websocket_stt K_roteiro cfg amb_motor_falha (inicial K_roteiro))
  = Ret tt.
Proof.
  apply (proj2 (websocket_stt_absorve_falhas K_roteiro cfg amb_motor_falha)).
  eexists. reflexivity.
Defined.

Lemma processar_audio_resultado_witness :
  aparado (lit "ola mundo") /\ strip (lit "ola mundo") = lit "ola mundo".
Proof.
  destruct (processar_audio_resultado K_roteiro [Byte.x02]
              (Motor.init K_roteiro sid true)
              (snd (Motor.processar_audio K_roteiro [Byte.x02]
                      (Motor.init K_roteiro sid true)))
              true (lit "ola mundo") (Some (7 # 10)) eq_refl)
    as (Ha & Hs & _).
  split; assumption.
Defined.

Lemma processar_seq_contadores_witness :
  Motor.bytes_processados
    (snd (processar_seq K_roteiro [[Byte.x01; Byte.x00]; [Byte.x02]]
            (Motor.init K_roteiro sid false)))
  = 0 + fold_right Z.add 0 (List.map len [[Byte.x01; Byte.x00]; [Byte.x02]]).
Proof.
  apply (proj2 (proj2 (proj2 (proj2
           (processar_seq_contadores K_roteiro
              [[Byte.x01; Byte.x00]; [Byte.x02]]
              (Motor.init K_roteiro sid false)))))).
  reflexivity.
Defined.

End RoteirosExtras.

(* ================================================================== *)
(** * The test client's framing                                        *)
(* ================================================================== *)

Section ClienteExtras.

Import TestClient.

Local Open Scope nat_scope.

Lemma firstn_soma {A} (a b : nat) (l : list A) :
  firstn (a + b) l = firstn a l ++ firstn b (skipn a l).
Proof.
  revert l. induction a as [ | a IH ]; intro l; [ reflexivity | ].
  destruct l as [ | x l ]; cbn [Nat.add firstn skipn app].
  - now rewrite firstn_nil.
  - now rewrite IH.
Qed.

Lemma concat_chunks {A} (k m : nat) (d : list A) :
  List.concat (List.map (fun i => slice d i (i + k))
            (List.map (fun j => j * k) (seq 0 m)))
  = firstn (m * k) d.
Proof.
  induction m as [ | m IH ]; [ reflexivity | ].
  rewrite seq_S, !map_app, concat_app, IH. cbn [List.map List.concat Nat.add].
  rewrite app_nil_r. unfold slice.
  replace (m * k + k - m * k) with k by lia.
  replace (S m * k) with (m * k + k) by lia.
  symmetry. apply firstn_soma.
Qed.

Lemma teto_cobre (n k : nat) : 0 < k -> n <= (n + k - 1) / k * k.
Proof.
  intro Hk.
  pose proof (Nat.mul_succ_div_gt (n + k - 1) k ltac:(lia)). nia.
Qed.

Lemma teto_justo (n k : nat) :
  0 < k -> 0 < n -> ((n + k - 1) / k - 1) * k < n.
Proof.
  intros Hk Hn.
  pose proof (Nat.Div0.mul_div_le (n + k - 1) k). nia.
Qed.

Lemma teto_divisao (n k : nat) :
  0 < k ->
  (n + k - 1) / k = n / k + (if n mod k =? 0 then 0 else 1).
Proof.
  intro Hk.
  pose proof (Nat.div_mod_eq n k) as Hn.
  pose proof (Nat.mod_upper_bound n k ltac:(lia)) as Hr.
  destruct (Nat.eqb_spec (n mod k) 0) as [ E | E ].
  - symmetry. apply (Nat.div_unique _ _ _ (k - 1)); lia.
  - symmetry. apply (Nat.div_unique _ _ _ (n mod k - 1)); lia.
Qed.

(** The frames cut with any positive step. *)
Lemma chunks_de_propriedades (k : nat) (d : list Byte.byte) :
  0 < k ->
  List.concat (chunks_de k d) = d
  /\ Forall (fun c => 1 <= List.length c <= k) (chunks_de k d)
  /\ List.length (chunks_de k d)
     = List.length d / k + (if List.length d mod k =? 0 then 0 else 1).
Proof.
  intro Hk. unfold chunks_de, range_step.
  split; [ | split ].
  - rewrite concat_chunks. apply firstn_all2. now apply teto_cobre.
  - apply Forall_forall. intros c Hc.
    apply in_map_iff in Hc as (i & <- & Hi).
    apply in_map_iff in Hi as (j & <- & Hj).
    apply in_seq in Hj.
    assert (Hpos : 0 < List.length d).
    { destruct (List.length d) eqn:E; [ | lia ].
      replace ((0 + k - 1) / k) with 0 in Hj by
        (symmetry; apply Nat.div_small; lia). lia. }
    pose proof (teto_justo (List.length d) k Hk Hpos) as Hj2.
    assert (Hlt : j * k < List.length d) by nia.
    unfold slice. rewrite length_firstn, length_skipn.
    replace (j * k + k - j * k) with k by lia. lia.
  - rewrite !length_map, length_seq. now apply teto_divisao.
Qed.

(** X19.  The client's re-chunking loses nothing and never produces an
    empty frame: the frames it sends, concatenated, are exactly the
    audio after the 44-byte header; every frame has between 1 and
    [chunk_size] (8192) bytes; and the number of frames is the announced count plus one
    when the audio is not a whole number of chunks. *)
Theorem enviar_audio_sem_perdas (arquivo : list Byte.byte) :
  List.concat (enviar_audio arquivo) = skipn 44 arquivo
  /\ Forall (fun c => 1 <= List.length c <= chunk_size)
       (enviar_audio arquivo)
  /\ List.length (enviar_audio arquivo)
     = total_chunks arquivo
       + (if List.length (audio_data arquivo) mod chunk_size =? 0
          then 0 else 1).
Proof.
  assert (Hk : 0 < chunk_size) by (unfold chunk_size; lia).
  destruct (chunks_de_propriedades chunk_size (audio_data arquivo) Hk)
    as (Hc & Hf & Hl).
  split; [ exact Hc | ]. split; [ exact Hf | exact Hl ].
Qed.

End ClienteExtras.

(* ================================================================== *)
(** * Teardown and worked cases                                        *)
(* ================================================================== *)

Section TeardownExtras.

Import Esquema Gateway.

Variable K : Motor.KaldiRecognizer.
Variable cfg : ConfiguracaoSTT.t.

Lemma no_motor_rede {A} (m : M (Motor.t K) A) (s : sessao K) :
  rede K (snd (no_motor K m s)) = rede K s.
Proof.
  unfold no_motor. destruct (motor_stt K s) as [ mo | ]; [ | reflexivity ].
  destruct (m mo) as [r mo']. reflexivity.
Qed.

(** X20.  Nothing is sent downstream at teardown.  The flush of the
    engine either finds no text or raises, so the dispatch written in
    the [finally] block never runs: after every session the requests on
    the wire are exactly those the receive loop put there. *)
Theorem finalizacao_nao_despacha (amb : ambiente K) :
  (forall s, rede K (snd (finalizacao K amb s)) = rede K s)
  /\ rede K (snd (websocket_stt K cfg amb (inicial K)))
     = rede K (snd (corpo K cfg amb (inicial K))).
Proof.
  assert (Hfin : forall s, rede K (snd (finalizacao K amb s)) = rede K s).
  { intro s. unfold finalizacao, bind, get, ret. cbn [fst snd].
    destruct (motor_stt K s) as [ mo | ] eqn:Hm; cbn [truthy_opt];
      [ | reflexivity ].
    pose proof (no_motor_rede (Motor.finalizar_sessao K) s) as Hr.
    assert (Hnm : no_motor K (Motor.finalizar_sessao K) s
                  = (let '(r, mo') := Motor.finalizar_sessao K mo in
                     (r, set_motor K (Some mo') s))).
    { unfold no_motor. rewrite Hm. reflexivity. }
    rewrite Hnm in *. clear Hnm.
    pose proof (finalizar_sessao_casos K mo) as Hf. cbv zeta in Hf.
    destruct Hf as [Hvazio Htexto].
    destruct (strip (Motor.get_or
                       (Motor.text (fst (Motor.FinalResult K
                                           (Motor.recognizer mo)))) []))
      as [ | c t ].
    - rewrite (Hvazio eq_refl) in *. exact Hr.
    - destruct (Htexto ltac:(discriminate)) as (e & He & _).
      rewrite He in *. exact Hr. }
  split; [ exact Hfin | ].
  unfold websocket_stt. rewrite try_finally_snd, Hfin.
  unfold try_except.
  destruct (corpo K cfg amb (inicial K)) as [[ u | e ] s']; [ reflexivity | ].
  cbn [select snd].
  destruct (issubclass (exn_class e) WebSocketDisconnect); [ reflexivity | ].
  cbn [issubclass].
  unfold tratar_erro, try_except, bind, of_res, novo_erro, enviar, ret.
  destruct (send_erro K amb) as [ u | e' ]; reflexivity.
Qed.

End TeardownExtras.

Section CasosExtras.

Import Inicializacao.

Lemma modelo_carregado_uma_vez_witness :
  let c := snd (Carregador.obter_modelo nat (Some (lit "models/pt")) (Ret 7%nat)
                  (Carregador.inicial nat)) in
  Carregador.modelo_esta_carregado nat c = true
  /\ Carregador.obter_modelo nat None
       (Raise (MkExn Exception (lit "sem modelo"))) c = (Ret 7%nat, c).
Proof.
  cbv zeta.
  pose proof (modelo_carregado_uma_vez nat (Some (lit "models/pt"))
                (Ret 7%nat) (Carregador.inicial nat)) as H.
  change (Carregador.obter_modelo nat (Some (lit "models/pt")) (Ret 7%nat)
            (Carregador.inicial nat))
    with (Ret 7%nat,
          Carregador.Mk nat (Some 7%nat) true [Some (lit "models/pt")]) in H.
  destruct H as (Hl & Hsame & _).
  split; [ exact Hl | apply Hsame ].
Defined.

Lemma validar_casos_witness :
  validar (MkAmbiente (Some (lit "models/pt")) (lit "logs") 9100)
    (MkFS (fun _ => false) (fun _ => false) (fun _ => true))
  = (Some (ModeloNaoEncontrado (lit "models/pt")), []).
Proof.
  apply (proj1 (proj2 (proj2
           (validar_casos
              (MkAmbiente (Some (lit "models/pt")) (lit "logs") 9100)
              (MkFS (fun _ => false) (fun _ => false) (fun _ => true)))))
           (lit "models/pt")).
  - reflexivity.
  - discriminate.
  - reflexivity.
Defined.

End CasosExtras.
